(** * Code-Secure: a shallow embedding of the scanner core

    The development follows the TypeScript sources of the scanner:
    - [JS]            the fragment of the JavaScript runtime the scanner relies
                      on (UTF-16 strings, numbers, global regular expressions);
    - [Types]         [src/scanner/types.ts];
    - [RuleEngine]    [src/scanner/engine/rule-engine.ts];
    - [IndexedRules]  [src/scanner/engine/indexed-rules.ts];
    - [Meta]          [src/scanner/reporting/meta.ts];
    - [Confidence]    [src/scanner/confidence.ts];
    - [Summary], [Sarif]  [src/scanner/reporting/summary.ts] and [sarif.ts];
    - [Cache]         [src/scanner/cache.ts];
    - [McpClient]     [src/scanner/mcp/client-http.ts];
    - [McpCollect]    [src/scanner/mcp/collect.ts];
    - [Virtualize]    [src/scanner/mcp/virtualize.ts];
    - [Path], [Fs]    [path] (POSIX flavour), [src/utils/fs.ts] and
                      [hasNullByte] of [src/utils/path-safety.ts];
    - [Fix]           [src/scanner/fix.ts];
    - [McpRequest]    the request function of [rpc] in
                      [src/scanner/mcp/client-http.ts].

    The models come first, module by module; the properties follow in
    modules of their own. *)

From Stdlib Require Import ZArith NArith QArith Qpower Lia Lqa Bool Ascii String.
From Stdlib Require Import DecimalString Sorted.
From stdpp Require Import base option list.

Local Open Scope nat_scope.

(* ===================================================================== *)
(** * The JavaScript fragment *)
(* ===================================================================== *)

Module JS.

(** A JavaScript string is a sequence of UTF-16 code units. *)
Definition jsstring := list N.

(** String literals of the sources are written with [js "..."]. *)
Definition js (s : string) : jsstring :=
  map N_of_ascii (list_ascii_of_string s).

(** [s.startsWith(p)] *)
Fixpoint startsWith (s p : jsstring) {struct p} : bool :=
  match p, s with
  | [], _ => true
  | _ :: _, [] => false
  | c :: p', d :: s' => if N.eqb c d then startsWith s' p' else false
  end.

(** [s.endsWith(p)] *)
Definition endsWith (s p : jsstring) : bool :=
  startsWith (rev s) (rev p).

(** [s.includes(p)] *)
Fixpoint includes (s p : jsstring) : bool :=
  startsWith s p ||
  match s with
  | [] => false
  | _ :: s' => includes s' p
  end.

(** [s.slice(a, b)] for [0 <= a <= b]. *)
Definition slice (s : jsstring) (a b : nat) : jsstring :=
  take (b - a) (drop a s).

(** [parts.join(sep)] *)
Fixpoint join (sep : jsstring) (parts : list jsstring) : jsstring :=
  match parts with
  | [] => []
  | [p] => p
  | p :: rest => p ++ sep ++ join sep rest
  end.

(** ** Numbers

    A JavaScript number is an IEEE double; every finite double is a
    rational, and the three special values are kept apart. *)
Inductive number :=
| NaN
| NegInfinity
| Finite (q : Q)
| Infinity.

(** [a >= b] on numbers: false as soon as one side is [NaN]. *)
Definition geb (a b : number) : bool :=
  match a, b with
  | NaN, _ | _, NaN => false
  | Infinity, _ => true
  | _, NegInfinity => true
  | NegInfinity, _ => false
  | _, Infinity => false
  | Finite x, Finite y => Qle_bool y x
  end.

(** [a <= b] *)
Definition leb (a b : number) : bool := geb b a.

(** ** Regular expressions with the [g] flag

    The pattern itself is the engine's business: it is kept as the
    matcher [m(Input, index)] of the language specification, which
    answers with the end index of a match that starts at [index].
    What the scanner code depends on is the protocol around it:
    the [lastIndex] cursor that [exec] and [test] read and write. *)
Record Matcher := {
  run : jsstring -> nat -> option nat;
  run_bounds : forall s i e, run s i = Some e -> i <= e <= length s
}.

Record RegExp := {
  matcher : Matcher;
  lastIndex : nat
}.

Definition setLastIndex (re : RegExp) (i : nat) : RegExp :=
  {| matcher := matcher re; lastIndex := i |}.

(** The search loop of [RegExpBuiltinExec]: try [i], [i+1], ... for
    [count] candidate start positions. *)
Fixpoint search (m : Matcher) (s : jsstring) (i count : nat) : option (nat * nat) :=
  match count with
  | 0 => None
  | S k =>
      match run m s i with
      | Some e => Some (i, e)
      | None => search m s (S i) k
      end
  end.

(** [re.exec(s)] for a global expression: the answer is the pair
    (index, end) of the match, with [match[0] = s.slice(index, end)]. *)
Definition exec (re : RegExp) (s : jsstring) : option (nat * nat) * RegExp :=
  if length s <? lastIndex re then (None, setLastIndex re 0)
  else
    match search (matcher re) s (lastIndex re) (S (length s) - lastIndex re) with
    | Some (i, e) => (Some (i, e), setLastIndex re e)
    | None => (None, setLastIndex re 0)
    end.

(** [re.test(s)] is [re.exec(s) !== null], cursor update included. *)
Definition test (re : RegExp) (s : jsstring) : bool * RegExp :=
  let '(r, re') := exec re s in (bool_decide (r <> None), re').

(** What "the pattern matches [s]" means without any cursor: a
    search from the start of [s]. *)
Definition matches (m : Matcher) (s : jsstring) : bool :=
  bool_decide (search m s 0 (S (length s)) <> None).

(** The matcher of a pattern made of literal characters only. *)
Definition literalRun (p s : jsstring) (i : nat) : option nat :=
  if (i <=? length s) && startsWith (drop i s) p then Some (i + length p) else None.

(** A literal pattern as a matcher: the end it answers lies between
    the start and the end of the input. *)
Definition literal (p : jsstring) : Matcher.
Proof.
  refine {| run := literalRun p |}.
  assert (Hlen : forall q s : jsstring, startsWith s q = true -> length q <= length s).
  { induction q as [|c q IH]; intros [|d s]; simpl; try lia; try discriminate.
    destruct (N.eqb c d); [|discriminate]. intros H. apply IH in H. lia. }
  intros s i e. unfold literalRun.
  destruct (i <=? length s) eqn:Hi; simpl; [|discriminate].
  destruct (startsWith (drop i s) p) eqn:Hp; [|discriminate].
  intros [= <-]. apply Hlen in Hp. rewrite length_drop in Hp.
  apply Nat.leb_le in Hi. lia.
Defined.

(** [new RegExp(p, "g")] for a literal pattern. *)
Definition newRegExp (p : jsstring) : RegExp :=
  {| matcher := literal p; lastIndex := 0 |}.

End JS.

Export JS.


(* ===================================================================== *)
(** * Findings and rules ([src/scanner/types.ts]) *)
(* ===================================================================== *)

Module Types.

Inductive Severity := LOW | MEDIUM | HIGH | CRITICAL.

Inductive Source := signature | heuristic.

(** [Finding]; an optional field is an [option]. *)
Record Finding := {
  ruleId : jsstring;
  severity : Severity;
  message : jsstring;
  file : jsstring;
  line : option Z;
  category : option jsstring;
  remediation : option jsstring;
  source : option Source;
  confidence : option number;
  confidenceReason : option jsstring
}.

End Types.

Export Types.

Module Rule.

(** [CompiledRule = Rule & { _compiled; _excludeCompiled }].  The two
    lists hold the [RegExp] objects themselves: [loadRulesFromText]
    creates one fresh object per pattern, and the engine moves their
    cursors in place. *)
Record CompiledRule := {
  id : jsstring;
  category : jsstring;
  severity : Severity;
  patterns : list jsstring;
  file_types : list jsstring;
  description : option jsstring;
  remediation : option jsstring;
  exclude_patterns : option (list jsstring);
  _compiled : list RegExp;
  _excludeCompiled : list RegExp
}.

End Rule.

Abbreviation CompiledRule := Rule.CompiledRule.

(* ===================================================================== *)
(** * The rule engine ([src/scanner/engine/rule-engine.ts]) *)
(* ===================================================================== *)

Module RuleEngine.

(** [SCAN_LIMITS.MAX_FINDINGS_PER_RULE_PER_FILE] *)
Definition MAX_FINDINGS_PER_RULE_PER_FILE : nat := 20.

(** Offsets of the line starts after each ["\n"], [i] being the offset
    of the head of [content]. *)
Fixpoint lineStarts (content : jsstring) (i : nat) : list nat :=
  match content with
  | [] => []
  | c :: rest =>
      if N.eqb c 10 then S i :: lineStarts rest (S i) else lineStarts rest (S i)
  end.

Definition buildLineIndex (content : jsstring) : list nat :=
  0 :: lineStarts content 0.

(** The binary search of [indexToLine]; each turn shrinks [high - low],
    so [S (length lineIndex)] turns are never used up. *)
Fixpoint indexToLineLoop (turns : nat) (lineIndex : list nat) (position : nat)
    (low high : Z) : Z :=
  match turns with
  | 0 => low
  | S k =>
      if (low <=? high)%Z then
        let mid := ((low + high) / 2)%Z in
        if nth (Z.to_nat mid) lineIndex 0 <=? position
        then indexToLineLoop k lineIndex position (mid + 1)%Z high
        else indexToLineLoop k lineIndex position low (mid - 1)%Z
      else low
  end.

Definition indexToLine (lineIndex : list nat) (position : nat) : Z :=
  Z.max 1 (indexToLineLoop (S (length lineIndex)) lineIndex position
             0%Z (Z.of_nat (length lineIndex) - 1)%Z).

Definition isFileTypeMatch (rule : CompiledRule) (fileType : jsstring) : bool :=
  bool_decide (fileType ∈ Rule.file_types rule) || bool_decide (js "any" ∈ Rule.file_types rule).

(** [res.some((re) => re.test(match))]: left to right, stopping at the
    first expression that answers true; every expression that was
    asked keeps its new cursor. *)
Fixpoint someTest (res : list RegExp) (s : jsstring) : bool * list RegExp :=
  match res with
  | [] => (false, [])
  | re :: rest =>
      let '(b, re') := test re s in
      if b then (true, re' :: rest)
      else let '(b', rest') := someTest rest s in (b', re' :: rest')
  end.

(** [isExcluded(rule, match)], with the rule's exclude expressions
    passed and returned explicitly. *)
Definition isExcluded (excl : list RegExp) (s : jsstring) : bool * list RegExp :=
  if length excl =? 0 then (false, excl) else someTest excl s.

Section Engine.

(** [clock n] is what the [n]-th call of [Date.now()] answers. *)
Variable clock : nat -> Z.
(** [config.regexTimeoutMs] *)
Variable regexTimeoutMs : Z.

(** [execWithTimeout]: two readings of the clock around [regex.exec].
    The result is the match, the expression with its new cursor and
    the number of clock readings so far. *)
Definition execWithTimeout (regex : RegExp) (content : jsstring) (timeoutMs : Z)
    (ticks : nat) : option (nat * nat) * RegExp * nat :=
  let startTime := clock ticks in
  let '(m, regex') := exec regex content in
  if (clock (S ticks) - startTime >? timeoutMs)%Z
  then (None, regex', S (S ticks))
  else (m, regex', S (S ticks)).

(** The variables of the [while] loop of [scanContent]. *)
Record LoopState := {
  regex : RegExp;
  excl : list RegExp;
  ticks : nat;
  findings : list Finding;
  ruleHits : nat
}.

Inductive Step :=
| Continue (st : LoopState)
| Break (st : LoopState).

Definition mkFinding (rule : CompiledRule) (filePath : jsstring) (ln : Z) : Finding :=
  {| ruleId := Rule.id rule;
     severity := Rule.severity rule;
     message := match Rule.description rule with
                | Some d => d
                | None => js "Matched rule " ++ Rule.id rule
                end;
     file := filePath;
     line := Some ln;
     category := Some (Rule.category rule);
     remediation := Rule.remediation rule;
     source := Some signature;
     confidence := None;
     confidenceReason := None |}.

(** One turn of the [while] loop: the loop test (a call of
    [execWithTimeout]) followed by the body. *)
Definition matchStep (rule : CompiledRule) (content filePath : jsstring)
    (lineIndex : list nat) (regexStartTime : Z) (st : LoopState) : Step :=
  let '(m, regex', t1) := execWithTimeout (regex st) content regexTimeoutMs (ticks st) in
  match m with
  | None =>
      Break {| regex := regex'; excl := excl st; ticks := t1;
               findings := findings st; ruleHits := ruleHits st |}
  | Some (i, e) =>
      let t2 := S t1 in
      if (clock t1 - regexStartTime >? regexTimeoutMs * 5)%Z then
        Break {| regex := regex'; excl := excl st; ticks := t2;
                 findings := findings st; ruleHits := ruleHits st |}
      else if length (slice content i e) =? 0 then
        Continue {| regex := setLastIndex regex' (S (lastIndex regex'));
                    excl := excl st; ticks := t2;
                    findings := findings st; ruleHits := ruleHits st |}
      else
        let '(ex, excl') := isExcluded (excl st) (slice content i e) in
        if ex then
          Continue {| regex := regex'; excl := excl'; ticks := t2;
                      findings := findings st; ruleHits := ruleHits st |}
        else
          let ln := indexToLine lineIndex i in
          let st' := {| regex := regex'; excl := excl'; ticks := t2;
                        findings := findings st ++ [mkFinding rule filePath ln];
                        ruleHits := S (ruleHits st) |} in
          if MAX_FINDINGS_PER_RULE_PER_FILE <=? ruleHits st' then Break st' else Continue st'
  end.

(** The [while] loop, cut after [turns] turns: [None] says that the
    loop was still running. *)
Fixpoint matchLoop (turns : nat) (rule : CompiledRule) (content filePath : jsstring)
    (lineIndex : list nat) (regexStartTime : Z) (st : LoopState) : option LoopState :=
  match turns with
  | 0 => None
  | S k =>
      match matchStep rule content filePath lineIndex regexStartTime st with
      | Break st' => Some st'
      | Continue st' => matchLoop k rule content filePath lineIndex regexStartTime st'
      end
  end.

(** The variables of the [for (const regex of rule._compiled)] loop:
    the expressions already visited, the rule's exclude expressions,
    the clock readings, the findings and the hit counter. *)
Record RuleState := {
  visited : list RegExp;
  rexcl : list RegExp;
  rticks : nat;
  rfindings : list Finding;
  rhits : nat
}.

(** [for (const regex of rule._compiled) { ... }] *)
Fixpoint patternLoop (turns : nat) (rule : CompiledRule) (content filePath : jsstring)
    (lineIndex : list nat) (pending : list RegExp) (rs : RuleState) : option RuleState :=
  match pending with
  | [] => Some rs
  | re :: rest =>
      let regexStartTime := clock (rticks rs) in
      let st := {| regex := setLastIndex re 0; excl := rexcl rs; ticks := S (rticks rs);
                   findings := rfindings rs; ruleHits := rhits rs |} in
      match matchLoop turns rule content filePath lineIndex regexStartTime st with
      | None => None
      | Some st' =>
          let rs' := {| visited := visited rs ++ [regex st']; rexcl := excl st';
                        rticks := ticks st'; rfindings := findings st';
                        rhits := ruleHits st' |} in
          if MAX_FINDINGS_PER_RULE_PER_FILE <=? ruleHits st'
          then Some {| visited := visited rs' ++ rest; rexcl := rexcl rs';
                       rticks := rticks rs'; rfindings := rfindings rs';
                       rhits := rhits rs' |}
          else patternLoop turns rule content filePath lineIndex rest rs'
      end
  end.

(** The rule with the cursors its expressions are left with. *)
Definition withRegExps (rule : CompiledRule) (compiled excluded : list RegExp) : CompiledRule :=
  {| Rule.id := Rule.id rule; Rule.category := Rule.category rule; Rule.severity := Rule.severity rule;
     Rule.patterns := Rule.patterns rule; Rule.file_types := Rule.file_types rule;
     Rule.description := Rule.description rule; Rule.remediation := Rule.remediation rule;
     Rule.exclude_patterns := Rule.exclude_patterns rule;
     Rule._compiled := compiled; Rule._excludeCompiled := excluded |}.

(** The body of [for (const rule of rules)]: the findings of one rule
    on one content, the rule as it is left, and the clock readings. *)
Definition scanRule (turns : nat) (content filePath fileType : jsstring)
    (lineIndex : list nat) (rule : CompiledRule) (t : nat)
    : option (list Finding * CompiledRule * nat) :=
  if negb (isFileTypeMatch rule fileType) then Some ([], rule, t)
  else
    match patternLoop turns rule content filePath lineIndex (Rule._compiled rule)
            {| visited := []; rexcl := Rule._excludeCompiled rule; rticks := t;
               rfindings := []; rhits := 0 |} with
    | None => None
    | Some rs => Some (rfindings rs, withRegExps rule (visited rs) (rexcl rs), rticks rs)
    end.

(** [for (const rule of rules)] *)
Fixpoint ruleLoop (turns : nat) (content filePath fileType : jsstring)
    (lineIndex : list nat) (rules : list CompiledRule) (t : nat)
    : option (list Finding * list CompiledRule * nat) :=
  match rules with
  | [] => Some ([], [], t)
  | rule :: rest =>
      match scanRule turns content filePath fileType lineIndex rule t with
      | None => None
      | Some (fs, rule', t') =>
          match ruleLoop turns content filePath fileType lineIndex rest t' with
          | None => None
          | Some (fs', rest', t'') => Some (fs ++ fs', rule' :: rest', t'')
          end
      end
  end.

(** [scanContent(content, filePath, fileType, rules)], started when
    the clock has been read [t] times.  Every [while] loop is given
    [length content + 2] turns; [None] would say that one of them
    needed more. *)
Definition scanContent (content filePath fileType : jsstring)
    (rules : list CompiledRule) (t : nat)
    : option (list Finding * list CompiledRule * nat) :=
  ruleLoop (length content + 2) content filePath fileType
    (buildLineIndex content) rules t.

End Engine.

(** ** A rule whose exclude pattern meets the same text twice *)

(** [- id: SECRET_KEY, patterns: ["secret_key"], exclude_patterns:
    ["secret"], file_types: [any]], as [loadRulesFromText] compiles
    it. *)
Definition secretRule : CompiledRule :=
  {| Rule.id := js "SECRET_KEY"; Rule.category := js "secrets"; Rule.severity := HIGH;
     Rule.patterns := [js "secret_key"]; Rule.file_types := [js "any"];
     Rule.description := None; Rule.remediation := None;
     Rule.exclude_patterns := Some [js "secret"];
     Rule._compiled := [newRegExp (js "secret_key")];
     Rule._excludeCompiled := [newRegExp (js "secret")] |}.

(** Two lines, each of them ["secret_key"]. *)
Definition twoSecrets : jsstring := js "secret_key" ++ [10%N] ++ js "secret_key".

(** ** Line numbers

    The number of line feeds among the first [position] code units of
    [content]: what a line number is measured against. *)
Definition lineFeedsBefore (content : jsstring) (position : nat) : nat :=
  length (List.filter (fun c => N.eqb c 10) (take position content)).

(** ** Findings and matches *)

(** A finding of [rule] that reports a match of [m] in [content]: the
    match starts at some index, is not empty, and the finding carries
    the rule's fields, the file path and the line of that index. *)
Definition Reports (m : Matcher) (content filePath : jsstring) (lineIndex : list nat)
    (rule : CompiledRule) (f : Finding) : Prop :=
  exists i e, run m content i = Some e /\ i < e /\
    f = mkFinding rule filePath (indexToLine lineIndex i).

(** A finding that comes from one of the compiled patterns of a rule
    that applies to the file type. *)
Definition FromRule (content filePath fileType : jsstring) (lineIndex : list nat)
    (rules : list CompiledRule) (f : Finding) : Prop :=
  exists rule re, rule ∈ rules /\ isFileTypeMatch rule fileType = true /\
    re ∈ Rule._compiled rule /\
    Reports (matcher re) content filePath lineIndex rule f.

End RuleEngine.

(* ===================================================================== *)
(** * Rules indexed by file type ([src/scanner/engine/indexed-rules.ts]) *)
(* ===================================================================== *)

Module IndexedRules.

(** [rulesByFileType] is a [Map<string, CompiledRule[]>]: its entries
    in insertion order. *)
Record IndexedRuleEngine := {
  rulesByFileType : list (jsstring * list CompiledRule);
  universalRules : list CompiledRule;
  allRules : list CompiledRule
}.

(** [if (!m.has(fileType)) m.set(fileType, []); m.get(fileType)!.push(rule)] *)
Fixpoint pushRule (m : list (jsstring * list CompiledRule)) (fileType : jsstring)
    (rule : CompiledRule) : list (jsstring * list CompiledRule) :=
  match m with
  | [] => [(fileType, [rule])]
  | (k, rs) :: rest =>
      if decide (k = fileType) then (k, rs ++ [rule]) :: rest
      else (k, rs) :: pushRule rest fileType rule
  end.

(** The body of [for (const rule of rules)] in the constructor. *)
Definition addRule (engine : IndexedRuleEngine) (rule : CompiledRule) : IndexedRuleEngine :=
  if bool_decide (js "any" ∈ Rule.file_types rule) then
    {| rulesByFileType := rulesByFileType engine;
       universalRules := universalRules engine ++ [rule];
       allRules := allRules engine |}
  else
    {| rulesByFileType :=
         fold_left (fun m fileType => pushRule m fileType rule)
           (Rule.file_types rule) (rulesByFileType engine);
       universalRules := universalRules engine;
       allRules := allRules engine |}.

(** [new IndexedRuleEngine(rules)] *)
Definition newIndexedRuleEngine (rules : list CompiledRule) : IndexedRuleEngine :=
  fold_left addRule rules
    {| rulesByFileType := []; universalRules := []; allRules := rules |}.

(** [m.get(fileType)] *)
Fixpoint mapGet (m : list (jsstring * list CompiledRule)) (fileType : jsstring)
    : option (list CompiledRule) :=
  match m with
  | [] => None
  | (k, rs) :: rest => if decide (k = fileType) then Some rs else mapGet rest fileType
  end.

(** [getRulesForFileType(fileType)] *)
Definition getRulesForFileType (engine : IndexedRuleEngine) (fileType : jsstring)
    : list CompiledRule :=
  let specificRules := default [] (mapGet (rulesByFileType engine) fileType) in
  universalRules engine ++ specificRules.

(** [getAllRules()] *)
Definition getAllRules (engine : IndexedRuleEngine) : list CompiledRule :=
  allRules engine.

(** A rule for Python files only, and a rule for every file. *)
Definition pythonRule : CompiledRule :=
  {| Rule.id := js "PY_EVAL"; Rule.category := js "code"; Rule.severity := HIGH;
     Rule.patterns := [js "eval("]; Rule.file_types := [js "python"];
     Rule.description := None; Rule.remediation := None;
     Rule.exclude_patterns := None;
     Rule._compiled := [newRegExp (js "eval(")];
     Rule._excludeCompiled := [] |}.

End IndexedRules.

(* ===================================================================== *)
(** * The meta analyzer ([src/scanner/reporting/meta.ts]) *)
(* ===================================================================== *)

Module Meta.

(** [String(n)] for an integer line number. *)
Definition numberToString (n : Z) : jsstring :=
  js (NilZero.string_of_int (Z.to_int n)).

(** [`${ruleId}|${file}|${line ?? ""}|${message}`] *)
Definition key (f : Finding) : jsstring :=
  ruleId f ++ js "|" ++ file f ++ js "|" ++
  match line f with
  | Some n => numberToString n
  | None => []
  end ++ js "|" ++ message f.

(** [seen] is a [Map<string, Finding>]: its entries in insertion
    order. *)
Definition has (seen : list (jsstring * Finding)) (k : jsstring) : bool :=
  bool_decide (k ∈ fst <$> seen).

(** [for (const finding of findings) { if (!seen.has(key)) seen.set(key, finding) }] *)
Fixpoint collect (findings : list Finding) (seen : list (jsstring * Finding))
    : list (jsstring * Finding) :=
  match findings with
  | [] => seen
  | finding :: rest =>
      if has seen (key finding) then collect rest seen
      else collect rest (seen ++ [(key finding, finding)])
  end.

(** [Array.from(seen.values())] *)
Definition applyMetaAnalyzer (findings : list Finding) : list Finding :=
  snd <$> collect findings [].

(** Two findings that differ in severity only, and a third one. *)
Definition sampleFinding (sev : Severity) (ln : Z) : Finding :=
  {| ruleId := js "R1"; severity := sev; message := js "m"; file := js "a.md";
     line := Some ln; category := None; remediation := None;
     source := Some signature; confidence := None; confidenceReason := None |}.

End Meta.

(* ===================================================================== *)
(** * Confidence filter ([src/scanner/confidence.ts]) *)
(* ===================================================================== *)

Module Confidence.

(** [filterByConfidence(findings, minConfidence = 0.5)]; the second
    argument is [None] when the caller leaves it out. *)
Definition filterByConfidence (findings : list Finding) (minConfidence : option number)
    : list Finding :=
  let threshold := default (Finite (1 # 2)) minConfidence in
  List.filter (fun f => geb (default (Finite 1) (confidence f)) threshold) findings.

(** A finding that never went through [addConfidenceScores]. *)
Definition unscored (f : Finding) : bool :=
  bool_decide (confidence f = None).

(** A finding scored 0.3 and a finding that was never scored, under
    the threshold 0.9. *)
Definition scored (c : option number) : Finding :=
  {| ruleId := js "R1"; severity := HIGH; message := js "m"; file := js "a.md";
     line := Some 1%Z; category := None; remediation := None;
     source := Some signature; confidence := c; confidenceReason := None |}.

End Confidence.

(* ===================================================================== *)
(** * Summaries and SARIF ([src/scanner/reporting/summary.ts], [sarif.ts]) *)
(* ===================================================================== *)

Module Summary.

#[global] Instance Severity_eq_dec : EqDecision Severity.
Proof. solve_decision. Defined.

(** [SEVERITY_RANK] of [src/scanner/types.ts] *)
Definition SEVERITY_RANK (sev : Severity) : Z :=
  match sev with
  | LOW => 1
  | MEDIUM => 2
  | HIGH => 3
  | CRITICAL => 4
  end%Z.

(** A [Record<Severity, number>]: one counter per severity. *)
Definition Counts := Severity -> nat.

(** [acc[finding.severity] += 1] *)
Definition increment (acc : Counts) (sev : Severity) : Counts :=
  fun s => if decide (s = sev) then acc s + 1 else acc s.

(** [summarizeFindings(findings)]: a [reduce] that starts from
    [{ LOW: 0, MEDIUM: 0, HIGH: 0, CRITICAL: 0 }]. *)
Definition summarizeFindings (findings : list Finding) : Counts :=
  fold_left (fun acc finding => increment acc (severity finding)) findings (fun _ => 0).

(** [shouldFail(findings, threshold)]; [threshold] is [None] when the
    caller leaves it out. *)
Definition shouldFail (findings : list Finding) (threshold : option Severity) : bool :=
  match threshold with
  | None => false
  | Some t =>
      existsb (fun finding => (SEVERITY_RANK t <=? SEVERITY_RANK (severity finding))%Z)
        findings
  end.

End Summary.

Module Sarif.

Inductive Level := error | warning | note.

(** [severityToLevel(sev)] *)
Definition severityToLevel (sev : Severity) : Level :=
  match sev with
  | CRITICAL | HIGH => error
  | MEDIUM => warning
  | LOW => note
  end.

Module Descriptor.

(** An entry of [tool.driver.rules]; [shortDescription] stands for
    [shortDescription.text]. *)
Record ReportingDescriptor := {
  id : jsstring;
  name : jsstring;
  shortDescription : jsstring
}.

End Descriptor.

Abbreviation ReportingDescriptor := Descriptor.ReportingDescriptor.

(** The loop of [buildRules]; [rules] is a [Map] keyed by rule id, its
    entries in insertion order. *)
Fixpoint collectRules (findings : list Finding)
    (rules : list (jsstring * ReportingDescriptor)) : list (jsstring * ReportingDescriptor) :=
  match findings with
  | [] => rules
  | finding :: rest =>
      if bool_decide (ruleId finding ∈ fst <$> rules) then collectRules rest rules
      else collectRules rest
             (rules ++ [(ruleId finding,
                         {| Descriptor.id := ruleId finding;
                            Descriptor.name := ruleId finding;
                            Descriptor.shortDescription := message finding |})])
  end.

(** [buildRules(findings)] *)
Definition buildRules (findings : list Finding) : list ReportingDescriptor :=
  snd <$> collectRules findings [].

Module Result.

(** An entry of [results]: [message] stands for [message.text], [uri]
    for [locations[0].physicalLocation.artifactLocation.uri] and
    [startLine] for the [region] of that location, which is present
    when [finding.line] is neither missing nor 0. *)
Record SarifResult := {
  ruleId : jsstring;
  level : Level;
  message : jsstring;
  uri : jsstring;
  startLine : option Z
}.

End Result.

Abbreviation SarifResult := Result.SarifResult.

(** [buildResults(findings)] *)
Definition buildResults (findings : list Finding) : list SarifResult :=
  (fun finding =>
     {| Result.ruleId := ruleId finding;
        Result.level := severityToLevel (severity finding);
        Result.message := message finding;
        Result.uri := file finding;
        Result.startLine :=
          match line finding with
          | Some ln => if (ln =? 0)%Z then None else Some ln
          | None => None
          end |}) <$> findings.

(** The descriptor [buildRules] makes from a finding. *)
Definition describe (f : Finding) : ReportingDescriptor :=
  {| Descriptor.id := ruleId f; Descriptor.name := ruleId f;
     Descriptor.shortDescription := message f |}.

(** The first finding of a list that carries a rule id. *)
Definition firstWith (rid : jsstring) (findings : list Finding) : option Finding :=
  List.find (fun f => bool_decide (ruleId f = rid)) findings.

End Sarif.

(* ===================================================================== *)
(** * The scan cache ([src/scanner/cache.ts]) *)
(* ===================================================================== *)

Module Cache.

Module Entry.

Record CacheEntry := {
  hash : jsstring;
  findings : list Finding;
  timestamp : Z;
  ruleVersion : jsstring
}.

End Entry.

Abbreviation CacheEntry := Entry.CacheEntry.

(** The fields of [ScanCache] that a write reads or changes.  [cache]
    is a [Map<string, CacheEntry>]: its entries in insertion order. *)
Record ScanCache := {
  cache : list (jsstring * CacheEntry);
  ruleVersion : jsstring;
  maxEntries : Z;
  maxSizeBytes : Q;
  dirty : bool
}.

(** [new ScanCache(cacheDir, ruleVersion, maxAge, maxEntries, maxSizeMB)] *)
Definition newScanCache (ruleVersion : jsstring) (maxEntries : Z) (maxSizeMB : Q) : ScanCache :=
  {| cache := []; ruleVersion := ruleVersion; maxEntries := maxEntries;
     maxSizeBytes := maxSizeMB * 1024 * 1024; dirty := false |}.

(** [map.delete(k)] *)
Fixpoint mapDelete (m : list (jsstring * CacheEntry)) (k : jsstring)
    : list (jsstring * CacheEntry) :=
  match m with
  | [] => []
  | (k', v) :: rest => if decide (k' = k) then rest else (k', v) :: mapDelete rest k
  end.

(** [map.set(k, v)]: a key that is present keeps its place. *)
Fixpoint mapSet (m : list (jsstring * CacheEntry)) (k : jsstring) (v : CacheEntry)
    : list (jsstring * CacheEntry) :=
  match m with
  | [] => [(k, v)]
  | (k', v') :: rest =>
      if decide (k' = k) then (k, v) :: rest else (k', v') :: mapSet rest k v
  end.

(** The loop of [evictOldestEntry]; [oldestTimestamp = None] stands
    for [Infinity]. *)
Fixpoint oldest (m : list (jsstring * CacheEntry)) (oldestPath : option jsstring)
    (oldestTimestamp : option Z) : option jsstring :=
  match m with
  | [] => oldestPath
  | (path, entry) :: rest =>
      if match oldestTimestamp with
         | None => true
         | Some t => (Entry.timestamp entry <? t)%Z
         end
      then oldest rest (Some path) (Some (Entry.timestamp entry))
      else oldest rest oldestPath oldestTimestamp
  end.

Definition setCache (c : ScanCache) (m : list (jsstring * CacheEntry)) (d : bool) : ScanCache :=
  {| cache := m; ruleVersion := ruleVersion c; maxEntries := maxEntries c;
     maxSizeBytes := maxSizeBytes c; dirty := d |}.

(** [evictOldestEntry()]; [if (oldestPath)] is false for [null] and
    for the empty string. *)
Definition evictOldestEntry (c : ScanCache) : ScanCache :=
  if length (cache c) =? 0 then c
  else
    match oldest (cache c) None None with
    | Some (ch :: path) => setCache c (mapDelete (cache c) (ch :: path)) true
    | _ => c
    end.

(** [estimateCacheSize()] *)
Definition estimateCacheSize (c : ScanCache) : Z :=
  fold_left (fun totalSize e => (totalSize + 92 + Z.of_nat (length (Entry.findings (snd e))) * 500)%Z)
    (cache c) 0%Z.

(** [doSetCachedFindings(filePath, findings)], from the point where
    [hashFile] has answered [hash]; [now] is what [Date.now()]
    answers.  No other code runs between the checks and the insertion,
    so [setCachedFindings], which wraps this call in the per-path
    lock, changes the cache in the same way. *)
Definition doSetCachedFindings (c : ScanCache) (filePath : jsstring)
    (findings : list Finding) (hash : jsstring) (now : Z) : ScanCache :=
  let c1 := if (maxEntries c <=? Z.of_nat (length (cache c)))%Z
            then evictOldestEntry c else c in
  let estimatedSize := estimateCacheSize c1 in
  let c2 := if Qle_bool (maxSizeBytes c1) (inject_Z estimatedSize)
            then evictOldestEntry c1 else c1 in
  setCache c2
    (mapSet (cache c2) filePath
       {| Entry.hash := hash; Entry.findings := findings; Entry.timestamp := now;
          Entry.ruleVersion := ruleVersion c2 |})
    true.

(** The cache of the test "cache enforces size limit with LRU
    eviction": no more than 10000 entries and 0.001 MiB. *)
Definition smallCache : ScanCache := newScanCache (js "1.0") 10000 (1 # 1000).

Definition oneFinding (path : jsstring) : list Finding :=
  [{| ruleId := js "TEST"; severity := HIGH; message := js "test"; file := path;
      line := None; category := Some (js "test"); remediation := None;
      source := Some signature; confidence := None; confidenceReason := None |}].

(** Two writes, of one finding each. *)
Definition afterTwoWrites : ScanCache :=
  let c1 := doSetCachedFindings smallCache (js "a.md") (oneFinding (js "a.md")) (js "h1") 1000 in
  doSetCachedFindings c1 (js "b.md") (oneFinding (js "b.md")) (js "h2") 1001.

(** A cache read from a file that was saved under a larger
    [maxEntries]: three entries, no more than two allowed. *)
Definition loadedCache : ScanCache :=
  {| cache := [(js "a.md", {| Entry.hash := js "h1"; Entry.findings := []; Entry.timestamp := 1; Entry.ruleVersion := js "1.0" |});
               (js "b.md", {| Entry.hash := js "h2"; Entry.findings := []; Entry.timestamp := 2; Entry.ruleVersion := js "1.0" |});
               (js "c.md", {| Entry.hash := js "h3"; Entry.findings := []; Entry.timestamp := 3; Entry.ruleVersion := js "1.0" |})];
     ruleVersion := js "1.0"; maxEntries := 2; maxSizeBytes := 100 * 1024 * 1024;
     dirty := false |}.

(** ** Reading the cache *)

(** [map.get(k)] *)
Fixpoint mapGet (m : list (jsstring * CacheEntry)) (k : jsstring) : option CacheEntry :=
  match m with
  | [] => None
  | (k', v) :: rest => if decide (k' = k) then Some v else mapGet rest k
  end.

(** [getCachedFindings(filePath)], from the point where no write on
    the path is pending.  [maxAge] is the field [this.maxAge], which no
    method changes; [now] is what [Date.now()] answers and
    [currentHash] what [hashFile(filePath)] answers. *)
Definition getCachedFindings (c : ScanCache) (maxAge : Z) (filePath : jsstring)
    (now : Z) (currentHash : jsstring) : option (list Finding) * ScanCache :=
  match mapGet (cache c) filePath with
  | None => (None, c)
  | Some cached =>
      if negb (bool_decide (Entry.ruleVersion cached = ruleVersion c)) then
        (None, setCache c (mapDelete (cache c) filePath) true)
      else if (maxAge <? now - Entry.timestamp cached)%Z then
        (None, setCache c (mapDelete (cache c) filePath) true)
      else if negb (bool_decide (Entry.hash cached = currentHash)) then
        (None, setCache c (mapDelete (cache c) filePath) true)
      else (Some (Entry.findings cached), c)
  end.

(** What [load] finds on disk: no file or a file that [JSON.parse]
    rejects, a JSON value that is not an object, or an object with its
    entries in the order of [Object.entries]. *)
Inductive Stored :=
| Unreadable
| NotAnObject
| Entries (data : list (jsstring * CacheEntry)).

(** [load()]; [now] is what [Date.now()] answers. *)
Definition load (c : ScanCache) (maxAge : Z) (stored : Stored) (now : Z) : ScanCache :=
  match stored with
  | Unreadable => setCache c [] (dirty c)
  | NotAnObject => c
  | Entries data =>
      setCache c
        (fold_left
           (fun m e =>
              if bool_decide (Entry.ruleVersion (snd e) = ruleVersion c) &&
                 (now - Entry.timestamp (snd e) <? maxAge)%Z
              then mapSet m (fst e) (snd e) else m)
           data (cache c))
        (dirty c)
  end.

(** [clear()] *)
Definition clear (c : ScanCache) : ScanCache := setCache c [] true.

(** The calls a scan makes on its cache, each with what the clock and
    [hashFile] answer during the call. *)
Inductive Call :=
| SetCachedFindings (filePath : jsstring) (findings : list Finding) (hash : jsstring) (now : Z)
| GetCachedFindings (filePath : jsstring) (now : Z) (currentHash : jsstring)
| Clear.

Definition call (maxAge : Z) (c : ScanCache) (op : Call) : ScanCache :=
  match op with
  | SetCachedFindings filePath findings hash now =>
      doSetCachedFindings c filePath findings hash now
  | GetCachedFindings filePath now currentHash =>
      snd (getCachedFindings c maxAge filePath now currentHash)
  | Clear => clear c
  end.

(** The path a call names, if it writes. *)
Definition written (op : Call) : option jsstring :=
  match op with
  | SetCachedFindings filePath _ _ _ => Some filePath
  | _ => None
  end.

End Cache.

(* ===================================================================== *)
(** * The MCP client ([src/scanner/mcp/client-http.ts]) *)
(* ===================================================================== *)

Module McpClient.

(** What a call can throw: an [McpRpcError] with its optional [code],
    or any other [Error]. *)
Inductive Thrown :=
| McpRpcError (code : option Z)
| Error.

(** How a promise settles. *)
Inductive Outcome (T : Type) :=
| Resolved (value : T)
| Rejected (error : Thrown).
Arguments Resolved {T} value.
Arguments Rejected {T} error.

(** [isMethodNotFound(err)] *)
Definition isMethodNotFound (err : Thrown) : bool :=
  match err with
  | McpRpcError (Some code) => (code =? -32601)%Z
  | _ => false
  end.

(** The test of [retryWithBackoff] that rethrows at once:
    [error instanceof McpRpcError &&
     (error.code === -32601 || (error.code && error.code >= 400 && error.code < 500))]. *)
Definition isClientError (error : Thrown) : bool :=
  match error with
  | McpRpcError (Some code) =>
      (code =? -32601)%Z || (negb (code =? 0)%Z && (400 <=? code)%Z && (code <? 500)%Z)
  | _ => false
  end.

(** What a run of [retryWithBackoff] leaves behind: how its promise
    settles, how many times [fn] was called, and the delays handed to
    [setTimeout], in order. *)
Record Run (T : Type) := {
  result : Outcome T;
  calls : nat;
  sleeps : list Q
}.
Arguments result {T} _.
Arguments calls {T} _.
Arguments sleeps {T} _.

Section Retry.
Context {T : Type}.
(** [fn n] is how the [n]-th call of [fn] settles, [random n] what the
    [n]-th call of [Math.random()] answers (counting from 0). *)
Variable fn : nat -> Outcome T.
Variable random : nat -> Q.

(** [baseDelayMs * Math.pow(2, attempt)] *)
Definition backoff (baseDelayMs : Q) (attempt : nat) : Q :=
  (baseDelayMs * 2 ^ Z.of_nat attempt)%Q.

(** [delay + Math.random() * 0.3 * delay] *)
Definition totalDelay (baseDelayMs : Q) (attempt : nat) : Q :=
  let delay := backoff baseDelayMs attempt in
  let jitter := (random attempt * (3 # 10) * delay)%Q in
  (delay + jitter)%Q.

(** [for (let attempt = 0; attempt <= maxRetries; attempt++) { ... }]
    with [turns] turns left, followed by
    [throw lastError || new Error("Retry failed")].  The loop calls
    [fn] once per turn and [Math.random()] once per wait, so both have
    been called [attempt] times when a turn starts. *)
Fixpoint retryLoop (turns attempt : nat) (maxRetries : Z) (baseDelayMs : Q)
    (lastError : option Thrown) (slept : list Q) : Run T :=
  match turns with
  | 0 => {| result := Rejected (default Error lastError); calls := attempt; sleeps := slept |}
  | S k =>
      match fn attempt with
      | Resolved value => {| result := Resolved value; calls := S attempt; sleeps := slept |}
      | Rejected error =>
          if isClientError error then
            {| result := Rejected error; calls := S attempt; sleeps := slept |}
          else if (Z.of_nat attempt =? maxRetries)%Z then
            {| result := Rejected error; calls := S attempt; sleeps := slept |}
          else
            retryLoop k (S attempt) maxRetries baseDelayMs (Some error)
              (slept ++ [totalDelay baseDelayMs attempt])
      end
  end.

(** The delays of the first [n] waits. *)
Definition delays (baseDelayMs : Q) (n : nat) : list Q :=
  map (totalDelay baseDelayMs) (seq 0 n).

(** [retryWithBackoff(fn, maxRetries, baseDelayMs, method)] *)
Definition retryWithBackoff (maxRetries : Z) (baseDelayMs : Q) : Run T :=
  retryLoop (Z.to_nat (maxRetries + 1)) 0 maxRetries baseDelayMs None [].

(** [rpc(url, method, params, options)]: [fn] is the request,
    [options?.maxRetries ?? 3] and [options?.retryDelayMs ?? 1000]. *)
Definition rpc (maxRetries : option Z) (retryDelayMs : option Q) : Run T :=
  retryWithBackoff (default 3%Z maxRetries) (default 1000%Q retryDelayMs).

End Retry.

(** The errors the retry policy names.  A network error reaches
    [retryWithBackoff] as an [McpRpcError] without code; an HTTP answer
    that is not ok reaches it with [err?.code ?? res.status], the code
    of the JSON-RPC error in its body or else its status. *)
Definition isNetworkOr5xx (error : Thrown) : bool :=
  match error with
  | McpRpcError None => true
  | McpRpcError (Some code) => (500 <=? code)%Z && (code <? 600)%Z
  | Error => false
  end.

(** A server that is down, and a server that answers 404 to the
    second request. *)
Definition alwaysDown : nat -> Outcome unit := fun _ => Rejected (McpRpcError None).

Definition notFoundSecond : nat -> Outcome unit :=
  fun n => if n =? 1 then Rejected (McpRpcError (Some 404%Z)) else Rejected (McpRpcError None).

(** A server that answers the third request. *)
Definition thirdTime : nat -> Outcome nat :=
  fun n => if n =? 2 then Resolved 7 else Rejected (McpRpcError (Some 503%Z)).

End McpClient.

(* ===================================================================== *)
(** * Reading MCP resources ([src/scanner/mcp/collect.ts]) *)
(* ===================================================================== *)

Module McpCollect.

(** [new TextEncoder().encode(s).byteLength]: one byte below U+0080,
    two below U+0800, four for a surrogate pair, three for any other
    code unit (a lone surrogate is encoded as U+FFFD). *)
Fixpoint utf8ByteLength (s : jsstring) : nat :=
  match s with
  | [] => 0
  | c :: rest =>
      if (c <? 0x80)%N then 1 + utf8ByteLength rest
      else if (c <? 0x800)%N then 2 + utf8ByteLength rest
      else if (0xD800 <=? c)%N && (c <? 0xDC00)%N then
        match rest with
        | d :: rest' =>
            if (0xDC00 <=? d)%N && (d <? 0xE000)%N
            then 4 + utf8ByteLength rest'
            else 3 + utf8ByteLength rest
        | [] => 3
        end
      else 3 + utf8ByteLength rest
  end.

(** An element of [raw.contents]: what matters is whether it is an
    object whose [text] is a string. *)
Inductive Item :=
| TextItem (text : jsstring)
| OtherItem.

(** [for (const item of contents) if (item && typeof item.text === "string") parts.push(item.text)] *)
Fixpoint textParts (contents : list Item) : list jsstring :=
  match contents with
  | [] => []
  | TextItem text :: rest => text :: textParts rest
  | OtherItem :: rest => textParts rest
  end.

(** [pickTextContent(raw, maxBytes)]; [contents] is [None] when
    [raw?.contents] is not an array. *)
Definition pickTextContent (contents : option (list Item)) (maxBytes : Z) : option jsstring :=
  let parts := textParts (default [] contents) in
  if length parts =? 0 then None
  else
    let joined := join [10%N] parts in
    if (maxBytes <? Z.of_nat (utf8ByteLength joined))%Z
    then Some (slice joined 0 (Z.to_nat (Z.max 0 maxBytes)))
    else Some joined.

(** What [collectFromServer] stores in [resourceContents[uri].content]
    for an answer of [resources/read]: [maxResourceBytes] is
    [options?.maxResourceBytes ?? 1_048_576], and [if (text)] drops
    [null] and the empty string. *)
Definition storedContent (contents : option (list Item)) (maxResourceBytes : option Z)
    : option jsstring :=
  match pickTextContent contents (default 1048576%Z maxResourceBytes) with
  | Some (c :: text) => Some (c :: text)
  | _ => None
  end.

(** ["é"] is the single code unit U+00E9. *)
Definition eacute : N := 0xE9.

(** ** Listing with cursors *)

Import McpClient.

(** What [normalizeListResult(raw, key)] reads in the answer of a list
    request: [array] is [raw?.[key]] when that is an array, [cursor]
    is [raw?.nextCursor] when that is a string. *)
Record Raw (T : Type) := {
  array : option (list T);
  cursor : option jsstring
}.
Arguments array {T} _.
Arguments cursor {T} _.

Record McpListResult (T : Type) := {
  items : list T;
  nextCursor : option jsstring
}.
Arguments items {T} _.
Arguments nextCursor {T} _.

Definition normalizeListResult {T : Type} (raw : Raw T) : McpListResult T :=
  {| items := default [] (array raw); nextCursor := cursor raw |}.

(** A string in a condition: the empty string counts as absent. *)
Definition truthy (s : option jsstring) : option jsstring :=
  match s with
  | Some (c :: rest) => Some (c :: rest)
  | _ => None
  end.

Section ListAll.
Context {T : Type}.

(** [request n cursor] is how the [n]-th call of [rpc(url, method,
    params, ...)] settles (counting from 0), [params] being
    [{ cursor }] or, for [None], [{}]. *)
Variable request : nat -> option jsstring -> Outcome (Raw T).

(** The [while (true)] loop of [listAll], cut after [turns] turns:
    [None] says that the loop was still running. *)
Fixpoint listAllLoop (turns n : nat) (out : list T) (cursor : option jsstring)
    : option (Outcome (list T)) :=
  match turns with
  | 0 => None
  | S k =>
      match request n (truthy cursor) with
      | Rejected err =>
          if isMethodNotFound err then Some (Resolved []) else Some (Rejected err)
      | Resolved raw =>
          let r := normalizeListResult raw in
          let out := out ++ items r in
          match truthy (nextCursor r) with
          | None => Some (Resolved out)
          | Some next =>
              if (20000 <? Z.of_nat (length out))%Z then Some (Resolved out)
              else listAllLoop k (S n) out (Some next)
          end
      end
  end.

(** [listAll(url, method, key, options)] *)
Definition listAll (turns : nat) : option (Outcome (list T)) :=
  listAllLoop turns 0 [] None.

(** [pages] are the answers to the requests [n], [n + 1], ..., each
    asked with the cursor the answer before it gave, and each giving a
    cursor; the request after them is request [n'] with cursor
    [cursor']. *)
Inductive Chain : nat -> option jsstring -> list (Raw T) -> nat -> option jsstring -> Prop :=
| chain_nil n cursor : Chain n cursor [] n cursor
| chain_cons n cursor raw next pages n' cursor' :
    request n (truthy cursor) = Resolved raw ->
    truthy (McpCollect.cursor raw) = Some next ->
    Chain (S n) (Some next) pages n' cursor' ->
    Chain n cursor (raw :: pages) n' cursor'.

End ListAll.

(** The items of a sequence of answers. *)
Definition listed {T : Type} (pages : list (Raw T)) : list T :=
  concat ((fun raw => items (normalizeListResult raw)) <$> pages).

(** A server with three tools on two pages, and a server that answers
    every request with an empty page and a cursor. *)
Definition twoPages : nat -> option jsstring -> Outcome (Raw nat) :=
  fun _ cursor =>
    match cursor with
    | None => Resolved {| array := Some [1; 2]; cursor := Some (js "p2") |}
    | Some _ => Resolved {| array := Some [3]; cursor := None |}
    end.

Definition emptyPages : nat -> option jsstring -> Outcome (Raw nat) :=
  fun _ _ => Resolved {| array := Some []; cursor := Some (js "next") |}.

(** ** Reading the resources *)

(** A listed resource: [uri] is [resource.uri] when that is a string,
    [mimeType] is [resource.mimeType] when that is a string. *)
Record McpResource := {
  uri : option jsstring;
  mimeType : option jsstring
}.

(** The variables of the loop over the resources: the URIs asked for
    so far, in order, and [collected.resourceContents], an object
    keyed by URI, as the list of its entries (what is said below about
    it does not depend on their order). *)
Record ReadState := {
  asked : list jsstring;
  resourceContents : list (jsstring * (option jsstring * jsstring))
}.

(** [obj[k] = v] *)
Fixpoint setKey (obj : list (jsstring * (option jsstring * jsstring))) (k : jsstring)
    (v : option jsstring * jsstring) : list (jsstring * (option jsstring * jsstring)) :=
  match obj with
  | [] => [(k, v)]
  | (k', v') :: rest =>
      if decide (k' = k) then (k, v) :: rest else (k', v') :: setKey rest k v
  end.

Section ReadResources.

(** [String.prototype.toLowerCase] *)
Variable toLowerCase : jsstring -> jsstring.
(** [read n uri] is how the [n]-th [resources/read] request settles
    (counting from 0): with [raw.contents] when that is an array. *)
Variable read : nat -> jsstring -> Outcome (option (list Item)).

(** [new Set((options?.allowedMimeTypes ?? []).map((m) => m.toLowerCase()))] *)
Definition allowedMime (allowedMimeTypes : option (list jsstring)) : list jsstring :=
  toLowerCase <$> default [] allowedMimeTypes.

(** [allowedMime.size > 0 && mimeLower && !allowedMime.has(mimeLower)] *)
Definition mimeRefused (allowed : list jsstring) (resource : McpResource) : bool :=
  let mimeLower := match mimeType resource with
                   | Some m => toLowerCase m
                   | None => []
                   end in
  negb (length allowed =? 0) && negb (length mimeLower =? 0) &&
  negb (bool_decide (mimeLower ∈ allowed)).

(** The URIs of the resources that are to be read, in order: those
    with a URI that is a string and not empty, whose MIME type is not
    refused. *)
Definition wanted (allowed : list jsstring) (resources : list McpResource) : list jsstring :=
  omap (fun resource =>
          if mimeRefused allowed resource then None else truthy (uri resource)) resources.

(** [for (const resource of collected.resources) { ... }] *)
Fixpoint readLoop (allowed : list jsstring) (maxResourceBytes : option Z)
    (resources : list McpResource) (st : ReadState) : ReadState :=
  match resources with
  | [] => st
  | resource :: rest =>
      match truthy (uri resource) with
      | None => readLoop allowed maxResourceBytes rest st
      | Some u =>
          if mimeRefused allowed resource then readLoop allowed maxResourceBytes rest st
          else
            let st1 := {| asked := asked st ++ [u]; resourceContents := resourceContents st |} in
            match read (length (asked st)) u with
            | Rejected err =>
                if isMethodNotFound err then st1
                else readLoop allowed maxResourceBytes rest st1
            | Resolved contents =>
                match storedContent contents maxResourceBytes with
                | Some text =>
                    readLoop allowed maxResourceBytes rest
                      {| asked := asked st1;
                         resourceContents :=
                           setKey (resourceContents st1) u (mimeType resource, text) |}
                | None => readLoop allowed maxResourceBytes rest st1
                end
            end
      end
  end.

(** The reading part of [collectFromServer(url, options)], for the
    resources that [resources/list] gave, when [options.readResources]
    is set. *)
Definition readResources (allowedMimeTypes : option (list jsstring))
    (maxResourceBytes : option Z) (resources : list McpResource) : ReadState :=
  readLoop (allowedMime allowedMimeTypes) maxResourceBytes resources
    {| asked := []; resourceContents := [] |}.

End ReadResources.

(** A server that has no [prompts/list] after its first page. *)
Definition lostMethod : nat -> option jsstring -> Outcome (Raw nat) :=
  fun n cursor => if n =? 0 then twoPages n cursor else Rejected (McpRpcError (Some (-32601)%Z)).

(** Two resources, the first of a MIME type that is not allowed. *)
Definition someResources : list McpResource :=
  [ {| uri := Some (js "file:///a.png"); mimeType := Some (js "image/png") |};
    {| uri := Some (js "file:///b.md"); mimeType := Some (js "text/markdown") |} ].

End McpCollect.

(* ===================================================================== *)
(** * Virtual paths of MCP objects ([src/scanner/mcp/virtualize.ts]) *)
(* ===================================================================== *)

Module Virtualize.

Definition UNDERSCORE : N := 95.

(** The class [[A-Za-z0-9._-]] *)
Definition isSafeChar (c : N) : bool :=
  ((65 <=? c)%N && (c <=? 90)%N) || ((97 <=? c)%N && (c <=? 122)%N) ||
  ((48 <=? c)%N && (c <=? 57)%N) ||
  (c =? 46)%N || (c =? UNDERSCORE)%N || (c =? 45)%N.

(** [value.replace(/[^A-Za-z0-9._-]+/g, "_")]: every maximal run of
    code units outside the class becomes one ["_"]; [inRun] says that
    the code unit before was outside the class. *)
Fixpoint replaceRuns (value : jsstring) (inRun : bool) : jsstring :=
  match value with
  | [] => []
  | c :: rest =>
      if isSafeChar c then c :: replaceRuns rest false
      else if inRun then replaceRuns rest true
      else UNDERSCORE :: replaceRuns rest true
  end.

(** [safeSegment(value)] *)
Definition safeSegment (value : jsstring) : jsstring :=
  slice (replaceRuns value false) 0 120.

End Virtualize.

(* ===================================================================== *)
(** * Paths ([path], POSIX flavour) and [src/utils/fs.ts] *)
(* ===================================================================== *)

Module Path.

(** The functions of the runtime's [path] module that [sanitizePath]
    calls, in their POSIX flavour, segment by segment: [normalizeString]
    walks the segments between separators, drops empty ones and ["."],
    and lets [".."] take back the last segment that is not [".."]. *)

Definition SLASH : N := 47.
Definition DOT : N := 46.

(** [path.split("/")] *)
Fixpoint segments (path : jsstring) : list jsstring :=
  match path with
  | [] => [[]]
  | c :: rest =>
      if (c =? SLASH)%N then [] :: segments rest
      else
        match segments rest with
        | seg :: segs => (c :: seg) :: segs
        | [] => [[c]]
        end
  end.

(** The walk of [normalizeString]; [res] holds the segments kept so
    far, the last one first. *)
Fixpoint normalizeSegments (allowAboveRoot : bool) (res segs : list jsstring)
    : list jsstring :=
  match segs with
  | [] => rev res
  | seg :: rest =>
      if bool_decide (seg = [] \/ seg = [DOT]) then
        normalizeSegments allowAboveRoot res rest
      else if bool_decide (seg = [DOT; DOT]) then
        match res with
        | top :: res' =>
            if bool_decide (top = [DOT; DOT]) then
              normalizeSegments allowAboveRoot
                (if allowAboveRoot then [DOT; DOT] :: res else res) rest
            else normalizeSegments allowAboveRoot res' rest
        | [] =>
            normalizeSegments allowAboveRoot
              (if allowAboveRoot then [[DOT; DOT]] else []) rest
        end
      else normalizeSegments allowAboveRoot (seg :: res) rest
  end.

Definition normalizeString (path : jsstring) (allowAboveRoot : bool) : jsstring :=
  join [SLASH] (normalizeSegments allowAboveRoot [] (segments path)).

Definition isAbsolute (path : jsstring) : bool := startsWith path [SLASH].

(** [path.normalize(p)] *)
Definition normalize (path : jsstring) : jsstring :=
  if length path =? 0 then [DOT]
  else
    let absolute := isAbsolute path in
    let trailingSeparator := endsWith path [SLASH] in
    let p := normalizeString path (negb absolute) in
    if length p =? 0 then
      if absolute then [SLASH]
      else if trailingSeparator then [DOT; SLASH] else [DOT]
    else
      let p := if trailingSeparator then p ++ [SLASH] else p in
      if absolute then SLASH :: p else p.

(** [path.resolve(p)] with one argument, in a process whose working
    directory is [cwd]. *)
Definition resolve (cwd path : jsstring) : jsstring :=
  let '(resolvedPath, resolvedAbsolute) :=
    if length path =? 0 then ([], false)
    else (path ++ [SLASH], isAbsolute path) in
  let '(resolvedPath, resolvedAbsolute) :=
    if resolvedAbsolute then (resolvedPath, resolvedAbsolute)
    else if length cwd =? 0 then (resolvedPath, resolvedAbsolute)
    else (cwd ++ [SLASH] ++ resolvedPath, isAbsolute cwd) in
  let r := normalizeString resolvedPath (negb resolvedAbsolute) in
  if resolvedAbsolute then SLASH :: r
  else if 0 <? length r then r else [DOT].

End Path.

Module Fs.
Import Path.

Definition NUL : N := 0.
Definition TILDE : N := 126.
Definition DOLLAR : N := 36.

(** The replacement text of [s.replace(re, template)] for an
    expression without capture groups: [$$] is a dollar sign, [$&] the
    matched text, [$`] and [$'] the text before and after the match,
    and every other character stands for itself. *)
Fixpoint getSubstitution (matched before after template : jsstring) : jsstring :=
  match template with
  | [] => []
  | c :: rest =>
      if (c =? DOLLAR)%N then
        match rest with
        | d :: rest' =>
            if (d =? DOLLAR)%N then DOLLAR :: getSubstitution matched before after rest'
            else if (d =? 38)%N then matched ++ getSubstitution matched before after rest'
            else if (d =? 96)%N then before ++ getSubstitution matched before after rest'
            else if (d =? 39)%N then after ++ getSubstitution matched before after rest'
            else c :: getSubstitution matched before after rest
        | [] => [c]
        end
      else c :: getSubstitution matched before after rest
  end.

Section Process.

(** [os.homedir()] and [process.cwd()] *)
Variable homedir : jsstring.
Variable cwd : jsstring.

(** [path.replace(/\0/g, "")] *)
Definition stripNulls (path : jsstring) : jsstring :=
  List.filter (fun c => negb (c =? NUL)%N) path.

(** [cleaned.startsWith("~/") || cleaned === "~"] *)
Definition hasHomePrefix (cleaned : jsstring) : bool :=
  startsWith cleaned [TILDE; SLASH] || bool_decide (cleaned = [TILDE]).

(** [cleaned.replace(/^~/, homedir())], for a [cleaned] that starts
    with ["~"]. *)
Definition expandHome (cleaned : jsstring) : jsstring :=
  getSubstitution [TILDE] [] (drop 1 cleaned) homedir ++ drop 1 cleaned.

(** [sanitizePath(path)] *)
Definition sanitizePath (path : jsstring) : jsstring :=
  let cleaned := stripNulls path in
  let cleaned := if hasHomePrefix cleaned then expandHome cleaned else cleaned in
  resolve cwd (normalize cleaned).

End Process.

(** ** Bytes

    A [Uint8Array] is the list of its bytes, each below 256. *)

(** [b < 9 || (b > 13 && b < 32) || b === 127] *)
Definition isSuspicious (b : N) : bool :=
  (b <? 9)%N || ((13 <? b)%N && (b <? 32)%N) || (b =? 127)%N.

(** The loop of [isProbablyBinary] over the sample: [None] when it
    returns at a null byte, else the count of suspicious bytes. *)
Fixpoint countSuspicious (sample : list N) (suspicious : nat) : option nat :=
  match sample with
  | [] => Some suspicious
  | b :: rest =>
      if (b =? 0)%N then None
      else countSuspicious rest (if isSuspicious b then suspicious + 1 else suspicious)
  end.

(** [isProbablyBinary(bytes)].  The quotient is taken exactly: with at
    most 512 bytes in the sample, the double nearest to
    [suspicious / sampleSize] is above the double [0.2] exactly when
    the quotient is above one fifth. *)
Definition isProbablyBinary (bytes : list N) : bool :=
  if length bytes =? 0 then false
  else
    let sampleSize := Nat.min (length bytes) 512 in
    match countSuspicious (take sampleSize bytes) 0 with
    | None => true
    | Some suspicious =>
        negb (Qle_bool (inject_Z (Z.of_nat suspicious) / inject_Z (Z.of_nat sampleSize))
                (2 # 10))
    end.

(** [hasNullByte(filePath)] of [src/utils/path-safety.ts], on the
    bytes of the file: [bytes.includes(0)] over the first 8192. *)
Definition hasNullByte (bytes : list N) : bool :=
  bool_decide (0%N ∈ take (Z.to_nat 8192) bytes).

Inductive Encoding := utf8 | utf16be | utf16le | binary | latin1.

(** The counters of [detectEncoding]. *)
Record Tally := {
  nullBytes : nat;
  highBytes : nat;
  validUtf8Sequences : nat;
  invalidUtf8Sequences : nat
}.

Definition countNull (t : Tally) : Tally :=
  {| nullBytes := nullBytes t + 1; highBytes := highBytes t;
     validUtf8Sequences := validUtf8Sequences t;
     invalidUtf8Sequences := invalidUtf8Sequences t |}.

Definition countHigh (t : Tally) : Tally :=
  {| nullBytes := nullBytes t; highBytes := highBytes t + 1;
     validUtf8Sequences := validUtf8Sequences t;
     invalidUtf8Sequences := invalidUtf8Sequences t |}.

Definition countValid (t : Tally) : Tally :=
  {| nullBytes := nullBytes t; highBytes := highBytes t;
     validUtf8Sequences := validUtf8Sequences t + 1;
     invalidUtf8Sequences := invalidUtf8Sequences t |}.

Definition countInvalid (t : Tally) : Tally :=
  {| nullBytes := nullBytes t; highBytes := highBytes t;
     validUtf8Sequences := validUtf8Sequences t;
     invalidUtf8Sequences := invalidUtf8Sequences t + 1 |}.

(** [buffer[i]], read where [i] is below [buffer.length]. *)
Definition byteAt (buffer : list N) (i : nat) : N := nth i buffer 0%N.

(** [(buffer[i] & 0xC0) === 0x80] *)
Definition isContinuation (buffer : list N) (i : nat) : bool :=
  (N.land (byteAt buffer i) 0xC0 =? 0x80)%N.

(** [Math.min(buffer.length, 8192)] *)
Definition sampleEnd (buffer : list N) : nat := Nat.min (length buffer) (Z.to_nat 8192).

(** The [for] loop of [detectEncoding], with [turns] turns left: a
    turn moves [i] up by one, and by the length of the sequence when
    it meets a valid multi-byte sequence. *)
Fixpoint tallyLoop (turns : nat) (buffer : list N) (i : nat) (t : Tally) : Tally :=
  match turns with
  | 0 => t
  | S k =>
      if i <? sampleEnd buffer then
        let byte := byteAt buffer i in
        let t := if (byte =? 0)%N then countNull t else t in
        if (0x80 <=? byte)%N then
          let t := countHigh t in
          if (N.land byte 0xE0 =? 0xC0)%N && (i + 1 <? length buffer) then
            if isContinuation buffer (i + 1)
            then tallyLoop k buffer (i + 2) (countValid t)
            else tallyLoop k buffer (i + 1) (countInvalid t)
          else if (N.land byte 0xF0 =? 0xE0)%N && (i + 2 <? length buffer) then
            if isContinuation buffer (i + 1) && isContinuation buffer (i + 2)
            then tallyLoop k buffer (i + 3) (countValid t)
            else tallyLoop k buffer (i + 1) (countInvalid t)
          else if (N.land byte 0xF8 =? 0xF0)%N && (i + 3 <? length buffer) then
            if isContinuation buffer (i + 1) && isContinuation buffer (i + 2) &&
               isContinuation buffer (i + 3)
            then tallyLoop k buffer (i + 4) (countValid t)
            else tallyLoop k buffer (i + 1) (countInvalid t)
          else tallyLoop k buffer (i + 1) t
        else tallyLoop k buffer (i + 1) t
      else t
  end.

(** The byte order marks that [detectEncoding] looks for first. *)
Definition byteOrderMark (buffer : list N) : option Encoding :=
  match buffer with
  | 0xEF%N :: 0xBB%N :: 0xBF%N :: _ => Some utf8
  | 0xFE%N :: 0xFF%N :: _ => Some utf16be
  | 0xFF%N :: 0xFE%N :: _ => Some utf16le
  | _ => None
  end.

(** [detectEncoding(buffer)] *)
Definition detectEncoding (buffer : list N) : Encoding :=
  match byteOrderMark buffer with
  | Some encoding => encoding
  | None =>
      let t := tallyLoop (sampleEnd buffer) buffer 0
                 {| nullBytes := 0; highBytes := 0;
                    validUtf8Sequences := 0; invalidUtf8Sequences := 0 |} in
      if 0 <? nullBytes t then binary
      else if (0 <? highBytes t) && (validUtf8Sequences t <? invalidUtf8Sequences t)
      then latin1
      else utf8
  end.

(** ** Skipped directories *)

Definition BACKSLASH : N := 92.

(** [path.split(/[\\/]/g)] *)
Fixpoint splitSeparators (path : jsstring) : list jsstring :=
  match path with
  | [] => [[]]
  | c :: rest =>
      if (c =? SLASH)%N || (c =? BACKSLASH)%N then [] :: splitSeparators rest
      else
        match splitSeparators rest with
        | part :: parts => (c :: part) :: parts
        | [] => [[c]]
        end
  end.

(** [isInSkippedDir(path, skipDirs)] *)
Definition isInSkippedDir (path : jsstring) (skipDirs : list jsstring) : bool :=
  existsb (fun part => bool_decide (part ∈ skipDirs)) (splitSeparators path).

(** ** Reference notions *)

(** The suspicious bytes of a sample. *)
Definition suspiciousIn (sample : list N) : nat :=
  length (List.filter isSuspicious sample).

Definition isSeparator (c : N) : bool := (c =? SLASH)%N || (c =? BACKSLASH)%N.

(** A path put together from parts, each followed by a separator, and
    a last part. *)
Fixpoint glue (parts : list (jsstring * N)) (last : jsstring) : jsstring :=
  match parts with
  | [] => last
  | (part, sep) :: rest => part ++ sep :: glue rest last
  end.

(** ** A home directory with a dollar sign

    [/tmp/h$&me]: a directory name that POSIX allows and that holds
    the replacement pattern ["$&"]. *)
Definition dollarHome : jsstring := js "/tmp/h$&me".

End Fs.

(* ===================================================================== *)
(** * The fix applier ([src/scanner/fix.ts]) *)
(* ===================================================================== *)

Module Fix.
Import Path.

Definition LF : N := 10.
Definition CR : N := 13.

(** ** Runtime functions *)

(** The characters [.] does not match. *)
Definition isLineTerminator (c : N) : bool :=
  (c =? 10)%N || (c =? 13)%N || (c =? 0x2028)%N || (c =? 0x2029)%N.

(** The characters [\s] matches and [trim] strips: white space and
    line terminators. *)
Definition isWhiteSpace (c : N) : bool :=
  (c =? 9)%N || (c =? 10)%N || (c =? 11)%N || (c =? 12)%N || (c =? 13)%N ||
  (c =? 32)%N || (c =? 0xA0)%N || (c =? 0x1680)%N ||
  ((0x2000 <=? c)%N && (c <=? 0x200A)%N) ||
  (c =? 0x2028)%N || (c =? 0x2029)%N || (c =? 0x202F)%N || (c =? 0x205F)%N ||
  (c =? 0x3000)%N || (c =? 0xFEFF)%N.

(** [s.trimStart()], [s.trimEnd()], [s.trim()] *)
Fixpoint trimStart (s : jsstring) : jsstring :=
  match s with
  | [] => []
  | c :: rest => if isWhiteSpace c then trimStart rest else s
  end.

Definition trimEnd (s : jsstring) : jsstring := rev (trimStart (rev s)).

Definition trim (s : jsstring) : jsstring := trimEnd (trimStart s).

(** The white space [s] starts with. *)
Fixpoint leadingSpace (s : jsstring) : jsstring :=
  match s with
  | [] => []
  | c :: rest => if isWhiteSpace c then c :: leadingSpace rest else []
  end.

(** [line.match(re)] for the expression of [commentLine], which is
    anchored at both ends and has two groups: white space, as much as
    there is, then characters other than line terminators.  The answer
    is the pair of the groups.  The second group must reach the end of
    the line; giving white space back cannot help, because the rest
    would still have to cross the same line terminator. *)
Definition matchIndent (line : jsstring) : option (jsstring * jsstring) :=
  if forallb (fun c => negb (isLineTerminator c)) (trimStart line)
  then Some (leadingSpace line, trimStart line)
  else None.

(** [content.split(/\r?\n/)] *)
Fixpoint splitLines (content : jsstring) : list jsstring :=
  let extend c rest :=
    match rest with
    | l :: ls => (c :: l) :: ls
    | [] => [[c]]
    end in
  match content with
  | [] => [[]]
  | c :: rest =>
      if (c =? LF)%N then [] :: splitLines rest
      else if (c =? CR)%N then
        match rest with
        | d :: rest' =>
            if (d =? LF)%N then [] :: splitLines rest'
            else extend c (splitLines rest)
        | [] => [[c]]
        end
      else extend c (splitLines rest)
  end.

(** [path.extname(p)]: the last non-empty segment from its last dot
    on, unless that dot opens the segment or the segment is [".."]. *)
Fixpoint lastDot (b : jsstring) : option nat :=
  match b with
  | [] => None
  | c :: rest =>
      match lastDot rest with
      | Some d => Some (S d)
      | None => if (c =? DOT)%N then Some 0 else None
      end
  end.

Definition lastSegment (path : jsstring) : jsstring :=
  List.last (List.filter (fun seg => negb (length seg =? 0)) (segments path)) [].

Definition extname (path : jsstring) : jsstring :=
  let b := lastSegment path in
  match lastDot b with
  | None => []
  | Some d => if (d =? 0) || bool_decide (b = [DOT; DOT]) then [] else drop d b
  end.

(** [s.toLowerCase()] on the letters A to Z; no other character
    becomes a letter of an extension of the table below. *)
Definition toLowerCase (s : jsstring) : jsstring :=
  map (fun c => if (65 <=? c)%N && (c <=? 90)%N then (c + 32)%N else c) s.

(** ** Comment styles *)

Inductive CommentStyle :=
| Prefix (value : jsstring)
| Wrap (start finish : jsstring).

Definition hashStyle : CommentStyle := Prefix (js "#").
Definition slashStyle : CommentStyle := Prefix (js "//").
Definition htmlStyle : CommentStyle := Wrap (js "<!-- ") (js " -->").

Definition EXT_COMMENT_STYLE : list (jsstring * option CommentStyle) :=
  [ (js ".md", Some htmlStyle); (js ".mdx", Some htmlStyle);
    (js ".txt", Some hashStyle); (js ".rst", Some hashStyle);
    (js ".yaml", Some hashStyle); (js ".yml", Some hashStyle);
    (js ".toml", Some hashStyle); (js ".ini", Some hashStyle);
    (js ".cfg", Some hashStyle); (js ".conf", Some hashStyle);
    (js ".py", Some hashStyle); (js ".sh", Some hashStyle); (js ".bash", Some hashStyle);
    (js ".js", Some slashStyle); (js ".ts", Some slashStyle);
    (js ".mjs", Some slashStyle); (js ".cjs", Some slashStyle);
    (js ".json", None) ].

Fixpoint lookupStyle (table : list (jsstring * option CommentStyle)) (ext : jsstring)
    : option CommentStyle :=
  match table with
  | [] => None
  | (k, v) :: rest => if bool_decide (k = ext) then v else lookupStyle rest ext
  end.

(** [getCommentStyle(filePath)] *)
Definition getCommentStyle (filePath : jsstring) : option CommentStyle :=
  lookupStyle EXT_COMMENT_STYLE (toLowerCase (extname filePath)).

(** [isAlreadyCommented(line, style)] *)
Definition isAlreadyCommented (line : jsstring) (style : CommentStyle) : bool :=
  let trimmed := trimStart line in
  match style with
  | Prefix value => startsWith trimmed value
  | Wrap _ _ => startsWith trimmed (js "<!--") && endsWith trimmed (js "-->")
  end.

(** [commentLine(line, style)] *)
Definition commentLine (line : jsstring) (style : CommentStyle) : jsstring :=
  let m := matchIndent line in
  let indent := match m with Some (i, _) => i | None => [] end in
  let content := match m with Some (_, c) => c | None => line end in
  match style with
  | Prefix value =>
      if length (trim content) =? 0 then line
      else indent ++ value ++ js " " ++ content
  | Wrap start finish =>
      if length (trim content) =? 0 then line
      else indent ++ start ++ content ++ finish
  end.

(** ** The summary *)

Record FixSummary := {
  fixedFiles : nat;
  fixedLines : nat;
  skippedFiles : nat;
  skippedLines : nat;
  skippedReasons : list (jsstring * nat)
}.

(** [reasons[k] = (reasons[k] ?? 0) + 1] *)
Fixpoint bump (reasons : list (jsstring * nat)) (k : jsstring) : list (jsstring * nat) :=
  match reasons with
  | [] => [(k, 1)]
  | (k', n) :: rest => if bool_decide (k' = k) then (k', S n) :: rest else (k', n) :: bump rest k
  end.

Definition skipLines (summary : FixSummary) (n : nat) (reason : jsstring) : FixSummary :=
  {| fixedFiles := fixedFiles summary; fixedLines := fixedLines summary;
     skippedFiles := skippedFiles summary; skippedLines := skippedLines summary + n;
     skippedReasons := bump (skippedReasons summary) reason |}.

Definition skipFile (summary : FixSummary) (n : nat) (reason : jsstring) : FixSummary :=
  {| fixedFiles := fixedFiles summary; fixedLines := fixedLines summary;
     skippedFiles := skippedFiles summary + 1; skippedLines := skippedLines summary + n;
     skippedReasons := bump (skippedReasons summary) reason |}.

Definition fixedFile (summary : FixSummary) (n : nat) : FixSummary :=
  {| fixedFiles := fixedFiles summary + 1; fixedLines := fixedLines summary + n;
     skippedFiles := skippedFiles summary; skippedLines := skippedLines summary;
     skippedReasons := skippedReasons summary |}.

(** ** Grouping the findings *)

(** [byFile] is a [Map<string, Set<number>>]: files in insertion
    order, each with its line numbers in insertion order. *)
Definition addLine (lines : list Z) (ln : Z) : list Z :=
  if bool_decide (ln ∈ lines) then lines else lines ++ [ln].

Fixpoint addToFile (byFile : list (jsstring * list Z)) (f : jsstring) (ln : Z)
    : list (jsstring * list Z) :=
  match byFile with
  | [] => [(f, [ln])]
  | (f', lines) :: rest =>
      if bool_decide (f' = f) then (f', addLine lines ln) :: rest
      else (f', lines) :: addToFile rest f ln
  end.

(** [finding.source === "heuristic"] *)
Definition isHeuristic (finding : Finding) : bool :=
  match source finding with
  | Some heuristic => true
  | _ => false
  end.

(** The first loop of [applyFixes]; [!finding.line] holds for a
    missing line and for line 0. *)
Fixpoint groupByFile (findings : list Finding) (byFile : list (jsstring * list Z))
    (summary : FixSummary) : list (jsstring * list Z) * FixSummary :=
  match findings with
  | [] => (byFile, summary)
  | finding :: rest =>
      match line finding with
      | None => groupByFile rest byFile (skipLines summary 1 (js "missing-line"))
      | Some ln =>
          if (ln =? 0)%Z then
            groupByFile rest byFile (skipLines summary 1 (js "missing-line"))
          else if isHeuristic finding then
            groupByFile rest byFile (skipLines summary 1 (js "heuristic"))
          else groupByFile rest (addToFile byFile (file finding) ln) summary
      end
  end.

(** ** Rewriting one file *)

(** The variables of the loop over the line numbers of a file. *)
Record FileState := {
  split : list jsstring;
  changed : bool;
  fixedHere : nat;
  fsummary : FixSummary
}.

(** The body of [for (const lineNumber of lines)] *)
Definition fixLine (style : CommentStyle) (st : FileState) (lineNumber : Z) : FileState :=
  let index := (lineNumber - 1)%Z in
  if (index <? 0)%Z || (Z.of_nat (length (split st)) <=? index)%Z then
    {| split := split st; changed := changed st; fixedHere := fixedHere st;
       fsummary := skipLines (fsummary st) 1 (js "line-out-of-range") |}
  else
    match split st !! Z.to_nat index with
    | None => st
    | Some original =>
        if isAlreadyCommented original style then
          {| split := split st; changed := changed st; fixedHere := fixedHere st;
             fsummary := skipLines (fsummary st) 1 (js "already-commented") |}
        else
          let updated := commentLine original style in
          if bool_decide (updated <> original) then
            {| split := <[Z.to_nat index := updated]> (split st); changed := true;
               fixedHere := fixedHere st + 1; fsummary := fsummary st |}
          else st
    end.

(** ** The files

    A file is known by the text [readText] decodes from it; a file
    that [Bun.write] has written holds the text written.  [readable]
    says whether [readText] accepts a file with that text (its size
    and its first bytes decide), and a path with no file has no
    text. *)
Definition Files := jsstring -> option jsstring.

Definition write (files : Files) (path text : jsstring) : Files :=
  fun p => if bool_decide (p = path) then Some text else files p.

Section Applier.
Variable readable : jsstring -> bool.

Definition readText (files : Files) (path : jsstring) : option jsstring :=
  match files path with
  | Some text => if readable text then Some text else None
  | None => None
  end.

(** The body of [for (const [file, lines] of byFile)] *)
Definition fixFile (st : Files * FixSummary) (entry : jsstring * list Z) : Files * FixSummary :=
  let '(files, summary) := st in
  let '(file, lines) := entry in
  match getCommentStyle file with
  | None => (files, skipFile summary (length lines) (js "unsupported-type"))
  | Some style =>
      match readText files file with
      | None => (files, skipFile summary (length lines) (js "read-failed"))
      | Some content =>
          let eol := if includes content [CR; LF] then [CR; LF] else [LF] in
          let st' := fold_left (fixLine style) lines
                       {| split := splitLines content; changed := false;
                          fixedHere := 0; fsummary := summary |} in
          if changed st'
          then (write files file (join eol (split st')), fixedFile (fsummary st') (fixedHere st'))
          else (files, fsummary st')
      end
  end.

Definition emptySummary : FixSummary :=
  {| fixedFiles := 0; fixedLines := 0; skippedFiles := 0; skippedLines := 0;
     skippedReasons := [] |}.

(** [applyFixes(findings)] on the files [files]: the files it leaves
    and the summary it returns. *)
Definition applyFixes (files : Files) (findings : list Finding) : Files * FixSummary :=
  let '(byFile, summary) := groupByFile findings [] emptySummary in
  fold_left fixFile byFile (files, summary).

End Applier.

(** A finding that [applyFixes] does not skip. *)
Definition fixable (f : Finding) : bool :=
  match line f with
  | None => false
  | Some ln => negb (ln =? 0)%Z && negb (isHeuristic f)
  end.

(** ** A small tree

    [/t/test.md] and [/t/a.py], the second with mixed line ends, and
    findings on both, one of them heuristic, one without line and one
    on a JSON file. *)
Definition sampleFiles : Files :=
  fun p =>
    if bool_decide (p = js "/t/test.md") then
      Some (js "Line 1" ++ [LF] ++ js "  Problematic line" ++ [LF] ++ js "Line 3")
    else if bool_decide (p = js "/t/a.py") then
      Some (js "import os" ++ [CR; LF] ++ js "eval('x')" ++ [LF] ++ js "# done")
    else None.

Definition sampleFinding (path : jsstring) (ln : option Z) (src : Source) : Finding :=
  {| ruleId := js "TEST_RULE"; severity := HIGH; message := js "Test issue";
     file := path; line := ln; category := None; remediation := None;
     source := Some src; confidence := None; confidenceReason := None |}.

Definition sampleFindings : list Finding :=
  [ sampleFinding (js "/t/test.md") (Some 2%Z) signature;
    sampleFinding (js "/t/a.py") (Some 2%Z) signature;
    sampleFinding (js "/t/a.py") (Some 3%Z) signature;
    sampleFinding (js "/t/a.py") (Some 1%Z) heuristic;
    sampleFinding (js "/t/test.md") None signature;
    sampleFinding (js "/t/x.json") (Some 1%Z) signature ].

(** Findings that [applyFixes] skips: heuristic, without line, on
    line 0. *)
Definition skippedFindings : list Finding :=
  [ sampleFinding (js "/t/a.py") (Some 1%Z) heuristic;
    sampleFinding (js "/t/test.md") None signature;
    sampleFinding (js "/t/test.md") (Some 0%Z) signature ].

(** ** Changed lines *)

(** The number of positions at which two lists of lines differ. *)
Fixpoint differing (before after : list jsstring) : nat :=
  match before, after with
  | x :: before', y :: after' =>
      (if decide (x = y) then 0 else 1) + differing before' after'
  | _, _ => 0
  end.

(** The number of lines at which the texts of a file differ; none
    when the file is missing before or after. *)
Definition changedLines (before after : option jsstring) : nat :=
  match before, after with
  | Some a, Some b => differing (splitLines a) (splitLines b)
  | _, _ => 0
  end.

End Fix.

(* ===================================================================== *)
(** * One request of the MCP client ([rpc] in [src/scanner/mcp/client-http.ts]) *)
(* ===================================================================== *)

Module McpRequest.
Import McpClient.

(** The [error] member of a JSON-RPC answer, as far as the client
    reads it for its control flow: [code] is [err.code] when the
    member is there (a whole number) and not [null]. *)
Record RpcError := {
  code : option Z
}.

(** What [JSON.parse] gave, as far as the client looks at it: [error]
    is [json.error] when that is truthy, [result] is [json.result]
    when [json] is an object with the key ["result"].  [null], a
    number, a string or an array have neither. *)
Record Json (T : Type) := {
  error : option RpcError;
  result : option T
}.
Arguments error {T} _.
Arguments result {T} _.

(** The [Response] of [fetch]: [res.ok], [res.status] and the text of
    the body. *)
Record Response := {
  ok : bool;
  status : Z;
  text : jsstring
}.

(** How [fetch] and the reading of the body go: [fetch] rejects (the
    timeout that aborts it included), [res.text()] rejects, or both
    resolve. *)
Inductive Fetched :=
| NetworkError
| BodyError
| Answer (res : Response).

(** [text.split("\n")] *)
Fixpoint splitLF (text : jsstring) : list jsstring :=
  match text with
  | [] => [[]]
  | c :: rest =>
      if (c =? 10)%N then [] :: splitLF rest
      else
        match splitLF rest with
        | l :: ls => (c :: l) :: ls
        | [] => [[c]]
        end
  end.

(** The text that is parsed: for a body in the format of server-sent
    events, the first [data:] line without its prefix, trimmed. *)
Definition jsonTextOf (text : jsstring) : jsstring :=
  if startsWith text (js "event:") then
    match List.find (fun line => startsWith line (js "data:")) (splitLF text) with
    | Some dataLine => Fix.trim (drop 5 dataLine)
    | None => text
    end
  else text.

Section Request.
Context {T : Type}.

(** [JSON.parse]: [None] when it throws. *)
Variable parse : jsstring -> option (Json T).

(** The function that [rpc] hands to [retryWithBackoff], from the
    point where [fetch] has settled. *)
Definition respond (fetched : Fetched) : Outcome T :=
  match fetched with
  | NetworkError => Rejected (McpRpcError None)
  | BodyError => Rejected Error
  | Answer res =>
      let jsonText := jsonTextOf (text res) in
      let parsed := if length jsonText =? 0
                    then Some {| error := None; result := None |}
                    else parse jsonText in
      match parsed with
      | None => Rejected (McpRpcError (Some (status res)))
      | Some json =>
          if negb (ok res) then
            Rejected (McpRpcError
              (Some match error json with
                    | Some err => default (status res) (code err)
                    | None => status res
                    end))
          else
            match error json with
            | Some err => Rejected (McpRpcError (code err))
            | None =>
                match result json with
                | Some value => Resolved value
                | None => Rejected (McpRpcError None)
                end
            end
      end
  end.

(** The code of the error that [respond] throws for an answer that is
    not ok: the code of the JSON-RPC error in the body when the body
    parses and holds one, the HTTP status otherwise. *)
Definition failureCode (res : Response) : Z :=
  let jsonText := jsonTextOf (text res) in
  match (if length jsonText =? 0 then None else parse jsonText) with
  | Some json =>
      match error json with
      | Some err => default (status res) (code err)
      | None => status res
      end
  | None => status res
  end.

End Request.

(** The answer 404 with a page of HTML, and the answer 500 whose body
    is the JSON-RPC error -32601. *)
Definition notFoundPage : Response :=
  {| ok := false; status := 404; text := js "<html>Not Found</html>" |}.

Definition methodMissing : Response :=
  {| ok := false; status := 500; text := js "{error}" |}.

(** A parser for the two bodies above. *)
Definition parseSample (s : jsstring) : option (Json unit) :=
  if bool_decide (s = js "{error}")
  then Some {| error := Some {| code := Some (-32601)%Z |}; result := None |}
  else None.

(** The answer 404 whose body is a JSON-RPC error with the code
    -32000: [{"error":{"code":-32000}}], the quotation mark being the
    code unit 34. *)
Definition QUOTE : N := 34.

Definition rpcErrorBody : jsstring :=
  js "{" ++ [QUOTE] ++ js "error" ++ [QUOTE] ++ js ":{" ++
  [QUOTE] ++ js "code" ++ [QUOTE] ++ js ":-32000}}".

Definition notFoundRpc : Response :=
  {| ok := false; status := 404; text := rpcErrorBody |}.

(** [JSON.parse] on that body and on the page of HTML. *)
Definition parseRpcError (s : jsstring) : option (Json unit) :=
  if bool_decide (s = rpcErrorBody)
  then Some {| error := Some {| code := Some (-32000)%Z |}; result := None |}
  else None.

End McpRequest.

(* ===================================================================== *)
(** * Properties of the rule engine *)
(* ===================================================================== *)

Module RuleEngineProofs.
Import RuleEngine.

Lemma search_spec m s i count j e :
  search m s i count = Some (j, e) ->
  i <= j < i + count /\ j <= e <= length s /\ run m s j = Some e.
Proof.
  revert i; induction count as [|k IH]; intros i; simpl; [discriminate|].
  destruct (run m s i) as [e'|] eqn:Hrun.
  - intros [= <- <-]. pose proof (run_bounds m _ _ _ Hrun). repeat split; auto; lia.
  - intros H. apply IH in H. intuition lia.
Qed.

(** What [exec] does to the cursor. *)
Lemma exec_Some re s i e re' :
  exec re s = (Some (i, e), re') ->
  lastIndex re <= i /\ i <= e <= length s /\ lastIndex re' = e /\ matcher re' = matcher re.
Proof.
  unfold exec. destruct (length s <? lastIndex re) eqn:Hlt; [discriminate|].
  destruct (search _ _ _ _) as [[j e']|] eqn:Hs; [|discriminate].
  intros [= <- <- <-]. apply search_spec in Hs. simpl. intuition lia.
Qed.

Lemma exec_None re s re' :
  exec re s = (None, re') -> lastIndex re' = 0 /\ matcher re' = matcher re.
Proof.
  unfold exec. destruct (length s <? lastIndex re); [intros [= <-]; auto|].
  destruct (search _ _ _ _) as [[j e']|]; [discriminate|]. intros [= <-]; auto.
Qed.

(** The binary search of [indexToLine] is over within the turns it is
    given. *)
Lemma indexToLineLoop_turns (lineIndex : list nat) (position turns extra : nat) (low high : Z) :
  (high - low + 1 <= Z.of_nat turns)%Z ->
  indexToLineLoop (turns + extra) lineIndex position low high =
  indexToLineLoop turns lineIndex position low high.
Proof.
  revert low high; induction turns as [|k IH]; intros low high Hsize.
  - destruct extra as [|extra]; [reflexivity|]. simpl.
    replace (low <=? high)%Z with false by (symmetry; apply Z.leb_gt; lia). reflexivity.
  - simpl. destruct (low <=? high)%Z eqn:Hle; [|reflexivity].
    apply Z.leb_le in Hle.
    assert (Hmid : (low <= (low + high) / 2 <= high)%Z).
    { split; [apply Z.div_le_lower_bound | apply Z.div_le_upper_bound]; lia. }
    destruct (nth _ lineIndex 0 <=? position); apply IH; lia.
Qed.

Section Engine.
Variable clock : nat -> Z.
Variable regexTimeoutMs : Z.

Local Abbreviation matchStep := (matchStep clock regexTimeoutMs).
Local Abbreviation matchLoop := (matchLoop clock regexTimeoutMs).
Local Abbreviation patternLoop := (patternLoop clock regexTimeoutMs).
Local Abbreviation scanRule := (scanRule clock regexTimeoutMs).
Local Abbreviation ruleLoop := (ruleLoop clock regexTimeoutMs).
Local Abbreviation scanContent := (scanContent clock regexTimeoutMs).

(** The facts about one turn of the [while] loop that the three
    properties below rest on. *)
Record StepOk (rule : CompiledRule) (filePath : jsstring) (content : jsstring)
    (st st' : LoopState) (continues : bool) : Prop := {
  step_cursor : continues = true ->
    lastIndex (regex st) < lastIndex (regex st') <= S (length content);
  step_hits : ruleHits st <= ruleHits st' <= S (ruleHits st);
  step_findings : exists new,
    findings st' = findings st ++ new /\
    length new = ruleHits st' - ruleHits st /\
    Forall (fun f => ruleId f = Rule.id rule) new;
  step_cap : continues = true -> ruleHits st' < MAX_FINDINGS_PER_RULE_PER_FILE \/ ruleHits st' = ruleHits st
}.

Lemma matchStep_ok rule content filePath lineIndex start st :
  match matchStep rule content filePath lineIndex start st with
  | Continue st' => StepOk rule filePath content st st' true
  | Break st' => StepOk rule filePath content st st' false
  end.
Proof.
  unfold RuleEngine.matchStep, execWithTimeout.
  destruct (exec (regex st) content) as [m regex'] eqn:Hexec.
  assert (Hnil : forall st',
    regex st' = regex st' -> ruleHits st' = ruleHits st -> findings st' = findings st ->
    exists new, findings st' = findings st ++ new /\
      length new = ruleHits st' - ruleHits st /\ Forall (fun f => ruleId f = Rule.id rule) new).
  { intros st' _ Hh Hf. exists []. rewrite Hf, Hh, app_nil_r. repeat split; auto; simpl; lia. }
  destruct (clock (S (ticks st)) - clock (ticks st) >? regexTimeoutMs)%Z.
  { constructor; simpl; try lia; try discriminate; auto. }
  destruct m as [[i e]|].
  2:{ constructor; simpl; try lia; try discriminate; auto. }
  apply exec_Some in Hexec as (Hi & He & Hl & _).
  destruct (_ >? _)%Z.
  { constructor; simpl; try lia; try discriminate; auto. }
  destruct (length (slice content i e) =? 0) eqn:Hz.
  { constructor; simpl; try lia; auto. }
  assert (i < e).
  { apply Nat.eqb_neq in Hz. unfold slice in Hz.
    rewrite length_take, length_drop in Hz. lia. }
  destruct (isExcluded (excl st) (slice content i e)) as [ex excl'].
  destruct ex.
  { constructor; simpl; try lia; auto. }
  destruct (MAX_FINDINGS_PER_RULE_PER_FILE <=? _) eqn:Hcap; cbn [ruleHits] in Hcap;
    constructor; simpl; try lia; try discriminate.
  - eexists [_]. repeat split; [simpl; lia|]. repeat constructor.
  - eexists [_]. repeat split; [simpl; lia|]. repeat constructor.
  - intros _. left. apply Nat.leb_gt in Hcap. lia.
Qed.

(** With [length content + 2] turns the [while] loop is over: every
    turn that continues moves the cursor up, and the cursor cannot pass
    [length content + 1]. *)
Lemma matchLoop_terminates rule content filePath lineIndex start turns st :
  lastIndex (regex st) <= S (length content) ->
  length content + 2 <= turns + lastIndex (regex st) ->
  exists st', matchLoop turns rule content filePath lineIndex start st = Some st'.
Proof.
  revert st; induction turns as [|k IH]; intros st Hinv Hfuel; [lia|].
  simpl. pose proof (matchStep_ok rule content filePath lineIndex start st) as Hstep.
  destruct (matchStep _ _ _ _ _ st) as [st'|st']; [|eauto].
  destruct Hstep as [Hc _ _ _]. specialize (Hc eq_refl).
  apply IH; lia.
Qed.

(** What the [while] loop as a whole does to the findings and the
    hit counter. *)
Lemma matchLoop_ok rule content filePath lineIndex start turns st st' :
  matchLoop turns rule content filePath lineIndex start st = Some st' ->
  ruleHits st < MAX_FINDINGS_PER_RULE_PER_FILE ->
  ruleHits st' <= MAX_FINDINGS_PER_RULE_PER_FILE /\
  exists new, findings st' = findings st ++ new /\
    length new = ruleHits st' - ruleHits st /\
    ruleHits st <= ruleHits st' /\
    Forall (fun f => ruleId f = Rule.id rule) new.
Proof.
  revert st; induction turns as [|k IH]; intros st; simpl; [discriminate|].
  pose proof (matchStep_ok rule content filePath lineIndex start st) as Hstep.
  destruct (matchStep _ _ _ _ _ st) as [st1|st1].
  - destruct Hstep as [_ Hh (new & Hf & Hlen & Hall) Hcap]. specialize (Hcap eq_refl).
    intros Hloop Hlt. apply IH in Hloop; [|lia].
    destruct Hloop as (Hle & new' & Hf' & Hlen' & Hmono & Hall').
    split; [auto|]. exists (new ++ new'). rewrite Hf', Hf, <- app_assoc.
    repeat split; [rewrite length_app; lia | lia | apply Forall_app; auto].
  - destruct Hstep as [_ Hh (new & Hf & Hlen & Hall) _].
    intros [= <-] Hlt. split; [lia|]. exists new. repeat split; auto; lia.
Qed.

Lemma patternLoop_terminates rule content filePath lineIndex pending rs :
  exists rs', patternLoop (length content + 2) rule content filePath lineIndex pending rs = Some rs'.
Proof.
  revert rs; induction pending as [|re rest IH]; intros rs; cbn [RuleEngine.patternLoop]; [eauto|].
  match goal with
  | |- context [RuleEngine.matchLoop _ _ ?k ?r ?c ?f ?l ?s ?st] =>
      destruct (matchLoop_terminates r c f l s k st) as [st' ->]; [simpl; lia | simpl; lia |]
  end.
  destruct (MAX_FINDINGS_PER_RULE_PER_FILE <=? ruleHits st'); [eauto | apply IH].
Qed.

Lemma patternLoop_ok rule content filePath lineIndex turns pending rs rs' :
  patternLoop turns rule content filePath lineIndex pending rs = Some rs' ->
  rhits rs < MAX_FINDINGS_PER_RULE_PER_FILE ->
  rhits rs' <= MAX_FINDINGS_PER_RULE_PER_FILE /\
  exists new, rfindings rs' = rfindings rs ++ new /\
    length new = rhits rs' - rhits rs /\
    rhits rs <= rhits rs' /\
    Forall (fun f => ruleId f = Rule.id rule) new.
Proof.
  revert rs; induction pending as [|re rest IH]; intros rs; cbn [RuleEngine.patternLoop].
  - intros [= <-] Hlt. split; [lia|]. exists []. rewrite app_nil_r.
    repeat split; auto. simpl; lia.
  - destruct (matchLoop _ _ _ _ _ _ _) as [st'|] eqn:Hloop; [|discriminate].
    intros Hrs Hlt. apply matchLoop_ok in Hloop; [|cbn [ruleHits]; lia].
    cbn [ruleHits findings] in Hloop.
    destruct Hloop as (Hle & new & Hf & Hlen & Hmono & Hall).
    destruct (MAX_FINDINGS_PER_RULE_PER_FILE <=? ruleHits st') eqn:Hcap.
    + injection Hrs as <-. cbn [rhits rfindings]. split; [auto|]. exists new. auto.
    + apply Nat.leb_gt in Hcap. apply IH in Hrs; [|cbn [rhits]; lia].
      cbn [rhits rfindings] in Hrs.
      destruct Hrs as (Hle' & new' & Hf' & Hlen' & Hmono' & Hall').
      split; [auto|]. exists (new ++ new'). rewrite Hf', Hf, <- app_assoc.
      repeat split; [rewrite length_app; lia | lia | apply Forall_app; auto].
Qed.

Lemma scanRule_terminates content filePath fileType lineIndex rule t :
  exists r, scanRule (length content + 2) content filePath fileType lineIndex rule t = Some r.
Proof.
  unfold RuleEngine.scanRule. destruct (negb _); [eauto|].
  edestruct patternLoop_terminates as [rs' ->]. eauto.
Qed.

Lemma scanRule_ok turns content filePath fileType lineIndex rule t fs rule' t' :
  scanRule turns content filePath fileType lineIndex rule t = Some (fs, rule', t') ->
  length fs <= MAX_FINDINGS_PER_RULE_PER_FILE /\
  Forall (fun f => ruleId f = Rule.id rule) fs /\
  Rule.id rule' = Rule.id rule.
Proof.
  unfold RuleEngine.scanRule. destruct (negb _).
  - intros [= <- <- <-]. simpl. repeat split; auto. lia.
  - destruct (patternLoop _ _ _ _ _ _ _) as [rs|] eqn:Hp; [|discriminate].
    intros [= <- <- <-]. apply patternLoop_ok in Hp; [|simpl; unfold MAX_FINDINGS_PER_RULE_PER_FILE; lia].
    simpl in Hp. destruct Hp as (Hle & new & -> & Hlen & _ & Hall).
    repeat split; auto. lia.
Qed.

Lemma ruleLoop_terminates content filePath fileType lineIndex rules t :
  exists r, ruleLoop (length content + 2) content filePath fileType lineIndex rules t = Some r.
Proof.
  revert t; induction rules as [|rule rest IH]; intros t; simpl; [eauto|].
  destruct (scanRule_terminates content filePath fileType lineIndex rule t) as [[[fs rule'] t'] ->].
  destruct (IH t') as [[[fs' rest'] t''] ->]. eauto.
Qed.

(** The findings of a scan, rule by rule. *)
Lemma ruleLoop_chunks turns content filePath fileType lineIndex rules t fs rules' t' :
  ruleLoop turns content filePath fileType lineIndex rules t = Some (fs, rules', t') ->
  exists chunks,
    fs = concat chunks /\
    Forall2 (fun rule chunk =>
      length chunk <= MAX_FINDINGS_PER_RULE_PER_FILE /\
      Forall (fun f => ruleId f = Rule.id rule) chunk) rules chunks.
Proof.
  revert t fs rules' t'; induction rules as [|rule rest IH]; intros t fs rules' t'; simpl.
  - intros [= <- <- <-]. exists []. split; auto.
  - destruct (scanRule _ _ _ _ _ _ _) as [[[fs1 rule1] t1]|] eqn:Hr; [|discriminate].
    destruct (ruleLoop _ _ _ _ _ _ _) as [[[fs2 rest2] t2]|] eqn:Hl; [|discriminate].
    intros [= <- <- <-]. apply scanRule_ok in Hr as (Hlen & Hall & _).
    apply IH in Hl as (chunks & -> & HF). exists (fs1 :: chunks). split; auto.
Qed.




Lemma chunk_count (rule : CompiledRule) (chunk : list Finding) (rid : jsstring) :
  length chunk <= MAX_FINDINGS_PER_RULE_PER_FILE ->
  Forall (fun f => ruleId f = Rule.id rule) chunk ->
  length (filter (fun f => ruleId f = rid) chunk) <=
  MAX_FINDINGS_PER_RULE_PER_FILE * length (filter (fun r => Rule.id r = rid) [rule]).
Proof.
  intros Hlen Hall. rewrite filter_cons, filter_nil.
  destruct (decide (Rule.id rule = rid)) as [Heq|Hne].
  - pose proof (length_filter (fun f => ruleId f = rid) chunk). cbn [length]. lia.
  - replace (filter (fun f => ruleId f = rid) chunk) with (@nil Finding); [cbn [length]; lia|].
    symmetry. induction Hall as [|f fs Hf _ IH]; [reflexivity|].
    rewrite filter_cons. destruct (decide (ruleId f = rid)); [congruence|].
    apply IH. simpl in Hlen. lia.
Qed.

(** C2: for every content, file path, file type and rule list,
    [scanContent] ends with a finding list that splits into one chunk
    per rule of the list, in order; every chunk has at most
    [MAX_FINDINGS_PER_RULE_PER_FILE] = 20 findings, whatever the number
    of compiled patterns of the rule, and all of them carry the id of
    that rule.  Counted by rule id, the findings are at most 20 for
    each rule of the list that carries the id. *)
Theorem scanContent_cap (content filePath fileType : jsstring)
    (rules : list CompiledRule) (t : nat) :
  MAX_FINDINGS_PER_RULE_PER_FILE = 20 /\
  exists fs rules' t',
    scanContent content filePath fileType rules t = Some (fs, rules', t') /\
    (exists chunks,
       fs = concat chunks /\
       Forall2 (fun rule chunk =>
         length chunk <= MAX_FINDINGS_PER_RULE_PER_FILE /\
         Forall (fun f => ruleId f = Rule.id rule) chunk) rules chunks) /\
    (forall rid,
       length (filter (fun f => ruleId f = rid) fs) <=
       MAX_FINDINGS_PER_RULE_PER_FILE * length (filter (fun r => Rule.id r = rid) rules)).
Proof.
  split; [reflexivity|].
  destruct (ruleLoop_terminates content filePath fileType (buildLineIndex content) rules t)
    as [[[fs rules'] t'] Hrun].
  exists fs, rules', t'. split; [exact Hrun|].
  apply ruleLoop_chunks in Hrun as (chunks & -> & HF).
  split; [eauto|]. intros rid.
  induction HF as [|rule chunk rest chunks [Hlen Hall] _ IH]; [simpl; lia|].
  simpl concat. rewrite filter_app, length_app.
  change (rule :: rest) with ([rule] ++ rest). rewrite filter_app, length_app.
  pose proof (chunk_count rule chunk rid Hlen Hall). lia.
Qed.


End Engine.

(** C1: on the two-line content, with a clock that never runs out,
    the pattern of [secretRule] matches ["secret_key"] on line 1 and
    on line 2, and the exclude pattern matches that text; the scan
    skips the hit of line 1 and emits the hit of line 2, because
    [test] resumes at the cursor the first call left in the exclude
    expression. *)
Theorem scanContent_exclude_second_hit :
  matches (literal (js "secret")) (js "secret_key") = true /\
  slice twoSecrets 0 10 = js "secret_key" /\
  slice twoSecrets 11 21 = js "secret_key" /\
  option_map (fun r => map (fun f => (ruleId f, line f)) (fst (fst r)))
    (scanContent (fun _ => 0%Z) 1000 twoSecrets (js "notes.md") (js "markdown")
       [secretRule] 0)
  = Some [(js "SECRET_KEY", Some 2%Z)].
Proof. repeat split; vm_compute; reflexivity. Qed.

End RuleEngineProofs.

(* ===================================================================== *)
(** * Line numbers, soundness of findings, exclusion, indexed rules *)
(* ===================================================================== *)

Module LineIndexProofs.
Import RuleEngine.

(** How many entries of a line index lie at or before a position. *)
Definition upTo (lineIndex : list nat) (position : nat) : nat :=
  length (List.filter (fun x => x <=? position) lineIndex).

Lemma lineStarts_after (content : jsstring) (i : nat) :
  Forall (fun x => i < x) (lineStarts content i).
Proof.
  revert i; induction content as [|c rest IH]; intros i; simpl; [constructor|].
  assert (Hrest : Forall (fun x => i < x) (lineStarts rest (S i))).
  { eapply Forall_impl; [apply IH|]. simpl. intros; lia. }
  destruct (N.eqb c 10); [constructor; [lia | exact Hrest] | exact Hrest].
Qed.

Lemma lineStarts_sorted (content : jsstring) (i : nat) :
  StronglySorted le (lineStarts content i).
Proof.
  revert i; induction content as [|c rest IH]; intros i; simpl; [constructor|].
  destruct (N.eqb c 10); [|apply IH].
  constructor; [apply IH|].
  eapply Forall_impl; [apply lineStarts_after|]. simpl. intros; lia.
Qed.

(** The entries at or before [position] stand for the line feeds
    before it. *)
Lemma lineStarts_upTo (content : jsstring) (i position : nat) :
  upTo (lineStarts content i) position = lineFeedsBefore content (position - i).
Proof.
  unfold upTo, lineFeedsBefore.
  revert i; induction content as [|c rest IH]; intros i; cbn [lineStarts].
  - rewrite take_nil. reflexivity.
  - destruct (position - i) as [|k] eqn:Hk.
    + assert (Hz : position - S i = 0) by lia.
      specialize (IH (S i)). rewrite Hz in IH. cbn [take List.filter length] in IH |- *.
      destruct (N.eqb c 10); [|exact IH]. cbn [List.filter].
      replace (S i <=? position) with false by (symmetry; apply Nat.leb_gt; lia).
      exact IH.
    + assert (Hz : position - S i = k) by lia.
      specialize (IH (S i)). rewrite Hz in IH. cbn [take List.filter].
      destruct (N.eqb c 10); [|exact IH]. cbn [List.filter length].
      replace (S i <=? position) with true by (symmetry; apply Nat.leb_le; lia).
      cbn [length]. rewrite IH. reflexivity.
Qed.

(** In a sorted index the entries at or before [position] are the
    first ones. *)
Lemma sorted_upTo (lineIndex : list nat) (position j : nat) :
  StronglySorted le lineIndex -> j < length lineIndex ->
  (nth j lineIndex 0 <=? position) = (j <? upTo lineIndex position).
Proof.
  unfold upTo. intros Hs. revert j. induction Hs as [|x l Hs IH Hx]; intros j Hj; simpl in Hj; [lia|].
  simpl. destruct (x <=? position) eqn:Hxp.
  - destruct j as [|j]; simpl; [exact Hxp|]. apply IH. lia.
  - assert (Hnone : List.filter (fun y => y <=? position) l = []).
    { clear IH Hs Hj. induction Hx as [|y l Hy Hx IH]; simpl; [reflexivity|].
      apply Nat.leb_gt in Hxp.
      replace (y <=? position) with false by (symmetry; apply Nat.leb_gt; lia). exact IH. }
    rewrite Hnone. simpl. destruct j as [|j]; simpl; [exact Hxp|].
    rewrite Forall_forall in Hx. apply Nat.leb_gt in Hxp. apply Nat.leb_gt.
    assert (Hin : In (nth j l 0) l) by (apply nth_In; lia).
    apply list_elem_of_In, Hx in Hin. lia.
Qed.

(** The binary search answers with the number of entries at or before
    [position]. *)
Lemma indexToLineLoop_upTo (lineIndex : list nat) (position turns : nat) (low high : Z) :
  StronglySorted le lineIndex ->
  (0 <= low <= Z.of_nat (upTo lineIndex position))%Z ->
  (Z.of_nat (upTo lineIndex position) <= high + 1 <= Z.of_nat (length lineIndex))%Z ->
  (high - low + 1 <= Z.of_nat turns)%Z ->
  indexToLineLoop turns lineIndex position low high = Z.of_nat (upTo lineIndex position).
Proof.
  intros Hs. revert low high; induction turns as [|k IH]; intros low high Hlow Hhigh Hturns.
  - simpl. lia.
  - simpl. destruct (low <=? high)%Z eqn:Hle; [|apply Z.leb_gt in Hle; lia].
    apply Z.leb_le in Hle.
    assert (Hmid : (low <= (low + high) / 2 <= high)%Z).
    { split; [apply Z.div_le_lower_bound | apply Z.div_le_upper_bound]; lia. }
    rewrite sorted_upTo by (auto; lia).
    destruct (Z.to_nat ((low + high) / 2) <? upTo lineIndex position) eqn:Hcmp.
    + apply Nat.ltb_lt in Hcmp. apply IH; lia.
    + apply Nat.ltb_ge in Hcmp. apply IH; lia.
Qed.

(** On the index of a content the search answers with the number of
    line starts at or before the position, at least one and at most
    the number of lines. *)
Lemma indexToLine_upTo (content : jsstring) (position : nat) :
  indexToLine (buildLineIndex content) position =
    Z.of_nat (upTo (buildLineIndex content) position) /\
  1 <= upTo (buildLineIndex content) position <= length (buildLineIndex content).
Proof.
  unfold indexToLine, buildLineIndex.
  assert (Hs : StronglySorted le (0 :: lineStarts content 0)).
  { constructor; [apply lineStarts_sorted|].
    eapply Forall_impl; [apply lineStarts_after|]. simpl. intros; lia. }
  assert (Hle : upTo (0 :: lineStarts content 0) position <= length (0 :: lineStarts content 0)).
  { unfold upTo. apply List.filter_length_le. }
  assert (Hpos : 1 <= upTo (0 :: lineStarts content 0) position).
  { unfold upTo. cbn [List.filter Nat.leb length]. lia. }
  split; [|lia]. rewrite indexToLineLoop_upTo; auto; lia.
Qed.

(** X1: [indexToLine(buildLineIndex(content), position)] is the
    1-based number of the line that holds the code unit at [position]:
    one more than the number of line feeds among the first [position]
    code units of [content], whatever the position (past the end of
    the content it is the number of the last line). *)
Theorem indexToLine_line_number (content : jsstring) (position : nat) :
  indexToLine (buildLineIndex content) position =
  Z.of_nat (S (lineFeedsBefore content position)).
Proof.
  rewrite (proj1 (indexToLine_upTo content position)). f_equal.
  unfold buildLineIndex, upTo. cbn [List.filter Nat.leb length].
  fold (upTo (lineStarts content 0) position).
  rewrite lineStarts_upTo, Nat.sub_0_r. reflexivity.
Qed.

End LineIndexProofs.

Module ScanSoundProofs.
Import RuleEngine.

Section Engine.
Variable clock : nat -> Z.
Variable regexTimeoutMs : Z.

Local Abbreviation matchStep := (matchStep clock regexTimeoutMs).
Local Abbreviation matchLoop := (matchLoop clock regexTimeoutMs).
Local Abbreviation patternLoop := (patternLoop clock regexTimeoutMs).
Local Abbreviation scanRule := (scanRule clock regexTimeoutMs).
Local Abbreviation ruleLoop := (ruleLoop clock regexTimeoutMs).
Local Abbreviation scanContent := (scanContent clock regexTimeoutMs).

(** What one turn adds to the findings. *)
Definition Adds (rule : CompiledRule) (content filePath : jsstring) (lineIndex : list nat)
    (st st' : LoopState) : Prop :=
  matcher (regex st') = matcher (regex st) /\
  exists new, findings st' = findings st ++ new /\
    Forall (Reports (matcher (regex st)) content filePath lineIndex rule) new.

Lemma Adds_nothing rule content filePath lineIndex st st' :
  matcher (regex st') = matcher (regex st) -> findings st' = findings st ->
  Adds rule content filePath lineIndex st st'.
Proof. intros Hm Hf. split; [exact Hm|]. exists []. rewrite app_nil_r. auto. Qed.

Lemma matchStep_adds rule content filePath lineIndex start st :
  match matchStep rule content filePath lineIndex start st with
  | Continue st' | Break st' => Adds rule content filePath lineIndex st st'
  end.
Proof.
  unfold RuleEngine.matchStep, execWithTimeout.
  destruct (exec (regex st) content) as [m regex'] eqn:Hexec.
  assert (Hm : matcher regex' = matcher (regex st)).
  { destruct m as [[i e]|];
      [apply RuleEngineProofs.exec_Some in Hexec | apply RuleEngineProofs.exec_None in Hexec];
      tauto. }
  destruct (clock (S (ticks st)) - clock (ticks st) >? regexTimeoutMs)%Z.
  { apply Adds_nothing; auto. }
  destruct m as [[i e]|]; [|apply Adds_nothing; auto].
  pose proof Hexec as Hsearch. unfold exec in Hsearch.
  destruct (length content <? lastIndex (regex st)); [discriminate|].
  destruct (search _ _ _ _) as [[j e']|] eqn:Hs; [|discriminate].
  injection Hsearch as -> -> _. apply RuleEngineProofs.search_spec in Hs as (_ & _ & Hrun).
  destruct (_ >? _)%Z; [apply Adds_nothing; auto|].
  destruct (length (slice content i e) =? 0) eqn:Hz; [apply Adds_nothing; auto|].
  assert (i < e).
  { apply Nat.eqb_neq in Hz. unfold slice in Hz.
    rewrite length_take, length_drop in Hz. lia. }
  destruct (isExcluded (excl st) (slice content i e)) as [ex excl'].
  destruct ex; [apply Adds_nothing; auto|].
  assert (Hadd : forall st', matcher (regex st') = matcher (regex st) ->
    findings st' = findings st ++ [mkFinding rule filePath (indexToLine lineIndex i)] ->
    Adds rule content filePath lineIndex st st').
  { intros st' Hm' Hf. split; [exact Hm'|]. eexists. split; [exact Hf|].
    constructor; [|constructor]. exists i, e. auto. }
  destruct (MAX_FINDINGS_PER_RULE_PER_FILE <=? _); apply Hadd; auto.
Qed.

Lemma matchLoop_adds rule content filePath lineIndex start turns st st' :
  matchLoop turns rule content filePath lineIndex start st = Some st' ->
  Adds rule content filePath lineIndex st st'.
Proof.
  revert st; induction turns as [|k IH]; intros st; simpl; [discriminate|].
  pose proof (matchStep_adds rule content filePath lineIndex start st) as Hstep.
  destruct (matchStep _ _ _ _ _ st) as [st1|st1].
  - intros Hloop. apply IH in Hloop. destruct Hstep as (Hm & new & Hf & Hall).
    destruct Hloop as (Hm' & new' & Hf' & Hall'). split; [congruence|].
    exists (new ++ new'). rewrite Hf', Hf, <- app_assoc. split; [reflexivity|].
    apply Forall_app. split; [exact Hall|]. rewrite Hm in Hall'. exact Hall'.
  - intros [= <-]. exact Hstep.
Qed.

Lemma patternLoop_adds rule content filePath lineIndex turns pending rs rs' :
  patternLoop turns rule content filePath lineIndex pending rs = Some rs' ->
  exists new, rfindings rs' = rfindings rs ++ new /\
    Forall (fun f => exists re, re ∈ pending /\
              Reports (matcher re) content filePath lineIndex rule f) new.
Proof.
  revert rs; induction pending as [|re rest IH]; intros rs; cbn [RuleEngine.patternLoop].
  - intros [= <-]. exists []. rewrite app_nil_r. auto.
  - destruct (matchLoop _ _ _ _ _ _ _) as [st'|] eqn:Hloop; [|discriminate].
    apply matchLoop_adds in Hloop as (_ & new & Hf & Hall). cbn [findings regex] in Hf, Hall.
    assert (Hhere : Forall (fun f => exists re0, re0 ∈ re :: rest /\
              Reports (matcher re0) content filePath lineIndex rule f) new).
    { eapply Forall_impl; [exact Hall|]. simpl. intros f Hr. exists re.
      split; [apply list_elem_of_here | exact Hr]. }
    destruct (MAX_FINDINGS_PER_RULE_PER_FILE <=? ruleHits st').
    + intros [= <-]. cbn [rfindings]. exists new. auto.
    + intros Hrs. apply IH in Hrs as (new' & Hf' & Hall'). cbn [rfindings] in Hf'.
      exists (new ++ new'). rewrite Hf', Hf, <- app_assoc. split; [reflexivity|].
      apply Forall_app. split; [exact Hhere|].
      eapply Forall_impl; [exact Hall'|]. simpl. intros f (re0 & Hin & Hr).
      exists re0. split; [apply list_elem_of_further, Hin | exact Hr].
Qed.

Lemma ruleLoop_sound turns content filePath fileType lineIndex rules t fs rules' t' :
  ruleLoop turns content filePath fileType lineIndex rules t = Some (fs, rules', t') ->
  Forall (FromRule content filePath fileType lineIndex rules) fs.
Proof.
  revert t fs rules' t'; induction rules as [|rule rest IH]; intros t fs rules' t'; simpl.
  - intros [= <- <- <-]. constructor.
  - destruct (RuleEngine.scanRule _ _ _ _ _ _ _ _ _) as [[[fs1 rule1] t1]|] eqn:Hr; [|discriminate].
    destruct (RuleEngine.ruleLoop _ _ _ _ _ _ _ _ _) as [[[fs2 rest2] t2]|] eqn:Hl; [|discriminate].
    intros [= <- <- <-]. apply Forall_app. split.
    + unfold RuleEngine.scanRule in Hr.
      destruct (isFileTypeMatch rule fileType) eqn:Hft; cbn [negb] in Hr;
        [|injection Hr as <- _ _; constructor].
      destruct (RuleEngine.patternLoop _ _ _ _ _ _ _ _ _) as [rs|] eqn:Hp; [|discriminate].
      injection Hr as <- _ _. apply patternLoop_adds in Hp as (new & Hf & Hall).
      cbn [rfindings app] in Hf. rewrite Hf.
      eapply Forall_impl; [exact Hall|]. simpl. intros f (re & Hin & Hrep).
      exists rule, re. split; [apply list_elem_of_here|]. auto.
    + apply IH in Hl. eapply Forall_impl; [exact Hl|]. simpl.
      intros f (rule0 & re & Hin & Hrest). exists rule0, re.
      split; [apply list_elem_of_further, Hin | exact Hrest].
Qed.

(** X2: every finding that [scanContent] returns reports a match: it
    comes from a rule of the list whose [file_types] hold the file
    type or ["any"], carries that rule's id, severity, category,
    description (or ["Matched rule " + id]) and remediation, the file
    path, the source ["signature"], and the line of an index at which
    one of the rule's compiled patterns has a match that is not empty;
    that line lies between 1 and the number of lines of the content.
    Rules for other file types add nothing. *)
Theorem scanContent_sound (content filePath fileType : jsstring)
    (rules : list CompiledRule) (t : nat) :
  exists fs rules' t',
    scanContent content filePath fileType rules t = Some (fs, rules', t') /\
    Forall (fun f =>
      FromRule content filePath fileType (buildLineIndex content) rules f /\
      file f = filePath /\ source f = Some signature /\
      exists ln, line f = Some ln /\
        (1 <= ln <= Z.of_nat (length (buildLineIndex content)))%Z) fs.
Proof.
  unfold RuleEngine.scanContent.
  destruct (RuleEngineProofs.ruleLoop_terminates clock regexTimeoutMs content filePath fileType
              (buildLineIndex content) rules t) as [[[fs rules'] t'] Hrun].
  exists fs, rules', t'. split; [exact Hrun|].
  apply ruleLoop_sound in Hrun. eapply Forall_impl; [exact Hrun|]. simpl.
  intros f Hf. split; [exact Hf|].
  destruct Hf as (rule & re & _ & _ & _ & i & e & _ & _ & ->).
  repeat split. eexists. split; [reflexivity|].
  destruct (LineIndexProofs.indexToLine_upTo content i) as [-> Hrange].
  unfold buildLineIndex in *. cbn [length] in Hrange. lia.
Qed.

End Engine.

(** ** Exclusion with rewound cursors *)

Lemma test_rewound (re : RegExp) (s : jsstring) :
  lastIndex re = 0 ->
  fst (test re s) = matches (matcher re) s /\
  (fst (test re s) = false -> snd (test re s) = re).
Proof.
  intros Hz. unfold test, exec, matches. rewrite Hz. cbn [Nat.ltb Nat.leb].
  rewrite Nat.sub_0_r.
  destruct (search (matcher re) s 0 (S (length s))) as [[i e]|]; cbn [fst snd].
  - split; [reflexivity|]. rewrite bool_decide_true by discriminate. discriminate.
  - split; [reflexivity|]. intros _. destruct re as [m l]. simpl in Hz. subst. reflexivity.
Qed.

(** X3: when every exclude expression of a rule has its cursor at 0,
    [isExcluded(rule, match)] says whether one of the exclude patterns
    matches somewhere in the matched text; and when it says no, every
    cursor is at 0 again, so that hits which are not excluded never
    disturb the tests that follow. *)
Theorem isExcluded_rewound (excl : list RegExp) (s : jsstring) :
  Forall (fun re => lastIndex re = 0) excl ->
  fst (isExcluded excl s) = existsb (fun re => matches (matcher re) s) excl /\
  (fst (isExcluded excl s) = false -> snd (isExcluded excl s) = excl).
Proof.
  intros Hall. unfold isExcluded. destruct excl as [|re0 rest0]; [split; reflexivity|].
  cbn [length Nat.eqb]. generalize dependent (re0 :: rest0). clear re0 rest0.
  intros excl Hall. induction Hall as [|re rest Hre Hrest IH]; [split; reflexivity|].
  cbn [someTest existsb]. destruct (test_rewound re s Hre) as [Hfst Hsnd].
  destruct (test re s) as [b re'] eqn:Ht. cbn [fst snd] in Hfst, Hsnd. subst b.
  destruct (matches (matcher re) s); cbn [orb fst snd].
  - split; [reflexivity | discriminate].
  - destruct (someTest rest s) as [b' rest'] eqn:Hrec. cbn [fst snd] in IH |- *.
    destruct IH as [IH1 IH2]. split; [exact IH1|].
    intros Hb. rewrite Hsnd by reflexivity. rewrite IH2 by exact Hb. reflexivity.
Qed.

Lemma isExcluded_rewound_witness :
  Forall (fun re => lastIndex re = 0) [newRegExp (js "secret"); newRegExp (js "token")] /\
  fst (isExcluded [newRegExp (js "secret"); newRegExp (js "token")] (js "my_token")) = true /\
  fst (isExcluded [newRegExp (js "secret"); newRegExp (js "token")] (js "password")) = false /\
  snd (isExcluded [newRegExp (js "secret"); newRegExp (js "token")] (js "password")) =
    [newRegExp (js "secret"); newRegExp (js "token")].
Proof.
  assert (Hall : Forall (fun re => lastIndex re = 0)
                   [newRegExp (js "secret"); newRegExp (js "token")])
    by (repeat constructor).
  split; [exact Hall|].
  pose proof (isExcluded_rewound _ (js "my_token") Hall) as [H1 _].
  pose proof (isExcluded_rewound _ (js "password") Hall) as [H2 H3].
  split; [rewrite H1; vm_compute; reflexivity|].
  assert (Hf : fst (isExcluded [newRegExp (js "secret"); newRegExp (js "token")] (js "password")) = false)
    by (rewrite H2; vm_compute; reflexivity).
  split; [exact Hf | exact (H3 Hf)].
Defined.

End ScanSoundProofs.

Module IndexedRulesProofs.
Import RuleEngine IndexedRules.

(** The rules kept under a file type, [[]] when the type has no
    entry. *)
Definition specific (m : list (jsstring * list CompiledRule)) (fileType : jsstring)
    : list CompiledRule :=
  default [] (mapGet m fileType).

Lemma pushRule_specific m ft rule fileType :
  specific (pushRule m ft rule) fileType =
  specific m fileType ++ (if decide (ft = fileType) then [rule] else []).
Proof.
  unfold specific. induction m as [|[k rs] rest IH]; simpl.
  - destruct (decide (ft = fileType)); reflexivity.
  - destruct (decide (k = ft)) as [->|Hne]; simpl.
    + destruct (decide (ft = fileType)); simpl; [reflexivity | rewrite app_nil_r; reflexivity].
    + destruct (decide (k = fileType)) as [->|Hne'].
      * destruct (decide (ft = fileType)); [congruence | rewrite app_nil_r; reflexivity].
      * exact IH.
Qed.

Lemma pushAll_specific (fts : list jsstring) m rule fileType (r : CompiledRule) :
  r ∈ specific (fold_left (fun m ft => pushRule m ft rule) fts m) fileType <->
  r ∈ specific m fileType \/ (r = rule /\ fileType ∈ fts).
Proof.
  revert m; induction fts as [|ft fts IH]; intros m; simpl.
  - split; [auto|]. intros [H|[_ H]]; [exact H | inversion H].
  - rewrite IH, pushRule_specific, elem_of_app.
    destruct (decide (ft = fileType)) as [->|Hne].
    + rewrite list_elem_of_singleton, elem_of_cons. tauto.
    + rewrite elem_of_cons. split.
      * intros [[H|H]|[H1 H2]]; [auto | inversion H | auto].
      * intros [H|[H1 [H2|H2]]]; [auto | congruence | auto].
Qed.

Lemma addRules_spec (rules : list CompiledRule) (engine : IndexedRuleEngine)
    (fileType : jsstring) (r : CompiledRule) :
  r ∈ getRulesForFileType (fold_left addRule rules engine) fileType <->
  r ∈ getRulesForFileType engine fileType \/
  (r ∈ rules /\ isFileTypeMatch r fileType = true).
Proof.
  revert engine; induction rules as [|rule rest IH]; intros engine; simpl.
  - split; [auto|]. intros [H|[H _]]; [exact H | inversion H].
  - rewrite IH. clear IH. unfold getRulesForFileType, addRule, isFileTypeMatch.
    fold (specific (rulesByFileType engine) fileType).
    destruct (bool_decide_reflect (js "any" ∈ Rule.file_types rule)) as [Hany|Hany];
      cbn [universalRules rulesByFileType].
    + fold (specific (rulesByFileType engine) fileType).
      rewrite !elem_of_app, list_elem_of_singleton, elem_of_cons. split.
      * intros [[[H | ->] | H] | H]; [tauto | | tauto | tauto].
        right. split; [auto|]. rewrite (bool_decide_true _ Hany). apply orb_true_r.
      * intros [[H | H] | [[-> | H] Hm]]; tauto.
    + fold (specific (fold_left (fun m ft => pushRule m ft rule) (Rule.file_types rule)
                        (rulesByFileType engine)) fileType).
      rewrite !elem_of_app, pushAll_specific, elem_of_cons. split.
      * intros [[H | [H | [-> H]]] | H]; [tauto | tauto | | tauto].
        right. split; [auto|]. rewrite (bool_decide_true _ H). reflexivity.
      * intros [[H | H] | [[-> | H] Hm]]; [tauto | tauto | | tauto].
        apply orb_true_iff in Hm as [Hm|Hm]; apply bool_decide_eq_true in Hm;
          [tauto | contradiction].
Qed.

(** X4: the rules that [getRulesForFileType(fileType)] of an engine
    built from [rules] returns are the rules of the list that
    [isFileTypeMatch] accepts for that file type: indexing loses no
    rule that applies and brings in none that does not. *)
Theorem getRulesForFileType_applicable (rules : list CompiledRule)
    (fileType : jsstring) (rule : CompiledRule) :
  rule ∈ getRulesForFileType (newIndexedRuleEngine rules) fileType <->
  rule ∈ rules /\ isFileTypeMatch rule fileType = true.
Proof.
  unfold newIndexedRuleEngine. rewrite addRules_spec.
  unfold getRulesForFileType. cbn [universalRules rulesByFileType mapGet default app].
  split; [intros [H|H]; [inversion H | exact H] | auto].
Qed.

End IndexedRulesProofs.

(* ===================================================================== *)
(** * Properties of the meta analyzer *)
(* ===================================================================== *)

Module MetaProofs.
Import Meta.

(** Two findings with the same rule id, file, line and message have
    the same key. *)
Lemma key_same_tuple (f g : Finding) :
  ruleId f = ruleId g -> file f = file g -> line f = line g -> message f = message g ->
  key f = key g.
Proof. unfold key. intros -> -> -> ->. reflexivity. Qed.

Definition keyed (f : Finding) : jsstring * Finding := (key f, f).

Lemma fst_keyed (l : list Finding) : fst <$> (keyed <$> l) = key <$> l.
Proof. rewrite <- list_fmap_compose. reflexivity. Qed.

Lemma snd_keyed (l : list Finding) : snd <$> (keyed <$> l) = l.
Proof. rewrite <- list_fmap_compose. apply list_fmap_id. Qed.

(** What the loop adds to [seen]: the first finding of every key that
    [seen] does not hold yet. *)
Lemma collect_spec (findings : list Finding) (seen : list (jsstring * Finding)) :
  exists new : list Finding,
    collect findings seen = seen ++ (keyed <$> new) /\
    new `sublist_of` findings /\
    NoDup (key <$> new) /\
    (forall f, f ∈ new -> key f ∉ fst <$> seen) /\
    (forall f, f ∈ findings -> key f ∈ fst <$> seen \/ key f ∈ key <$> new).
Proof.
  revert seen; induction findings as [|f rest IH]; intros seen; simpl.
  - exists []. rewrite app_nil_r. repeat split; auto using NoDup_nil_2.
    + intros f Hf. inversion Hf.
    + intros f Hf. inversion Hf.
  - unfold has. destruct (bool_decide_reflect (key f ∈ fst <$> seen)) as [Hin|Hnin].
    + destruct (IH seen) as (new & Heq & Hsub & Hnd & Hfresh & Hcov).
      exists new. repeat split; auto.
      * apply sublist_cons, Hsub.
      * intros g [->|Hg]%elem_of_cons; auto.
    + destruct (IH (seen ++ [(key f, f)])) as (new & Heq & Hsub & Hnd & Hfresh & Hcov).
      exists (f :: new). rewrite Heq, <- app_assoc. simpl. repeat split.
      * apply sublist_skip, Hsub.
      * apply NoDup_cons. split; [|exact Hnd].
        intros Hk. apply list_elem_of_fmap in Hk as (g & Hkg & Hg).
        apply (Hfresh g Hg). rewrite fmap_app. apply elem_of_app. right.
        simpl. rewrite <- Hkg. apply list_elem_of_here.
      * intros g [->|Hg]%elem_of_cons; [exact Hnin|].
        intros Hk. apply (Hfresh g Hg). rewrite fmap_app. apply elem_of_app. auto.
      * intros g [->|Hg]%elem_of_cons; [right; apply list_elem_of_here|].
        destruct (Hcov g Hg) as [Hk|Hk]; [|right; apply list_elem_of_further, Hk].
        rewrite fmap_app in Hk. apply elem_of_app in Hk as [Hk|Hk]; [auto|].
        simpl in Hk. apply list_elem_of_singleton in Hk. right. rewrite Hk.
        apply list_elem_of_here.
Qed.

(** On findings with pairwise different keys, none of them in [seen],
    the loop keeps every finding. *)
Lemma collect_NoDup (findings : list Finding) (seen : list (jsstring * Finding)) :
  NoDup (key <$> findings) ->
  (forall f, f ∈ findings -> key f ∉ fst <$> seen) ->
  collect findings seen = seen ++ (keyed <$> findings).
Proof.
  revert seen; induction findings as [|f rest IH]; intros seen Hnd Hfresh; simpl.
  - rewrite app_nil_r. reflexivity.
  - apply NoDup_cons in Hnd as [Hf Hnd]. unfold has.
    rewrite bool_decide_false by (apply Hfresh, list_elem_of_here).
    rewrite IH; [rewrite <- app_assoc; reflexivity | exact Hnd |].
    intros g Hg Hk. rewrite fmap_app in Hk. apply elem_of_app in Hk as [Hk|Hk].
    + apply (Hfresh g); [apply list_elem_of_further, Hg | exact Hk].
    + simpl in Hk. apply list_elem_of_singleton in Hk. apply Hf. rewrite <- Hk.
      apply list_elem_of_fmap. eauto.
Qed.

Lemma filter_key_absent (l : list Finding) (k : jsstring) :
  k ∉ key <$> l -> filter (fun g => key g = k) l = [].
Proof.
  induction l as [|g l IH]; intros Hk; [reflexivity|].
  rewrite filter_cons. destruct (decide (key g = k)) as [<-|_].
  - exfalso. apply Hk. simpl. apply list_elem_of_here.
  - apply IH. intros Hin. apply Hk. simpl. apply list_elem_of_further, Hin.
Qed.

Lemma count_key_NoDup (l : list Finding) (k : jsstring) :
  NoDup (key <$> l) -> k ∈ key <$> l ->
  length (filter (fun g => key g = k) l) = 1.
Proof.
  induction l as [|f l IH]; simpl; intros Hnd Hin; [inversion Hin|].
  apply NoDup_cons in Hnd as [Hf Hnd]. rewrite filter_cons.
  destruct (decide (key f = k)) as [<-|Hne].
  - rewrite filter_key_absent by exact Hf. reflexivity.
  - apply IH; [exact Hnd|]. apply elem_of_cons in Hin as [Heq|Hin]; [congruence|exact Hin].
Qed.

(** C4: for every finding list [F], [applyMetaAnalyzer F] is a sublist
    of [F] (the kept findings, in their order in [F]);
    [applyMetaAnalyzer] applied to its own result changes nothing; and
    findings of [F] that share rule id, file, line and message share
    their key, of which the result holds exactly one finding. *)
Theorem applyMetaAnalyzer_dedup (F : list Finding) :
  applyMetaAnalyzer F `sublist_of` F /\
  applyMetaAnalyzer (applyMetaAnalyzer F) = applyMetaAnalyzer F /\
  (forall f g, f ∈ F -> g ∈ F ->
     ruleId f = ruleId g -> file f = file g -> line f = line g -> message f = message g ->
     key f = key g /\
     length (filter (fun h => key h = key f) (applyMetaAnalyzer F)) = 1).
Proof.
  unfold applyMetaAnalyzer.
  destruct (collect_spec F []) as (new & Heq & Hsub & Hnd & _ & Hcov).
  rewrite Heq. simpl. rewrite snd_keyed. split; [exact Hsub|]. split.
  - rewrite collect_NoDup; [simpl; apply snd_keyed | exact Hnd |].
    intros f _ Hf. inversion Hf.
  - intros f g Hf Hg H1 H2 H3 H4. split; [apply key_same_tuple; assumption|].
    apply count_key_NoDup; [exact Hnd|].
    destruct (Hcov f Hf) as [Hk|Hk]; [inversion Hk | exact Hk].
Qed.

Lemma applyMetaAnalyzer_dedup_witness :
  let F := [sampleFinding HIGH 1; sampleFinding LOW 1; sampleFinding HIGH 2] in
  applyMetaAnalyzer F = [sampleFinding HIGH 1; sampleFinding HIGH 2] /\
  key (sampleFinding HIGH 1) = key (sampleFinding LOW 1) /\
  length (filter (fun h => key h = key (sampleFinding HIGH 1)) (applyMetaAnalyzer F)) = 1.
Proof.
  intros F. split; [vm_compute; reflexivity|].
  apply (proj2 (proj2 (applyMetaAnalyzer_dedup F))); try reflexivity.
  - apply list_elem_of_here.
  - apply list_elem_of_further, list_elem_of_here.
Defined.

End MetaProofs.

(* ===================================================================== *)
(** * Properties of the confidence filter *)
(* ===================================================================== *)

Module ConfidenceProofs.
Import Confidence.

(** A finding without a confidence passes every threshold that is at
    most 1. *)
Lemma unscored_passes (f : Finding) (minConfidence : number) :
  leb minConfidence (Finite 1) = true ->
  confidence f = None ->
  geb (default (Finite 1) (confidence f)) minConfidence = true.
Proof. intros Hle ->. exact Hle. Qed.

(** C10: for every threshold [minConfidence <= 1.0], every finding of
    the list whose [confidence] is absent is in the result of
    [filterByConfidence]; the findings without a confidence are the
    same before and after the filter, in number and in order.  The
    default threshold 0.5 is one of these thresholds. *)
Theorem filterByConfidence_keeps_unscored (findings : list Finding)
    (minConfidence : number) (f : Finding) :
  leb minConfidence (Finite 1) = true ->
  In f findings ->
  confidence f = None ->
  In f (filterByConfidence findings (Some minConfidence)) /\
  List.filter unscored (filterByConfidence findings (Some minConfidence)) =
    List.filter unscored findings /\
  List.filter unscored (filterByConfidence findings None) = List.filter unscored findings.
Proof.
  intros Hle Hin Hnone. unfold filterByConfidence. simpl. split; [|split].
  - apply filter_In. split; [exact Hin|]. apply unscored_passes; assumption.
  - clear Hin. induction findings as [|g rest IH]; [reflexivity|]. simpl.
    destruct (geb _ minConfidence) eqn:Hg; simpl.
    + rewrite IH. reflexivity.
    + rewrite IH. unfold unscored at 2.
      destruct (bool_decide_reflect (confidence g = None)) as [Hc|Hc]; [|reflexivity].
      rewrite unscored_passes in Hg by assumption. discriminate.
  - clear Hin. induction findings as [|g rest IH]; [reflexivity|]. simpl.
    destruct (geb _ _) eqn:Hg; simpl.
    + rewrite IH. reflexivity.
    + rewrite IH. unfold unscored at 2.
      destruct (bool_decide_reflect (confidence g = None)) as [Hc|Hc]; [|reflexivity].
      rewrite Hc in Hg. discriminate.
Qed.

Lemma filterByConfidence_keeps_unscored_witness :
  filterByConfidence [scored (Some (Finite (3 # 10))); scored None] (Some (Finite (9 # 10)))
    = [scored None] /\
  In (scored None)
    (filterByConfidence [scored (Some (Finite (3 # 10))); scored None] (Some (Finite (9 # 10)))).
Proof.
  split; [vm_compute; reflexivity|].
  apply (filterByConfidence_keeps_unscored
           [scored (Some (Finite (3 # 10))); scored None] (Finite (9 # 10)) (scored None)).
  - vm_compute; reflexivity.
  - simpl; auto.
  - reflexivity.
Defined.

End ConfidenceProofs.

(* ===================================================================== *)
(** * Properties of the summaries and of the SARIF report *)
(* ===================================================================== *)

Module SummaryProofs.
Import Summary.

Lemma summarize_from (findings : list Finding) (acc : Counts) (sev : Severity) :
  fold_left (fun acc finding => increment acc (severity finding)) findings acc sev =
  acc sev + length (List.filter (fun f => bool_decide (severity f = sev)) findings).
Proof.
  revert acc; induction findings as [|f rest IH]; intros acc; simpl; [lia|].
  rewrite IH. unfold increment.
  destruct (decide (sev = severity f)) as [->|Hne].
  - rewrite bool_decide_true by reflexivity. simpl. lia.
  - rewrite bool_decide_false by congruence. lia.
Qed.

(** A counter of the summary is the number of findings of its
    severity. *)
Lemma summarize_count (findings : list Finding) (sev : Severity) :
  summarizeFindings findings sev =
  length (List.filter (fun f => bool_decide (severity f = sev)) findings).
Proof. unfold summarizeFindings. rewrite summarize_from. reflexivity. Qed.

(** X5: the summary counts every finding once, under its own
    severity: the counter of a severity is the number of findings of
    that severity, and the four counters add up to the number of
    findings. *)
Theorem summarizeFindings_counts (findings : list Finding) :
  (forall sev, summarizeFindings findings sev =
     length (List.filter (fun f => bool_decide (severity f = sev)) findings)) /\
  summarizeFindings findings LOW + summarizeFindings findings MEDIUM +
  summarizeFindings findings HIGH + summarizeFindings findings CRITICAL = length findings.
Proof.
  split; [apply summarize_count|]. rewrite !summarize_count.
  induction findings as [|f rest IH]; [reflexivity|].
  cbn [List.filter length]. destruct (severity f); simpl; lia.
Qed.

(** X6: the verdict of [shouldFail] can be read off the summary: with
    a threshold it is true exactly when the counter of some severity
    that ranks at or above the threshold is positive, and without a
    threshold it is false. *)
Theorem shouldFail_summary (findings : list Finding) (threshold : Severity) :
  (shouldFail findings (Some threshold) = true <->
   exists sev, (SEVERITY_RANK threshold <= SEVERITY_RANK sev)%Z /\
               0 < summarizeFindings findings sev) /\
  shouldFail findings None = false.
Proof.
  split; [|reflexivity]. unfold shouldFail. rewrite existsb_exists. split.
  - intros (f & Hin & Hrank). exists (severity f). split; [apply Z.leb_le, Hrank|].
    rewrite summarize_count.
    assert (Hf : In f (List.filter (fun g => bool_decide (severity g = severity f)) findings)).
    { apply filter_In. split; [exact Hin|]. apply bool_decide_eq_true. reflexivity. }
    destruct (List.filter _ findings); [contradiction | simpl; lia].
  - intros (sev & Hrank & Hpos). rewrite summarize_count in Hpos.
    destruct (List.filter _ findings) as [|f l] eqn:Hfil; [simpl in Hpos; lia|].
    assert (Hf : In f (List.filter (fun g => bool_decide (severity g = sev)) findings))
      by (rewrite Hfil; left; reflexivity).
    apply filter_In in Hf as [Hin Hsev]. apply bool_decide_eq_true in Hsev.
    exists f. split; [exact Hin|]. rewrite Hsev. apply Z.leb_le, Hrank.
Qed.

End SummaryProofs.

Module SarifProofs.
Import Summary Sarif.

Lemma collectRules_keys (findings : list Finding) (rules : list (jsstring * ReportingDescriptor))
    (k : jsstring) :
  k ∈ fst <$> collectRules findings rules <-> k ∈ fst <$> rules \/ k ∈ ruleId <$> findings.
Proof.
  revert rules; induction findings as [|f rest IH]; intros rules; simpl.
  - split; [auto|]. intros [H|H]; [exact H | inversion H].
  - destruct (bool_decide_reflect (ruleId f ∈ fst <$> rules)) as [Hin|Hout]; rewrite IH.
    + rewrite elem_of_cons. split; [tauto|]. intros [H|[->|H]]; auto.
    + rewrite fmap_app, elem_of_app, elem_of_cons. simpl.
      rewrite list_elem_of_singleton. tauto.
Qed.

Lemma collectRules_NoDup (findings : list Finding) (rules : list (jsstring * ReportingDescriptor)) :
  NoDup (fst <$> rules) -> NoDup (fst <$> collectRules findings rules).
Proof.
  revert rules; induction findings as [|f rest IH]; intros rules Hnd; simpl; [exact Hnd|].
  destruct (bool_decide_reflect (ruleId f ∈ fst <$> rules)) as [Hin|Hout]; [auto|].
  apply IH. rewrite fmap_app. apply NoDup_app. split; [exact Hnd|]. split.
  - intros k Hk Hk'. simpl in Hk'. apply list_elem_of_singleton in Hk'. subst. contradiction.
  - simpl. apply NoDup_singleton.
Qed.

(** Every entry is filed under its own id, and an entry that the loop
    adds describes the first finding with that id. *)
Lemma collectRules_entries (findings : list Finding) (rules : list (jsstring * ReportingDescriptor))
    (k : jsstring) (d : ReportingDescriptor) :
  (k, d) ∈ collectRules findings rules ->
  (k, d) ∈ rules \/
  ((k ∉ (fst <$> rules)) /\ exists f, firstWith k findings = Some f /\ d = describe f).
Proof.
  revert rules; induction findings as [|f rest IH]; intros rules; simpl; [auto|].
  destruct (bool_decide_reflect (ruleId f ∈ fst <$> rules)) as [Hin|Hout]; intros Hkd.
  - apply IH in Hkd as [H|(Hk & g & Hg & ->)]; [auto|]. right. split; [exact Hk|].
    exists g. split; [|reflexivity]. unfold firstWith in *. simpl.
    rewrite bool_decide_false by (intros <-; contradiction). exact Hg.
  - apply IH in Hkd as [H|(Hk & g & Hg & ->)].
    + apply elem_of_app in H as [H|H]; [auto|]. apply list_elem_of_singleton in H.
      injection H as -> ->. right. split; [exact Hout|]. exists f.
      split; [|reflexivity]. unfold firstWith. simpl.
      rewrite bool_decide_true by reflexivity. reflexivity.
    + right. rewrite fmap_app, elem_of_app in Hk. split; [tauto|].
      exists g. split; [|reflexivity]. unfold firstWith in *. simpl.
      rewrite bool_decide_false; [exact Hg|].
      intros Heq. apply Hk. right. simpl. rewrite Heq. apply list_elem_of_here.
Qed.

(** X7: the rule table of the SARIF report declares every rule id
    once, declares the ids of the results and no others, and describes
    each rule by the message of the first finding that carries its
    id. *)
Theorem buildRules_table (findings : list Finding) :
  NoDup (Descriptor.id <$> buildRules findings) /\
  (forall rid, rid ∈ Descriptor.id <$> buildRules findings <->
               rid ∈ Result.ruleId <$> buildResults findings) /\
  (forall d, d ∈ buildRules findings ->
     exists f, firstWith (Descriptor.id d) findings = Some f /\ d = describe f).
Proof.
  assert (Hentries : forall k d, (k, d) ∈ collectRules findings [] ->
            exists f, firstWith k findings = Some f /\ d = describe f).
  { intros k d H. apply collectRules_entries in H as [H|(_ & H)]; [inversion H | exact H]. }
  assert (Hid : forall k d, (k, d) ∈ collectRules findings [] -> Descriptor.id d = k).
  { intros k d H. destruct (Hentries k d H) as (f & Hf & ->). unfold firstWith in Hf.
    apply find_some in Hf as [_ Hf]. apply bool_decide_eq_true in Hf. exact Hf. }
  assert (Hids : Descriptor.id <$> buildRules findings = fst <$> collectRules findings []).
  { unfold buildRules. rewrite <- list_fmap_compose. apply list_fmap_ext.
    intros i [k d] Hl. simpl. apply (Hid k d). eapply list_elem_of_lookup_2, Hl. }
  rewrite Hids. split; [apply collectRules_NoDup; constructor|]. split.
  - intros rid. rewrite collectRules_keys. unfold buildResults.
    rewrite <- list_fmap_compose. simpl. split; [intros [H|H]; [inversion H | exact H] | auto].
  - intros d Hd. unfold buildRules in Hd. apply list_elem_of_fmap in Hd as ([k d'] & -> & Hin).
    simpl. rewrite (Hid k d' Hin). apply (Hentries k d' Hin).
Qed.

(** X8: the SARIF results follow the findings one by one, and the
    report holds a result of level [error] exactly when [shouldFail]
    with the threshold [HIGH] is true of the findings. *)
Theorem buildResults_levels (findings : list Finding) :
  length (buildResults findings) = length findings /\
  (forall i f, findings !! i = Some f ->
     exists r, buildResults findings !! i = Some r /\
       Result.ruleId r = ruleId f /\ Result.uri r = file f /\
       Result.level r = severityToLevel (severity f)) /\
  (shouldFail findings (Some HIGH) = true <->
   exists r, r ∈ buildResults findings /\ Result.level r = error).
Proof.
  unfold buildResults. split; [apply length_fmap|]. split.
  - intros i f Hf. eexists. rewrite list_lookup_fmap, Hf. simpl. eauto.
  - unfold shouldFail. rewrite existsb_exists. split.
    + intros (f & Hin & Hrank). eexists. split.
      * apply list_elem_of_fmap. exists f. split; [reflexivity | apply list_elem_of_In, Hin].
      * simpl. destruct (severity f); simpl in *; try reflexivity; discriminate.
    + intros (r & Hin & Hlev). apply list_elem_of_fmap in Hin as (f & -> & Hin).
      exists f. split; [apply list_elem_of_In, Hin|]. simpl in Hlev.
      destruct (severity f); simpl in *; try reflexivity; discriminate.
Qed.

End SarifProofs.

(* ===================================================================== *)
(** * Properties of the scan cache *)
(* ===================================================================== *)

Module CacheProofs.
Import Cache.

Lemma mapSet_length m k v : length (mapSet m k v) <= S (length m).
Proof.
  induction m as [|[k' v'] m IH]; simpl; [lia|].
  destruct (decide (k' = k)); simpl; lia.
Qed.

Lemma mapDelete_member m k :
  In k (map fst m) -> S (length (mapDelete m k)) = length m.
Proof.
  induction m as [|[k' v'] m IH]; simpl; [tauto|].
  destruct (decide (k' = k)) as [->|Hne]; [reflexivity|].
  intros [Heq|Hin]; [congruence|]. simpl. rewrite IH; auto.
Qed.

(** Once a path has been picked, the loop of [evictOldestEntry] ends
    with a path of the map or with that one. *)
Lemma oldest_picked m p t :
  exists k, oldest m (Some p) t = Some k /\ (In k (map fst m) \/ k = p).
Proof.
  revert p t; induction m as [|[k v] m IH]; intros p t; simpl; [eauto|].
  destruct (match t with None => true | Some t0 => (Entry.timestamp v <? t0)%Z end).
  - destruct (IH k (Some (Entry.timestamp v))) as (k' & -> & [H| ->]); eauto.
  - destruct (IH p t) as (k' & -> & [H| ->]); eauto.
Qed.

(** One eviction takes one entry out of a cache that is not empty and
    has no entry under the empty path. *)
Lemma evictOldestEntry_length c :
  cache c <> [] -> ~ In [] (map fst (cache c)) ->
  S (length (cache (evictOldestEntry c))) = length (cache c).
Proof.
  unfold evictOldestEntry. destruct (cache c) as [|[k v] m] eqn:Hc; [congruence|].
  intros _ Hne. cbn [length Nat.eqb oldest].
  destruct (oldest_picked m k (Some (Entry.timestamp v))) as (k' & -> & Hk').
  assert (Hin : In k' (map fst ((k, v) :: m))) by (simpl; destruct Hk'; auto).
  destruct k' as [|ch path]; [contradiction|].
  cbn [cache setCache]. apply mapDelete_member, Hin.
Qed.

Lemma evictOldestEntry_le c : length (cache (evictOldestEntry c)) <= length (cache c).
Proof.
  unfold evictOldestEntry. destruct (length (cache c) =? 0); [lia|].
  destruct (oldest _ _ _) as [[|ch path]|]; try lia.
  cbn [cache setCache]. generalize (ch :: path). intros k.
  induction (cache c) as [|[k' v'] m IH]; simpl; [lia|].
  destruct (decide (k' = k)); simpl; lia.
Qed.

(** What the count check does keep: a cache that holds at most
    [maxEntries >= 1] entries, none of them under the empty path,
    holds at most [maxEntries] entries after a write. *)
Lemma doSetCachedFindings_count c filePath findings h now :
  (1 <= maxEntries c)%Z ->
  ~ In [] (map fst (cache c)) ->
  (Z.of_nat (length (cache c)) <= maxEntries c)%Z ->
  (Z.of_nat (length (cache (doSetCachedFindings c filePath findings h now))) <= maxEntries c)%Z.
Proof.
  intros Hmax Hne Hlen. unfold doSetCachedFindings. cbn [cache setCache].
  set (c1 := if (maxEntries c <=? _)%Z then _ else _).
  assert (Hc1 : (Z.of_nat (length (cache c1)) < maxEntries c)%Z).
  { subst c1. destruct (maxEntries c <=? _)%Z eqn:Hfull; [|apply Z.leb_gt in Hfull; lia].
    apply Z.leb_le in Hfull.
    assert (cache c <> []) by (destruct (cache c); [simpl in Hfull; lia | discriminate]).
    pose proof (evictOldestEntry_length c ltac:(assumption) Hne). lia. }
  set (c2 := if Qle_bool _ _ then _ else _).
  assert (Hc2 : length (cache c2) <= length (cache c1)).
  { subst c2. destruct (Qle_bool _ _); [apply evictOldestEntry_le | lia]. }
  match goal with |- context [mapSet ?m ?k ?v] => pose proof (mapSet_length m k v) end.
  lia.
Qed.

(** C5: two writes of one finding each into an empty cache with
    [maxSizeMB = 0.001] (1048.576 bytes): either entry alone is
    estimated at 592 bytes, no eviction takes place, and the cache is
    estimated at 1184 bytes after the second insertion.  And one write
    into a cache that was loaded with three entries under
    [maxEntries = 2]: one entry is evicted, the check is not repeated,
    and the cache holds three entries after the insertion. *)
Theorem doSetCachedFindings_over_limits :
  (Z.of_nat (length (cache afterTwoWrites)) = 2%Z /\
   estimateCacheSize afterTwoWrites = 1184%Z /\
   Qle_bool (inject_Z 592) (maxSizeBytes afterTwoWrites) = true /\
   Qle_bool (inject_Z (estimateCacheSize afterTwoWrites)) (maxSizeBytes afterTwoWrites) = false) /\
  (let c := doSetCachedFindings loadedCache (js "d.md") [] (js "h4") 4 in
   map fst (cache c) = [js "b.md"; js "c.md"; js "d.md"] /\
   maxEntries c = 2%Z).
Proof. repeat split; vm_compute; reflexivity. Qed.

End CacheProofs.

(* ===================================================================== *)
(** * Eviction, reads and loads of the scan cache *)
(* ===================================================================== *)

Module CacheReadProofs.
Import Cache.

Local Abbreviation keys m := (map fst m).

Lemma mapGet_mapSet m k v k' :
  mapGet (mapSet m k v) k' = if decide (k = k') then Some v else mapGet m k'.
Proof.
  induction m as [|[k0 v0] m IH]; simpl.
  - destruct (decide (k = k')); reflexivity.
  - destruct (decide (k0 = k)) as [->|Hne]; simpl.
    + destruct (decide (k = k')); reflexivity.
    + destruct (decide (k0 = k')) as [->|Hne'].
      * destruct (decide (k = k')); [congruence | reflexivity].
      * exact IH.
Qed.

Lemma mapSet_keys m k v k' : In k' (keys (mapSet m k v)) -> k' = k \/ In k' (keys m).
Proof.
  induction m as [|[k0 v0] m IH]; simpl; [intuition congruence|].
  destruct (decide (k0 = k)) as [->|Hne]; simpl; [intuition congruence|].
  intros [H|H]; [auto|]. apply IH in H. tauto.
Qed.

Lemma mapDelete_keys m k k' : In k' (keys (mapDelete m k)) -> In k' (keys m).
Proof.
  induction m as [|[k0 v0] m IH]; simpl; [tauto|].
  destruct (decide (k0 = k)); simpl; [tauto|]. intros [H|H]; auto.
Qed.

Lemma mapDelete_le m k : length (mapDelete m k) <= length m.
Proof.
  induction m as [|[k0 v0] m IH]; simpl; [lia|].
  destruct (decide (k0 = k)); simpl; lia.
Qed.

Lemma mapGet_None m k : ~ In k (keys m) -> mapGet m k = None.
Proof.
  induction m as [|[k0 v0] m IH]; simpl; [reflexivity|].
  intros Hk. destruct (decide (k0 = k)); [tauto | apply IH; tauto].
Qed.

Lemma mapGet_mapDelete m k k' :
  List.NoDup (keys m) ->
  mapGet (mapDelete m k) k' = if decide (k = k') then None else mapGet m k'.
Proof.
  induction m as [|[k0 v0] m IH]; simpl; intros Hnd.
  - destruct (decide (k = k')); reflexivity.
  - inversion Hnd as [|? ? Hout Hnd']; subst.
    destruct (decide (k0 = k)) as [->|Hne].
    + destruct (decide (k = k')) as [->|Hne']; [apply mapGet_None, Hout | reflexivity].
    + simpl. destruct (decide (k0 = k')) as [->|Hne'].
      * destruct (decide (k = k')); [congruence | reflexivity].
      * apply IH, Hnd'.
Qed.

Lemma evictOldestEntry_fields c :
  ruleVersion (evictOldestEntry c) = ruleVersion c /\
  maxEntries (evictOldestEntry c) = maxEntries c /\
  maxSizeBytes (evictOldestEntry c) = maxSizeBytes c /\
  (forall k, In k (keys (cache (evictOldestEntry c))) -> In k (keys (cache c))).
Proof.
  unfold evictOldestEntry. destruct (length (cache c) =? 0); [auto|].
  destruct (oldest _ _ _) as [[|ch path]|]; auto.
  cbn [ruleVersion maxEntries maxSizeBytes cache setCache].
  repeat split. intros k. apply mapDelete_keys.
Qed.

(** ** Eviction *)

(** Where the loop of [evictOldestEntry] ends: with the path it held
    when no entry is older than the timestamp it held, and otherwise
    with the first of the entries that are oldest. *)
Lemma oldest_spec m (held : option (jsstring * Z)) :
  let r := oldest m (fst <$> held) (snd <$> held) in
  (r = fst <$> held /\
   forall p e, In (p, e) m ->
     match held with Some (_, t) => (t <= Entry.timestamp e)%Z | None => False end) \/
  (exists pre path entry post,
     m = pre ++ (path, entry) :: post /\ r = Some path /\
     match held with Some (_, t) => (Entry.timestamp entry < t)%Z | None => True end /\
     (forall p e, In (p, e) pre -> (Entry.timestamp entry < Entry.timestamp e)%Z) /\
     (forall p e, In (p, e) post -> (Entry.timestamp entry <= Entry.timestamp e)%Z)).
Proof.
  revert held; induction m as [|[k v] m IH]; intros held; cbn zeta.
  - left. split; [reflexivity|]. intros p e [].
  - cbn [oldest].
    assert (Htake : forall r,
      r = oldest m (Some k) (Some (Entry.timestamp v)) ->
      match held with Some (_, t) => (Entry.timestamp v < t)%Z | None => True end ->
      exists pre path entry post,
        (k, v) :: m = pre ++ (path, entry) :: post /\ r = Some path /\
        match held with Some (_, t) => (Entry.timestamp entry < t)%Z | None => True end /\
        (forall p e, In (p, e) pre -> (Entry.timestamp entry < Entry.timestamp e)%Z) /\
        (forall p e, In (p, e) post -> (Entry.timestamp entry <= Entry.timestamp e)%Z)).
    { intros r -> Hheld.
      destruct (IH (Some (k, Entry.timestamp v))) as [[Hr Hall]|(pre & path & entry & post & -> & Hr & Hlt & Hpre & Hpost)];
        cbn [fmap option_fmap option_map fst snd] in *.
      - exists [], k, v, m. repeat split; auto. intros p e [].
      - exists ((k, v) :: pre), path, entry, post. repeat split; auto.
        + destruct held as [[p0 t]|]; [lia | exact I].
        + intros p e [[= <- <-]|Hin]; [exact Hlt | eauto]. }
    destruct held as [[p0 t]|]; cbn [fmap option_fmap option_map fst snd] in *.
    + destruct (Entry.timestamp v <? t)%Z eqn:Hcmp.
      * right. apply Htake; [reflexivity | apply Z.ltb_lt, Hcmp].
      * apply Z.ltb_ge in Hcmp.
        destruct (IH (Some (p0, t))) as [[Hr Hall]|(pre & path & entry & post & -> & Hr & Hlt & Hpre & Hpost)];
          cbn [fmap option_fmap option_map fst snd] in *.
        -- left. split; [exact Hr|]. intros p e [[= <- <-]|Hin]; [exact Hcmp | eauto].
        -- right. exists ((k, v) :: pre), path, entry, post. repeat split; auto.
           intros p e [[= <- <-]|Hin]; [lia | eauto].
    + right. apply Htake; [reflexivity | exact I].
Qed.

(** X9: [evictOldestEntry()] on a cache that holds entries, none of
    them under the empty path, deletes the entry with the smallest
    timestamp, the first one in insertion order when several entries
    share it, and marks the cache dirty. *)
Theorem evictOldestEntry_oldest (c : ScanCache) :
  cache c <> [] -> ~ In [] (keys (cache c)) ->
  exists pre path entry post,
    cache c = pre ++ (path, entry) :: post /\
    (forall p e, In (p, e) pre -> (Entry.timestamp entry < Entry.timestamp e)%Z) /\
    (forall p e, In (p, e) post -> (Entry.timestamp entry <= Entry.timestamp e)%Z) /\
    cache (evictOldestEntry c) = mapDelete (cache c) path /\
    dirty (evictOldestEntry c) = true.
Proof.
  intros Hne Hempty. unfold evictOldestEntry.
  destruct (length (cache c) =? 0) eqn:Hlen.
  { apply Nat.eqb_eq in Hlen. destruct (cache c); [congruence | discriminate]. }
  destruct (oldest_spec (cache c) None) as [[_ Hall]|(pre & path & entry & post & Hc & Hr & _ & Hpre & Hpost)];
    cbn [fmap option_fmap option_map] in *.
  - destruct (cache c) as [|[k v] m]; [congruence|]. destruct (Hall k v). left. reflexivity.
  - rewrite Hr. exists pre, path, entry, post.
    assert (Hin : In path (keys (cache c))).
    { rewrite Hc, map_app, in_app_iff. right. left. reflexivity. }
    destruct path as [|ch path]; [contradiction|]. auto.
Qed.

Lemma evictOldestEntry_oldest_witness :
  cache (evictOldestEntry loadedCache) = mapDelete (cache loadedCache) (js "a.md") /\
  dirty (evictOldestEntry loadedCache) = true.
Proof.
  destruct (evictOldestEntry_oldest loadedCache) as (pre & path & entry & post & Hc & Hpre & Hpost & Hdel & Hd).
  - discriminate.
  - vm_compute. intuition discriminate.
  - split; [vm_compute; reflexivity | exact Hd].
Defined.

(** ** The entry count over a scan *)

(** What the cache of a scan keeps: no entry under the empty path and
    no more entries than [maxEntries]. *)
Definition Bounded (c : ScanCache) : Prop :=
  ~ In [] (keys (cache c)) /\ (Z.of_nat (length (cache c)) <= maxEntries c)%Z.

Lemma doSetCachedFindings_fields c filePath findings h now :
  maxEntries (doSetCachedFindings c filePath findings h now) = maxEntries c /\
  ruleVersion (doSetCachedFindings c filePath findings h now) = ruleVersion c /\
  (forall k, In k (keys (cache (doSetCachedFindings c filePath findings h now))) ->
     k = filePath \/ In k (keys (cache c))).
Proof.
  unfold doSetCachedFindings. cbn [maxEntries ruleVersion cache setCache].
  set (c1 := if (maxEntries c <=? _)%Z then _ else _).
  assert (H1 : maxEntries c1 = maxEntries c /\ ruleVersion c1 = ruleVersion c /\
               forall k, In k (keys (cache c1)) -> In k (keys (cache c))).
  { subst c1. destruct (_ <=? _)%Z; [|auto].
    pose proof (evictOldestEntry_fields c). tauto. }
  set (c2 := if Qle_bool _ _ then _ else _).
  assert (H2 : maxEntries c2 = maxEntries c /\ ruleVersion c2 = ruleVersion c /\
               forall k, In k (keys (cache c2)) -> In k (keys (cache c))).
  { subst c2. destruct (Qle_bool _ _); [|exact H1].
    pose proof (evictOldestEntry_fields c1) as (Hr & Hm & _ & Hk).
    destruct H1 as (H1m & H1r & H1k). repeat split; [congruence | congruence | auto]. }
  destruct H2 as (H2m & H2r & H2k). repeat split; auto.
  intros k Hk. apply mapSet_keys in Hk as [Hk|Hk]; auto.
Qed.

Lemma call_bounded (maxAge : Z) (c : ScanCache) (op : Call) :
  (1 <= maxEntries c)%Z -> written op <> Some [] -> Bounded c ->
  maxEntries (call maxAge c op) = maxEntries c /\ Bounded (call maxAge c op).
Proof.
  intros Hmax Hpath [Hempty Hcount]. destruct op as [filePath findings h now|filePath now h|];
    cbn [call written] in *.
  - pose proof (doSetCachedFindings_fields c filePath findings h now) as (Hm & _ & Hk).
    split; [exact Hm|]. split.
    + intros Hin. apply Hk in Hin as [Heq|Hin]; [|contradiction].
      apply Hpath. rewrite <- Heq. reflexivity.
    + rewrite Hm. apply CacheProofs.doSetCachedFindings_count; assumption.
  - unfold getCachedFindings. destruct (mapGet (cache c) filePath) as [cached|]; [|split; [|split]; auto].
    assert (Hdel : maxEntries (setCache c (mapDelete (cache c) filePath) true) = maxEntries c /\
                   Bounded (setCache c (mapDelete (cache c) filePath) true)).
    { split; [reflexivity|]. split; cbn [cache setCache maxEntries].
      - intros Hin. apply mapDelete_keys in Hin. contradiction.
      - pose proof (mapDelete_le (cache c) filePath). lia. }
    destruct (negb _); [exact Hdel|]. destruct (_ <? _)%Z; [exact Hdel|].
    destruct (negb _); [exact Hdel|]. split; [|split]; auto.
  - split; [reflexivity|]. split; cbn [clear cache setCache maxEntries length]; [tauto | lia].
Qed.

(** X10: a cache made with [maxEntries >= 1] never holds more than
    [maxEntries] entries, whatever calls of [setCachedFindings] (on
    paths that are not empty), [getCachedFindings] and [clear] a scan
    makes on it, in whatever order. *)
Theorem cache_count_never_exceeded (ruleVersion : jsstring) (maxEntries : Z) (maxSizeMB : Q)
    (maxAge : Z) (calls : list Call) :
  (1 <= maxEntries)%Z ->
  Forall (fun op => written op <> Some []) calls ->
  (Z.of_nat (length (cache (fold_left (call maxAge) calls
                              (newScanCache ruleVersion maxEntries maxSizeMB)))) <= maxEntries)%Z.
Proof.
  intros Hmax Hcalls.
  assert (Hinv : forall c, Cache.maxEntries c = maxEntries -> Bounded c ->
            Bounded (fold_left (call maxAge) calls c) /\
            Cache.maxEntries (fold_left (call maxAge) calls c) = maxEntries).
  { induction Hcalls as [|op rest Hop _ IH]; intros c Hm Hb; [auto|]. simpl.
    destruct (call_bounded maxAge c op) as [Hm' Hb']; [lia | exact Hop | exact Hb |].
    apply IH; [congruence | exact Hb']. }
  destruct (Hinv (newScanCache ruleVersion maxEntries maxSizeMB)) as [[_ Hb] Hm].
  - reflexivity.
  - split; cbn [newScanCache cache Cache.maxEntries length map]; [tauto | lia].
  - rewrite Hm in Hb. exact Hb.
Qed.

Lemma cache_count_never_exceeded_witness :
  (Z.of_nat (length (cache (fold_left (call 1000)
     [SetCachedFindings (js "a.md") [] (js "h1") 1;
      SetCachedFindings (js "b.md") [] (js "h2") 2;
      GetCachedFindings (js "a.md") 3 (js "h1");
      SetCachedFindings (js "c.md") [] (js "h3") 4]
     (newScanCache (js "1.0") 2 100)))) <= 2)%Z.
Proof.
  apply (cache_count_never_exceeded (js "1.0") 2 100 1000); [lia|].
  repeat constructor; discriminate.
Defined.

(** ** Reads *)

(** X11: what [setCachedFindings] stores is what [getCachedFindings]
    answers for the same path as long as the file hashes to the same
    value and no more than [maxAge] milliseconds have passed; the read
    leaves the cache as it is. *)
Theorem set_then_get (c : ScanCache) (maxAge : Z) (filePath : jsstring)
    (findings : list Finding) (hash : jsstring) (now later : Z) :
  (later - now <= maxAge)%Z ->
  let c' := doSetCachedFindings c filePath findings hash now in
  getCachedFindings c' maxAge filePath later hash = (Some findings, c').
Proof.
  intros Hage c'. unfold getCachedFindings.
  pose proof (doSetCachedFindings_fields c filePath findings hash now) as (_ & Hrv & _).
  fold c' in Hrv. subst c'. unfold doSetCachedFindings in *.
  cbn [cache setCache ruleVersion] in *.
  rewrite mapGet_mapSet. destruct (decide (filePath = filePath)); [|congruence].
  cbn [Entry.ruleVersion Entry.timestamp Entry.hash Entry.findings].
  rewrite bool_decide_true by reflexivity. cbn [negb].
  replace (maxAge <? later - now)%Z with false by (symmetry; apply Z.ltb_ge; lia).
  rewrite bool_decide_true by reflexivity. reflexivity.
Qed.

Lemma set_then_get_witness :
  getCachedFindings
    (doSetCachedFindings smallCache (js "a.md") (oneFinding (js "a.md")) (js "h1") 1000)
    5000 (js "a.md") 6000 (js "h1") =
  (Some (oneFinding (js "a.md")),
   doSetCachedFindings smallCache (js "a.md") (oneFinding (js "a.md")) (js "h1") 1000).
Proof.
  apply (set_then_get smallCache 5000 (js "a.md") (oneFinding (js "a.md")) (js "h1") 1000 6000).
  lia.
Defined.

(** X12: the two ways a read ends.  A hit answers the findings of the
    entry stored under the path, whose rule version is the cache's,
    whose age is at most [maxAge] and whose hash is the current hash
    of the file, and changes nothing.  A miss leaves no entry under
    the path: an entry that is outdated, expired or whose hash differs
    from the file's is deleted, so the next read of the path misses
    whatever hash the file has then; entries under other paths stay. *)
Theorem getCachedFindings_hit_or_miss (c : ScanCache) (maxAge : Z) (filePath : jsstring)
    (now : Z) (currentHash : jsstring) :
  List.NoDup (keys (cache c)) ->
  let r := getCachedFindings c maxAge filePath now currentHash in
  match fst r with
  | Some findings =>
      snd r = c /\
      exists cached, mapGet (cache c) filePath = Some cached /\
        findings = Entry.findings cached /\
        Entry.ruleVersion cached = ruleVersion c /\
        (now - Entry.timestamp cached <= maxAge)%Z /\
        Entry.hash cached = currentHash
  | None =>
      mapGet (cache (snd r)) filePath = None /\
      (forall later hash, fst (getCachedFindings (snd r) maxAge filePath later hash) = None) /\
      (forall other, other <> filePath ->
         mapGet (cache (snd r)) other = mapGet (cache c) other)
  end.
Proof.
  intros Hnd r. subst r.
  assert (Heq : getCachedFindings c maxAge filePath now currentHash =
    match mapGet (cache c) filePath with
    | None => (None, c)
    | Some cached =>
        if negb (bool_decide (Entry.ruleVersion cached = ruleVersion c)) then
          (None, setCache c (mapDelete (cache c) filePath) true)
        else if (maxAge <? now - Entry.timestamp cached)%Z then
          (None, setCache c (mapDelete (cache c) filePath) true)
        else if negb (bool_decide (Entry.hash cached = currentHash)) then
          (None, setCache c (mapDelete (cache c) filePath) true)
        else (Some (Entry.findings cached), c)
    end) by reflexivity.
  rewrite Heq. clear Heq.
  assert (Hmiss : forall c', mapGet (cache c') filePath = None ->
            (forall other, other <> filePath -> mapGet (cache c') other = mapGet (cache c) other) ->
            mapGet (cache c') filePath = None /\
            (forall later hash, fst (getCachedFindings c' maxAge filePath later hash) = None) /\
            (forall other, other <> filePath -> mapGet (cache c') other = mapGet (cache c) other)).
  { intros c' Hnone Hother. split; [exact Hnone|]. split; [|exact Hother].
    intros later hash. unfold getCachedFindings. rewrite Hnone. reflexivity. }
  assert (Hdel : let c' := setCache c (mapDelete (cache c) filePath) true in
            mapGet (cache c') filePath = None /\
            (forall later hash, fst (getCachedFindings c' maxAge filePath later hash) = None) /\
            (forall other, other <> filePath -> mapGet (cache c') other = mapGet (cache c) other)).
  { apply Hmiss; cbn [cache setCache].
    - rewrite mapGet_mapDelete by exact Hnd. destruct (decide (filePath = filePath)); congruence.
    - intros other Hne. rewrite mapGet_mapDelete by exact Hnd.
      destruct (decide (filePath = other)); congruence. }
  destruct (mapGet (cache c) filePath) as [cached|] eqn:Hget; cbn [fst snd].
  2:{ apply Hmiss; auto. }
  destruct (bool_decide_reflect (Entry.ruleVersion cached = ruleVersion c)) as [Hrv|Hrv];
    cbn [negb fst snd]; [|exact Hdel].
  destruct (maxAge <? now - Entry.timestamp cached)%Z eqn:Hage; cbn [fst snd]; [exact Hdel|].
  destruct (bool_decide_reflect (Entry.hash cached = currentHash)) as [Hh|Hh];
    cbn [negb fst snd]; [|exact Hdel].
  split; [reflexivity|]. exists cached. apply Z.ltb_ge in Hage. auto.
Qed.

Lemma getCachedFindings_hit_or_miss_witness :
  fst (getCachedFindings loadedCache 1000 (js "b.md") 10 (js "changed")) = None /\
  mapGet (cache (snd (getCachedFindings loadedCache 1000 (js "b.md") 10 (js "changed"))))
    (js "b.md") = None.
Proof.
  assert (Hnd : List.NoDup (keys (cache loadedCache))).
  { vm_compute. repeat constructor; simpl; intuition discriminate. }
  pose proof (getCachedFindings_hit_or_miss loadedCache 1000 (js "b.md") 10 (js "changed") Hnd) as H.
  cbv zeta in H.
  assert (Hfst : fst (getCachedFindings loadedCache 1000 (js "b.md") 10 (js "changed")) = None)
    by (vm_compute; reflexivity).
  rewrite Hfst in H. split; [reflexivity | exact (proj1 H)].
Defined.

(** ** Loads *)

Lemma load_entries (c : ScanCache) (maxAge now : Z) (data : list (jsstring * CacheEntry))
    (m : list (jsstring * CacheEntry)) (P : jsstring -> CacheEntry -> Prop) :
  (forall path entry, mapGet m path = Some entry -> P path entry) ->
  (forall path entry, In (path, entry) data ->
     Entry.ruleVersion entry = ruleVersion c -> (now - Entry.timestamp entry < maxAge)%Z ->
     P path entry) ->
  forall path entry,
    mapGet (fold_left
              (fun m e =>
                 if bool_decide (Entry.ruleVersion (snd e) = ruleVersion c) &&
                    (now - Entry.timestamp (snd e) <? maxAge)%Z
                 then mapSet m (fst e) (snd e) else m) data m) path = Some entry ->
    P path entry.
Proof.
  revert m; induction data as [|[k v] data IH]; intros m Hm Hdata path entry; simpl; [apply Hm|].
  apply IH.
  - intros p e. destruct (bool_decide_reflect (Entry.ruleVersion v = ruleVersion c)) as [Hrv|Hrv];
      cbn [andb]; [|apply Hm].
    destruct (now - Entry.timestamp v <? maxAge)%Z eqn:Hage; [|apply Hm].
    rewrite mapGet_mapSet. destruct (decide (k = p)) as [<-|Hne]; [|apply Hm].
    intros [= <-]. apply Hdata; [left; reflexivity | exact Hrv | apply Z.ltb_lt, Hage].
  - intros p e Hin. apply Hdata. right. exact Hin.
Qed.

(** X13: a cache that has just been made and loaded holds only
    entries of the stored object whose rule version is the cache's and
    that are younger than [maxAge]; each of them is served by
    [getCachedFindings] at that moment when the file still hashes to
    the stored value.  A cache file that cannot be read or parsed
    gives an empty cache. *)
Theorem load_then_get (ruleVersion : jsstring) (maxEntries : Z) (maxSizeMB : Q)
    (maxAge now : Z) (data : list (jsstring * CacheEntry)) :
  let fresh := newScanCache ruleVersion maxEntries maxSizeMB in
  let c := load fresh maxAge (Entries data) now in
  (forall path entry, mapGet (cache c) path = Some entry ->
     In (path, entry) data /\
     Entry.ruleVersion entry = ruleVersion /\
     (now - Entry.timestamp entry < maxAge)%Z /\
     getCachedFindings c maxAge path now (Entry.hash entry) = (Some (Entry.findings entry), c)) /\
  cache (load fresh maxAge Unreadable now) = [].
Proof.
  intros fresh c. split; [|reflexivity].
  intros path entry Hget.
  assert (Hfacts : In (path, entry) data /\ Entry.ruleVersion entry = ruleVersion /\
                   (now - Entry.timestamp entry < maxAge)%Z).
  { revert path entry Hget. subst c. cbn [load cache setCache].
    apply (load_entries fresh maxAge now data (cache fresh)
             (fun path entry => In (path, entry) data /\ Entry.ruleVersion entry = ruleVersion /\
                                (now - Entry.timestamp entry < maxAge)%Z)).
    - intros p e. discriminate.
    - intros p e Hin Hrv Hage. auto. }
  destruct Hfacts as (Hin & Hrv & Hage). repeat split; auto.
  unfold getCachedFindings. rewrite Hget.
  replace (Cache.ruleVersion c) with ruleVersion by reflexivity.
  rewrite (bool_decide_true _ Hrv). cbn [negb].
  replace (maxAge <? now - Entry.timestamp entry)%Z with false by (symmetry; apply Z.ltb_ge; lia).
  rewrite bool_decide_true by reflexivity. reflexivity.
Qed.

End CacheReadProofs.

(* ===================================================================== *)
(** * Properties of the MCP client *)
(* ===================================================================== *)

Module McpClientProofs.
Import McpClient.

Section Retry.
Context {T : Type}.
Variable fn : nat -> Outcome T.
Variable random : nat -> Q.

Lemma delays_S baseDelayMs n :
  delays random baseDelayMs (S n) = delays random baseDelayMs n ++ [totalDelay random baseDelayMs n].
Proof. unfold delays. rewrite seq_S, map_app. reflexivity. Qed.

(** A run in which the calls [attempt], ..., [attempt + n - 1] fail
    with errors that are retried goes on with call [attempt + n]. *)
Lemma retryLoop_skip n turns attempt maxRetries baseDelayMs lastError slept :
  (forall j, attempt <= j < attempt + n ->
     exists e, fn j = Rejected e /\ isClientError e = false) ->
  (Z.of_nat (attempt + n) <= maxRetries)%Z ->
  n <= turns ->
  exists lastError',
    retryLoop fn random turns attempt maxRetries baseDelayMs lastError slept =
    retryLoop fn random (turns - n) (attempt + n) maxRetries baseDelayMs lastError'
      (slept ++ map (totalDelay random baseDelayMs) (seq attempt n)).
Proof.
  revert turns attempt lastError slept; induction n as [|n IH];
    intros turns attempt lastError slept Hfail Hmax Hturns.
  - exists lastError. simpl. rewrite Nat.sub_0_r, Nat.add_0_r, app_nil_r. reflexivity.
  - destruct turns as [|k]; [lia|]. simpl.
    destruct (Hfail attempt ltac:(lia)) as (e & -> & ->).
    replace (Z.of_nat attempt =? maxRetries)%Z with false
      by (symmetry; apply Z.eqb_neq; lia).
    destruct (IH k (S attempt) (Some e) (slept ++ [totalDelay random baseDelayMs attempt]))
      as (lastError' & ->).
    + intros j Hj. apply Hfail. lia.
    + lia.
    + lia.
    + exists lastError'. rewrite <- app_assoc. simpl.
      replace (attempt + S n) with (S (attempt + n)) by lia. reflexivity.
Qed.

(** The run stops at the first call that does not fail with an error
    that is retried. *)
Lemma retryWithBackoff_stop (k : nat) (maxRetries : Z) (baseDelayMs : Q) :
  (Z.of_nat k <= maxRetries)%Z ->
  (forall j, j < k -> exists e, fn j = Rejected e /\ isClientError e = false) ->
  (match fn k with
   | Resolved _ => True
   | Rejected e => isClientError e = true \/ Z.of_nat k = maxRetries
   end) ->
  retryWithBackoff fn random maxRetries baseDelayMs =
  {| result := fn k; calls := S k; sleeps := delays random baseDelayMs k |}.
Proof.
  intros Hk Hfail Hstop. unfold retryWithBackoff.
  destruct (retryLoop_skip k (Z.to_nat (maxRetries + 1)) 0 maxRetries baseDelayMs None [])
    as (lastError' & ->); [intros j Hj; apply Hfail; lia | simpl; lia | lia |].
  replace (Z.to_nat (maxRetries + 1) - k) with (S (Z.to_nat maxRetries - k)) by lia.
  simpl. destruct (fn k) as [v|e]; [reflexivity|].
  destruct (isClientError e); [reflexivity|].
  destruct Hstop as [|Hlast]; [discriminate|].
  replace (Z.of_nat k =? maxRetries)%Z with true by (symmetry; apply Z.eqb_eq; lia).
  reflexivity.
Qed.

Lemma totalDelay_bounds (baseDelayMs : Q) (attempt : nat) :
  (0 <= baseDelayMs)%Q -> (0 <= random attempt)%Q -> (random attempt <= 1)%Q ->
  (backoff baseDelayMs attempt <= totalDelay random baseDelayMs attempt)%Q /\
  (totalDelay random baseDelayMs attempt <= backoff baseDelayMs attempt * (13 # 10))%Q.
Proof.
  intros Hb Hr0 Hr1. unfold totalDelay.
  assert (Hd : (0 <= backoff baseDelayMs attempt)%Q).
  { unfold backoff. apply Qmult_le_0_compat; [exact Hb|].
    apply Qpower_0_le. discriminate. }
  set (d := backoff baseDelayMs attempt) in *. set (r := random attempt) in *.
  clearbody d r. split; nra.
Qed.

Lemma networkOr5xx_retried (e : Thrown) :
  isNetworkOr5xx e = true -> isClientError e = false.
Proof.
  destruct e as [[code|]|]; simpl; [|auto|discriminate].
  intros H. apply andb_true_iff in H as [H1 H2].
  apply Z.leb_le in H1. apply Z.ltb_lt in H2.
  replace (code =? -32601)%Z with false by (symmetry; apply Z.eqb_neq; lia).
  replace (code <? 500)%Z with false by (symmetry; apply Z.ltb_ge; lia).
  rewrite andb_false_r. reflexivity.
Qed.

Lemma clientError_rethrown (code : Z) :
  (code = -32601 \/ 400 <= code < 500)%Z ->
  isClientError (McpRpcError (Some code)) = true.
Proof.
  intros [->|[H1 H2]]; [reflexivity|]. simpl.
  replace (code =? 0)%Z with false by (symmetry; apply Z.eqb_neq; lia).
  replace (400 <=? code)%Z with true by (symmetry; apply Z.leb_le; lia).
  replace (code <? 500)%Z with true by (symmetry; apply Z.ltb_lt; lia).
  apply orb_true_r.
Qed.

(** The retry policy in terms of the code that the error of a failed
    request carries, whatever made the request fail in that way: [rpc]
    with [maxRetries] retries (3 when the option is absent) and base
    delay [retryDelayMs] (1000 when absent).
    - A request that fails with code -32601 or with a code from 400 to
      499 is the last one: after [k] failures that were retried, the
      run ends with that error after [k + 1] requests, so with exactly
      one request when the first one fails in this way.
    - When every request fails with a network error or a code from
      500 to 599, the run makes [maxRetries + 1] requests and ends with
      the last error.
    - The wait after the failure of request [attempt] is
      [base * 2^attempt] plus a jitter of [Math.random() * 0.3] times
      that, between 0 and 30 percent of it. *)
Theorem rpc_retry_policy (maxRetries : option Z) (retryDelayMs : option Q) :
  let limit := default 3%Z maxRetries in
  let base := default 1000%Q retryDelayMs in
  (forall (k : nat) (code : Z),
     (code = -32601 \/ 400 <= code < 500)%Z ->
     (Z.of_nat k <= limit)%Z ->
     (forall j, j < k -> exists e, fn j = Rejected e /\ isNetworkOr5xx e = true) ->
     fn k = Rejected (McpRpcError (Some code)) ->
     rpc fn random maxRetries retryDelayMs =
     {| result := Rejected (McpRpcError (Some code)); calls := S k;
        sleeps := delays random base k |}) /\
  ((0 <= limit)%Z ->
   (forall j, (Z.of_nat j <= limit)%Z ->
      exists e, fn j = Rejected e /\ isNetworkOr5xx e = true) ->
   rpc fn random maxRetries retryDelayMs =
   {| result := fn (Z.to_nat limit); calls := S (Z.to_nat limit);
      sleeps := delays random base (Z.to_nat limit) |}) /\
  (forall attempt : nat,
     totalDelay random base attempt =
       (backoff base attempt + random attempt * (3 # 10) * backoff base attempt)%Q /\
     backoff base attempt = (base * 2 ^ Z.of_nat attempt)%Q /\
     ((0 <= base)%Q -> (0 <= random attempt)%Q -> (random attempt <= 1)%Q ->
      (backoff base attempt <= totalDelay random base attempt)%Q /\
      (totalDelay random base attempt <= backoff base attempt * (13 # 10))%Q)).
Proof.
  intros limit base. unfold rpc. fold limit base. split; [|split].
  - intros k code Hcode Hk Hfail Hfn. rewrite <- Hfn.
    apply retryWithBackoff_stop; [exact Hk | |].
    + intros j Hj. destruct (Hfail j Hj) as (e & He & Hr).
      exists e. split; [exact He | apply networkOr5xx_retried, Hr].
    + rewrite Hfn. left. apply clientError_rethrown, Hcode.
  - intros Hlimit Hfail. apply retryWithBackoff_stop; [lia | |].
    + intros j Hj. destruct (Hfail j ltac:(lia)) as (e & He & Hr).
      exists e. split; [exact He | apply networkOr5xx_retried, Hr].
    + destruct (Hfail (Z.to_nat limit) ltac:(lia)) as (e & -> & _). right. lia.
  - intros attempt. split; [reflexivity|]. split; [reflexivity|].
    apply totalDelay_bounds.
Qed.

End Retry.

Lemma rpc_retry_policy_witness :
  calls (rpc notFoundSecond (fun _ => 1 # 2) None None) = 2 /\
  calls (rpc alwaysDown (fun _ => 1 # 2) None None) = 4 /\
  map Qred (sleeps (rpc alwaysDown (fun _ => 1 # 2) None None)) = [1150%Q; 2300%Q; 4600%Q] /\
  (backoff 1000 0 <= totalDelay (fun _ => 1 # 2) 1000 0 <= backoff 1000 0 * (13 # 10))%Q.
Proof.
  pose proof (rpc_retry_policy notFoundSecond (fun _ => 1 # 2) None None) as (H1 & _ & _).
  pose proof (rpc_retry_policy alwaysDown (fun _ => 1 # 2) None None) as (_ & H2 & H3).
  cbn zeta in H1, H2, H3. split; [|split; [|split]].
  - rewrite (H1 1 404%Z); [reflexivity | right; lia | simpl; lia | | reflexivity].
    intros j Hj. exists (McpRpcError None). assert (j = 0) as -> by lia. auto.
  - rewrite H2; [reflexivity | simpl; lia |].
    intros j _. exists (McpRpcError None). auto.
  - rewrite H2; [vm_compute; reflexivity | simpl; lia |].
    intros j _. exists (McpRpcError None). auto.
  - destruct (H3 0) as (_ & _ & Hb).
    destruct Hb as [Hlo Hhi]; [discriminate | discriminate | discriminate |].
    split; [exact Hlo | exact Hhi].
Defined.

End McpClientProofs.

(* ===================================================================== *)
(** * Runs of [retryWithBackoff] *)
(* ===================================================================== *)

Module McpRunProofs.
Import McpClient.

Section Retry.
Context {T : Type}.
Variable fn : nat -> Outcome T.
Variable random : nat -> Q.

(** X14: [retryWithBackoff] answers with the first success: when the
    calls before call [k] fail with errors that are retried, call [k]
    resolves and [k <= maxRetries], the run resolves with that value
    after [k + 1] calls and [k] waits, the wait after call [i] being
    [baseDelayMs * 2^i] with its jitter. *)
Theorem retryWithBackoff_first_success (k : nat) (value : T) (maxRetries : Z) (baseDelayMs : Q) :
  (Z.of_nat k <= maxRetries)%Z ->
  (forall j, j < k -> exists e, fn j = Rejected e /\ isClientError e = false) ->
  fn k = Resolved value ->
  retryWithBackoff fn random maxRetries baseDelayMs =
  {| result := Resolved value; calls := S k; sleeps := delays random baseDelayMs k |}.
Proof.
  intros Hk Hfail Hok.
  rewrite (McpClientProofs.retryWithBackoff_stop fn random k maxRetries baseDelayMs Hk Hfail).
  - rewrite Hok. reflexivity.
  - rewrite Hok. exact I.
Qed.

(** What a run of the loop leaves, whatever [fn] does, when the
    turns left are those of the [for] statement. *)
Lemma retryLoop_shape turns attempt maxRetries baseDelayMs lastError slept :
  0 < turns -> Z.of_nat (attempt + turns) = (maxRetries + 1)%Z ->
  let r := retryLoop fn random turns attempt maxRetries baseDelayMs lastError slept in
  attempt < calls r <= attempt + turns /\
  sleeps r = slept ++ map (totalDelay random baseDelayMs) (seq attempt (pred (calls r) - attempt)) /\
  result r = fn (pred (calls r)).
Proof.
  revert attempt lastError slept; induction turns as [|k IH];
    intros attempt lastError slept Hpos Hinv; [lia|]. cbn zeta.
  cbn [retryLoop].
  assert (Hstop : forall res,
    res = fn attempt ->
    let r := {| result := res; calls := S attempt; sleeps := slept |} in
    attempt < calls r <= attempt + S k /\
    sleeps r = slept ++ map (totalDelay random baseDelayMs) (seq attempt (pred (calls r) - attempt)) /\
    result r = fn (pred (calls r))).
  { intros res -> r. subst r. cbn [calls sleeps result pred].
    rewrite Nat.sub_diag. cbn [seq map]. rewrite app_nil_r. repeat split; lia. }
  destruct (fn attempt) as [v|e] eqn:Hfn; [apply Hstop; reflexivity|].
  destruct (isClientError e); [apply Hstop; reflexivity|].
  destruct (Z.of_nat attempt =? maxRetries)%Z eqn:Hlast; [apply Hstop; reflexivity|].
  apply Z.eqb_neq in Hlast.
  specialize (IH (S attempt) (Some e) (slept ++ [totalDelay random baseDelayMs attempt])
                ltac:(lia) ltac:(lia)).
  cbn zeta in IH. destruct IH as (Hc & Hs & Hr).
  set (r := retryLoop fn random k (S attempt) maxRetries baseDelayMs (Some e) _) in *.
  repeat split; try lia; [|exact Hr].
  rewrite Hs, <- app_assoc. f_equal.
  replace (pred (calls r) - attempt) with (S (pred (calls r) - S attempt)) by lia.
  reflexivity.
Qed.

(** X15: whatever the calls of [fn] do, a run of [retryWithBackoff]
    with [maxRetries >= 0] makes at least one call and at most
    [maxRetries + 1], settles as its last call did, and waits once
    between two calls that follow each other, with the delays of the
    attempts in order.  With [maxRetries < 0] it makes no call and
    rejects with [Error("Retry failed")]. *)
Theorem retryWithBackoff_run (maxRetries : Z) (baseDelayMs : Q) :
  let r := retryWithBackoff fn random maxRetries baseDelayMs in
  if (0 <=? maxRetries)%Z then
    0 < calls r <= Z.to_nat (maxRetries + 1) /\
    sleeps r = delays random baseDelayMs (pred (calls r)) /\
    result r = fn (pred (calls r))
  else r = {| result := Rejected Error; calls := 0; sleeps := [] |}.
Proof.
  cbn zeta. unfold retryWithBackoff. destruct (0 <=? maxRetries)%Z eqn:Hmax.
  - apply Z.leb_le in Hmax.
    pose proof (retryLoop_shape (Z.to_nat (maxRetries + 1)) 0 maxRetries baseDelayMs None []
                  ltac:(lia) ltac:(lia)) as (Hc & Hs & Hr).
    cbn zeta in *. repeat split; try lia; [|exact Hr].
    rewrite Hs, Nat.sub_0_r. reflexivity.
  - apply Z.leb_gt in Hmax.
    replace (Z.to_nat (maxRetries + 1)) with 0 by lia. reflexivity.
Qed.

End Retry.

Lemma retryWithBackoff_first_success_witness :
  let r := retryWithBackoff thirdTime (fun _ => 0%Q) 3 1000 in
  result r = Resolved 7 /\ calls r = 3 /\ map Qred (sleeps r) = [1000%Q; 2000%Q].
Proof.
  cbn zeta.
  rewrite (retryWithBackoff_first_success thirdTime (fun _ => 0%Q) 2 7 3 1000).
  - repeat split; vm_compute; reflexivity.
  - lia.
  - intros j Hj. exists (McpRpcError (Some 503%Z)).
    destruct j as [|[|j]]; [split; reflexivity | split; reflexivity | lia].
  - reflexivity.
Defined.

End McpRunProofs.

(* ===================================================================== *)
(** * Properties of the resource reader *)
(* ===================================================================== *)

Module McpCollectProofs.
Import McpCollect.

Lemma utf8ByteLength_eacute (n : nat) :
  utf8ByteLength (replicate n eacute) = 2 * n.
Proof. induction n as [|n IH]; [reflexivity|]. simpl replicate. simpl utf8ByteLength. rewrite IH. lia. Qed.

(** A text of [n > 0] letters ["é"] is stored whole as soon as the
    limit is at least [n], although its encoding has [2 * n] bytes. *)
Lemma storedContent_eacute (n : nat) (maxResourceBytes : option Z) :
  0 < n ->
  (Z.of_nat n <= default 1048576 maxResourceBytes)%Z ->
  storedContent (Some [TextItem (replicate n eacute)]) maxResourceBytes =
    Some (replicate n eacute) /\
  utf8ByteLength (replicate n eacute) = 2 * n.
Proof.
  intros Hn Hmax. split; [|apply utf8ByteLength_eacute].
  unfold storedContent, pickTextContent. simpl textParts. cbn [length Nat.eqb join].
  rewrite utf8ByteLength_eacute.
  assert (Hwhole : slice (replicate n eacute) 0
            (Z.to_nat (Z.max 0 (default 1048576%Z maxResourceBytes))) = replicate n eacute).
  { unfold slice. rewrite drop_0. apply take_ge. rewrite length_replicate. lia. }
  destruct (_ <? _)%Z; [rewrite Hwhole|]; destruct n; try lia; reflexivity.
Qed.

(** C8: a [resources/read] answer whose [contents] hold the two texts
    ["é"] and ["é"], read with [maxResourceBytes = 4].  The collected
    text is ["é\né"], three code units and 5 bytes in UTF-8, above the
    limit; the stored content is that text, whole, and its encoding has
    5 bytes.  The same holds under the default limit 1,048,576 for a
    text of 600,000 letters ["é"]: it is stored whole and occupies
    1,200,000 bytes. *)
Theorem storedContent_over_limit :
  (let contents := Some [TextItem [eacute]; TextItem [eacute]] in
   storedContent contents (Some 4%Z) = Some [eacute; 10%N; eacute] /\
   utf8ByteLength [eacute; 10%N; eacute] = 5) /\
  (let n := Z.to_nat 600000 in
   storedContent (Some [TextItem (replicate n eacute)]) None = Some (replicate n eacute) /\
   Z.of_nat (utf8ByteLength (replicate n eacute)) = 1200000%Z).
Proof.
  split; [split; vm_compute; reflexivity|].
  intros n. destruct (storedContent_eacute n None) as [Hs Hl]; [subst n; lia | subst n; simpl; lia |].
  split; [exact Hs|]. rewrite Hl. subst n. lia.
Qed.

End McpCollectProofs.

(* ===================================================================== *)
(** * Listing with cursors and the size of resource texts *)
(* ===================================================================== *)

Module McpListProofs.
Import McpClient McpCollect.

Section ListAll.
Context {T : Type}.
Variable request : nat -> option jsstring -> Outcome (Raw T).

Lemma truthy_idem (s : option jsstring) : truthy (truthy s) = truthy s.
Proof. destruct s as [[|c rest]|]; reflexivity. Qed.

Lemma Chain_truthy n cursor pages n' cursor' :
  Chain request n cursor pages n' cursor' -> truthy cursor' = truthy cursor \/ pages <> [].
Proof. induction 1; [left; reflexivity | right; discriminate]. Qed.

(** The loop goes through a chain of pages as long as no more than
    20000 items have been gathered. *)
Lemma listAllLoop_chain n cursor pages n' cursor' (out : list T) (turns : nat) :
  Chain request n cursor pages n' cursor' ->
  (Z.of_nat (length (out ++ listed pages)) <= 20000)%Z ->
  listAllLoop request (length pages + turns) n out cursor =
  listAllLoop request turns n' (out ++ listed pages) cursor'.
Proof.
  intros Hchain. revert out. induction Hchain as [|n cursor raw next pages n' cursor' Hreq Hnext _ IH];
    intros out Hcap.
  - unfold listed. simpl. rewrite app_nil_r. reflexivity.
  - unfold listed in *. cbn [fmap list_fmap concat length Nat.add listAllLoop] in *.
    rewrite Hreq. cbn [nextCursor normalizeListResult]. rewrite Hnext.
    rewrite app_assoc in Hcap. rewrite length_app in Hcap.
    replace (20000 <? _)%Z with false by (symmetry; apply Z.ltb_ge; lia).
    rewrite IH by (rewrite length_app; lia). rewrite <- app_assoc. reflexivity.
Qed.

(** X16: [listAll] gathers the pages of a server in order.  When the
    requests are answered by pages that each name the cursor of the
    next request, up to a page without cursor (or with the empty
    string as cursor), and the pages hold no more than 20000 items in
    all, [listAll] resolves with the items of all these pages, one
    page after the other, after one request per page. *)
Theorem listAll_all_pages (pages : list (Raw T)) (n : nat) (cursor' : option jsstring)
    (last : Raw T) :
  Chain request 0 None pages n cursor' ->
  request n (truthy cursor') = Resolved last ->
  truthy (cursor last) = None ->
  (Z.of_nat (length (listed (pages ++ [last]))) <= 20000)%Z ->
  listAll request (length pages + 1) = Some (Resolved (listed (pages ++ [last]))).
Proof.
  intros Hchain Hreq Hend Hcap. unfold listAll.
  assert (Hsplit : listed (pages ++ [last]) = listed pages ++ items (normalizeListResult last)).
  { unfold listed. rewrite fmap_app, concat_app. simpl. rewrite app_nil_r. reflexivity. }
  rewrite Hsplit in *. rewrite length_app in Hcap.
  rewrite (listAllLoop_chain 0 None pages n cursor' [] 1 Hchain) by (simpl; lia).
  cbn [listAllLoop app]. rewrite Hreq. cbn [nextCursor normalizeListResult]. rewrite Hend.
  reflexivity.
Qed.

(** X17: a request that fails ends the listing, and what the pages
    before it gave is lost: after any number of pages, a failure with
    the code -32601 makes [listAll] resolve with the empty list, and
    any other failure makes it reject with that error. *)
Theorem listAll_failure (pages : list (Raw T)) (n : nat) (cursor' : option jsstring)
    (err : Thrown) :
  Chain request 0 None pages n cursor' ->
  request n (truthy cursor') = Rejected err ->
  (Z.of_nat (length (listed pages)) <= 20000)%Z ->
  listAll request (length pages + 1) =
  Some (if isMethodNotFound err then Resolved [] else Rejected err).
Proof.
  intros Hchain Hreq Hcap. unfold listAll.
  rewrite (listAllLoop_chain 0 None pages n cursor' [] 1 Hchain) by (simpl; lia).
  cbn [listAllLoop app]. rewrite Hreq. destruct (isMethodNotFound err); reflexivity.
Qed.

(** The loop with pages that are never empty: the turns left and the
    items gathered add up to more than 20000. *)
Lemma listAllLoop_ends (m turns n : nat) (out : list T) (cursor : option jsstring) :
  (forall k c raw, request k c = Resolved raw ->
     1 <= length (items (normalizeListResult raw)) <= m) ->
  (20000 < Z.of_nat (length out + turns))%Z ->
  (Z.of_nat (length out) <= 20000)%Z ->
  exists res, listAllLoop request turns n out cursor = Some res /\
    forall l, res = Resolved l -> (Z.of_nat (length l) <= 20000 + Z.of_nat m)%Z.
Proof.
  intros Hpages. revert n out cursor. induction turns as [|k IH]; intros n out cursor Hfuel Hout.
  - rewrite Nat.add_0_r in Hfuel. lia.
  - cbn [listAllLoop]. destruct (request n (truthy cursor)) as [raw|err] eqn:Hreq.
    + specialize (Hpages _ _ _ Hreq). cbn [items normalizeListResult nextCursor] in *.
      assert (Hlen : length (out ++ default [] (array raw)) =
                     length out + length (default [] (array raw)))
        by apply length_app.
      destruct (truthy (McpCollect.cursor raw)) as [next|].
      * destruct (20000 <? _)%Z eqn:Hcap.
        -- eexists. split; [reflexivity|]. intros l [= <-]. lia.
        -- apply Z.ltb_ge in Hcap. apply IH; lia.
      * eexists. split; [reflexivity|]. intros l [= <-]. lia.
    + destruct (isMethodNotFound err); eexists; (split; [reflexivity|]);
        intros l Hl; [injection Hl as <-; simpl; lia | discriminate].
Qed.

(** X18: when no page that the server answers is empty and none holds
    more than [m] items, [listAll] is over within 20001 requests and
    the list it resolves with holds at most [20000 + m] items: the
    listing stops at the first page that takes it past 20000. *)
Theorem listAll_bounded (m : nat) :
  (forall k c raw, request k c = Resolved raw ->
     1 <= length (items (normalizeListResult raw)) <= m) ->
  exists res, listAll request (Z.to_nat 20001) = Some res /\
    forall l, res = Resolved l -> (Z.of_nat (length l) <= 20000 + Z.of_nat m)%Z.
Proof.
  intros Hpages. unfold listAll. apply (listAllLoop_ends m); [exact Hpages | |]; simpl length; lia.
Qed.

(** X19: the limit of 20000 counts items, not requests: against a
    server that answers every request with an empty page and a cursor
    the loop of [listAll] is still running after any number of turns. *)
Theorem listAll_endless (turns : nat) :
  (forall k c, exists next,
     request k c = Resolved {| array := Some []; cursor := Some next |} /\ next <> []) ->
  listAll request turns = None.
Proof.
  intros Hempty. unfold listAll. generalize 0 at 1. generalize (@None jsstring).
  induction turns as [|k IH]; intros c n; [reflexivity|].
  cbn [listAllLoop]. destruct (Hempty n (truthy c)) as (next & -> & Hnext).
  cbn [normalizeListResult items nextCursor array cursor default app length].
  destruct next as [|ch rest]; [congruence|]. cbn [truthy]. simpl (20000 <? _)%Z. apply IH.
Qed.

End ListAll.

Lemma listAll_all_pages_witness :
  listAll twoPages 2 = Some (Resolved [1; 2; 3]).
Proof.
  apply (listAll_all_pages twoPages
           [{| array := Some [1; 2]; cursor := Some (js "p2") |}] 1 (Some (js "p2"))
           {| array := Some [3]; cursor := None |}).
  - eapply chain_cons; [reflexivity | reflexivity | apply chain_nil].
  - reflexivity.
  - reflexivity.
  - vm_compute. discriminate.
Defined.

Lemma listAll_failure_witness :
  listAll lostMethod 2 = Some (Resolved []).
Proof.
  apply (listAll_failure lostMethod
           [{| array := Some [1; 2]; cursor := Some (js "p2") |}] 1 (Some (js "p2"))
           (McpRpcError (Some (-32601)%Z))).
  - eapply chain_cons; [reflexivity | reflexivity | apply chain_nil].
  - reflexivity.
  - vm_compute. discriminate.
Defined.

Lemma listAll_bounded_witness :
  exists res, listAll twoPages (Z.to_nat 20001) = Some res /\
    forall l, res = Resolved l -> (Z.of_nat (length l) <= 20000 + Z.of_nat 2)%Z.
Proof.
  apply (listAll_bounded twoPages 2).
  intros k [c|] raw [= <-]; simpl; lia.
Defined.

Lemma listAll_endless_witness : listAll emptyPages 50 = None.
Proof.
  apply (listAll_endless emptyPages 50).
  intros k c. exists (js "next"). split; [reflexivity | discriminate].
Defined.

End McpListProofs.

Module McpTextProofs.
Import McpClient McpCollect.

(** A code unit takes one to three bytes, and a surrogate pair four. *)
Lemma utf8ByteLength_bounds (s : jsstring) :
  length s <= utf8ByteLength s <= 3 * length s.
Proof.
  remember (length s) as n eqn:Hn. revert s Hn.
  induction n as [n IH] using lt_wf_ind. intros s Hn.
  destruct s as [|c rest]; [simpl in *; lia|].
  cbn [utf8ByteLength]. simpl in Hn.
  pose proof (IH (length rest) ltac:(lia) rest eq_refl) as Hrest.
  destruct (c <? 128)%N; [lia|]. destruct (c <? 2048)%N; [lia|].
  destruct ((55296 <=? c)%N && (c <? 56320)%N); [|lia].
  destruct rest as [|d rest']; [simpl in *; lia|].
  destruct ((56320 <=? d)%N && (d <? 57344)%N); [|lia].
  simpl in Hn, Hrest |- *.
  pose proof (IH (length rest') ltac:(lia) rest' eq_refl). lia.
Qed.

Lemma utf8ByteLength_ascii (s : jsstring) :
  Forall (fun c => (c < 128)%N) s -> utf8ByteLength s = length s.
Proof.
  induction 1 as [|c rest Hc _ IH]; [reflexivity|]. cbn [utf8ByteLength].
  replace (c <? 128)%N with true by (symmetry; apply N.ltb_lt, Hc). simpl. lia.
Qed.

(** What [pickTextContent] returns is cut from the joined text and
    holds no more code units than the limit. *)
Lemma pickTextContent_units (contents : option (list Item)) (maxBytes : Z) (text : jsstring) :
  (0 <= maxBytes)%Z ->
  pickTextContent contents maxBytes = Some text ->
  text `prefix_of` join [10%N] (textParts (default [] contents)) /\
  (Z.of_nat (length text) <= maxBytes)%Z.
Proof.
  intros Hmax. unfold pickTextContent.
  destruct (length (textParts (default [] contents)) =? 0); [discriminate|].
  set (joined := join [10%N] (textParts (default [] contents))).
  destruct (maxBytes <? Z.of_nat (utf8ByteLength joined))%Z eqn:Hover; intros [= <-].
  - unfold slice. rewrite drop_0, length_take. split; [apply prefix_take | lia].
  - apply Z.ltb_ge in Hover. pose proof (utf8ByteLength_bounds joined).
    split; [reflexivity | lia].
Qed.

(** X20: the size of what [pickTextContent] returns under a limit
    [maxBytes >= 0]: the text is a prefix of the text parts joined by
    line feeds, it holds at most [maxBytes] UTF-16 code units, hence at
    most [3 * maxBytes] bytes of UTF-8, and at most [maxBytes] bytes
    when every code unit of it is below U+0080. *)
Theorem pickTextContent_size (contents : option (list Item)) (maxBytes : Z) (text : jsstring) :
  (0 <= maxBytes)%Z ->
  pickTextContent contents maxBytes = Some text ->
  text `prefix_of` join [10%N] (textParts (default [] contents)) /\
  (Z.of_nat (length text) <= maxBytes)%Z /\
  (Z.of_nat (utf8ByteLength text) <= 3 * maxBytes)%Z /\
  (Forall (fun c => (c < 128)%N) text -> (Z.of_nat (utf8ByteLength text) <= maxBytes)%Z).
Proof.
  intros Hmax Hpick.
  destruct (pickTextContent_units contents maxBytes text Hmax Hpick) as [Hprefix Hlen].
  pose proof (utf8ByteLength_bounds text). repeat split; auto; [lia|].
  intros Hascii. rewrite utf8ByteLength_ascii by exact Hascii. exact Hlen.
Qed.

Lemma pickTextContent_size_witness :
  pickTextContent (Some [TextItem (js "hello"); OtherItem; TextItem (js "world")]) 8 =
    Some (js "hello" ++ [10%N] ++ js "wo") /\
  (Z.of_nat (utf8ByteLength (js "hello" ++ [10%N] ++ js "wo")) <= 8)%Z.
Proof.
  assert (Hpick : pickTextContent (Some [TextItem (js "hello"); OtherItem; TextItem (js "world")]) 8 =
                  Some (js "hello" ++ [10%N] ++ js "wo")) by (vm_compute; reflexivity).
  split; [exact Hpick|].
  destruct (pickTextContent_size _ 8 _ ltac:(lia) Hpick) as (_ & _ & _ & Hascii).
  apply Hascii. repeat constructor.
Defined.

Section ReadResources.
Variable toLowerCase : jsstring -> jsstring.
Variable read : nat -> jsstring -> Outcome (option (list Item)).

Local Abbreviation mimeRefused := (mimeRefused toLowerCase).
Local Abbreviation readLoop := (readLoop toLowerCase read).
Local Abbreviation wanted := (wanted toLowerCase).

Lemma setKey_entries obj k v e : e ∈ setKey obj k v -> e = (k, v) \/ e ∈ obj.
Proof.
  induction obj as [|[k' v'] rest IH]; simpl.
  - intros H. apply list_elem_of_singleton in H. auto.
  - destruct (decide (k' = k)) as [->|Hne]; rewrite !elem_of_cons; [tauto|].
    intros [H|H]; [tauto|]. apply IH in H. tauto.
Qed.

(** What the loop adds to the requests and to the contents. *)
Lemma readLoop_adds (allowed : list jsstring) (maxResourceBytes : option Z)
    (resources : list McpResource) (st : ReadState) :
  let st' := readLoop allowed maxResourceBytes resources st in
  exists more,
    asked st' = asked st ++ more /\
    more `prefix_of` wanted allowed resources /\
    (forall i u err, more !! i = Some u ->
       read (length (asked st) + i) u = Rejected err -> isMethodNotFound err = true ->
       length more = S i) /\
    (forall k m text, (k, (m, text)) ∈ resourceContents st' ->
       (k, (m, text)) ∈ resourceContents st \/
       exists i contents, more !! i = Some k /\
         read (length (asked st) + i) k = Resolved contents /\
         storedContent contents maxResourceBytes = Some text).
Proof.
  revert st; induction resources as [|resource rest IH]; intros st; cbn zeta.
  - exists []. rewrite app_nil_r. repeat split; auto.
    intros i u err Hi. discriminate.
  - cbn [McpCollect.readLoop]. unfold wanted. cbn [omap list_omap].
    destruct (truthy (uri resource)) as [u|] eqn:Hu.
    2:{ destruct (mimeRefused allowed resource); apply IH. }
    destruct (mimeRefused allowed resource) eqn:Href; [apply IH|].
    fold (wanted allowed rest).
    set (st1 := {| asked := asked st ++ [u]; resourceContents := resourceContents st |}).
    assert (Hgo : forall st2,
      asked st2 = asked st ++ [u] ->
      (forall k m text, (k, (m, text)) ∈ resourceContents st2 ->
         (k, (m, text)) ∈ resourceContents st \/
         exists contents, k = u /\ read (length (asked st)) u = Resolved contents /\
           storedContent contents maxResourceBytes = Some text) ->
      (forall err, read (length (asked st)) u = Rejected err -> isMethodNotFound err = false) ->
      let st' := readLoop allowed maxResourceBytes rest st2 in
      exists more,
        asked st' = asked st ++ more /\
        more `prefix_of` u :: wanted allowed rest /\
        (forall i u0 err, more !! i = Some u0 ->
           read (length (asked st) + i) u0 = Rejected err -> isMethodNotFound err = true ->
           length more = S i) /\
        (forall k m text, (k, (m, text)) ∈ resourceContents st' ->
           (k, (m, text)) ∈ resourceContents st \/
           exists i contents, more !! i = Some k /\
             read (length (asked st) + i) k = Resolved contents /\
             storedContent contents maxResourceBytes = Some text)).
    { intros st2 Hasked Hcontents Hfirst. cbn zeta.
      destruct (IH st2) as (more & Ha & Hp & Hlast & Hc).
      assert (Hlen : length (asked st2) = S (length (asked st)))
        by (rewrite Hasked, length_app; simpl; lia).
      exists (u :: more). repeat split.
      - rewrite Ha, Hasked, <- app_assoc. reflexivity.
      - apply prefix_cons, Hp.
      - intros [|i] u0 err Hi Hrej Hnf; cbn [lookup list_lookup] in Hi.
        + injection Hi as <-. rewrite Nat.add_0_r in Hrej.
          rewrite (Hfirst err Hrej) in Hnf. discriminate.
        + simpl. f_equal. apply (Hlast i u0 err Hi); [|exact Hnf].
          rewrite Hlen. replace (S (length (asked st)) + i) with (length (asked st) + S i) by lia.
          exact Hrej.
      - intros k m text Hin. apply Hc in Hin as [Hin|(i & contents & Hi & Hread & Hstored)].
        + apply Hcontents in Hin as [Hin|(contents & -> & Hread & Hstored)]; [auto|].
          right. exists 0, contents. rewrite Nat.add_0_r. auto.
        + right. exists (S i), contents. repeat split; auto.
          rewrite Hlen in Hread.
          replace (length (asked st) + S i) with (S (length (asked st)) + i) by lia.
          exact Hread. }
    destruct (read (length (asked st)) u) as [contents|err] eqn:Hread.
    + destruct (storedContent contents maxResourceBytes) as [text|] eqn:Hstored.
      * apply Hgo; [reflexivity | | discriminate].
        cbn [resourceContents asked st1]. intros k m t Hin.
        apply setKey_entries in Hin as [[= -> -> ->]|Hin]; [|auto].
        right. exists contents. auto.
      * apply Hgo; [reflexivity | auto | discriminate].
    + destruct (isMethodNotFound err) eqn:Hnf.
      * exists [u]. repeat split.
        -- apply prefix_cons, prefix_nil.
        -- intros [|i] u0 err0 Hi; [reflexivity | discriminate].
        -- cbn [resourceContents st1]. auto.
      * apply Hgo; [reflexivity | auto |]. intros err0 [= <-]. exact Hnf.
Qed.

(** X21: which resources [collectFromServer] reads.  The URIs it asks
    for, in order, are a prefix of the URIs of the listed resources
    that have a URI and whose MIME type is not refused (a MIME type is
    refused when the allow list is not empty and the type, in lower
    case, is not empty and not on the list); a request that fails with
    -32601 is the last one; and every text it stores was answered by a
    request for that URI, is not empty and holds at most
    [maxResourceBytes] code units (1048576 when the option is
    absent). *)
Theorem readResources_reads (allowedMimeTypes : option (list jsstring))
    (maxResourceBytes : option Z) (resources : list McpResource) :
  (0 <= default 1048576 maxResourceBytes)%Z ->
  let st := readResources toLowerCase read allowedMimeTypes maxResourceBytes resources in
  asked st `prefix_of` wanted (allowedMime toLowerCase allowedMimeTypes) resources /\
  (forall i u err, asked st !! i = Some u -> read i u = Rejected err ->
     isMethodNotFound err = true -> length (asked st) = S i) /\
  (forall k m text, (k, (m, text)) ∈ resourceContents st ->
     text <> [] /\ (Z.of_nat (length text) <= default 1048576 maxResourceBytes)%Z /\
     exists i contents, asked st !! i = Some k /\ read i k = Resolved contents /\
       storedContent contents maxResourceBytes = Some text).
Proof.
  intros Hmax st. subst st. unfold readResources.
  destruct (readLoop_adds (allowedMime toLowerCase allowedMimeTypes) maxResourceBytes resources
              {| asked := []; resourceContents := [] |}) as (more & Ha & Hp & Hlast & Hc).
  cbn [asked resourceContents app length Nat.add] in *. rewrite Ha.
  split; [exact Hp|]. split; [exact Hlast|].
  intros k m text Hin. apply Hc in Hin as [Hin|(i & contents & Hi & Hread & Hstored)];
    [inversion Hin|].
  assert (Hpick : pickTextContent contents (default 1048576%Z maxResourceBytes) = Some text /\
                  text <> []).
  { unfold storedContent in Hstored.
    destruct (pickTextContent contents _) as [[|c t]|]; try discriminate.
    injection Hstored as <-. split; [reflexivity | discriminate]. }
  destruct Hpick as [Hpick Hne].
  destruct (pickTextContent_units contents _ text Hmax Hpick) as (_ & Hlen).
  repeat split; auto. exists i, contents. auto.
Qed.

End ReadResources.

Lemma readResources_reads_witness :
  asked (readResources (fun s => s) (fun _ _ => Resolved (Some [TextItem (js "hi")]))
           (Some [js "text/markdown"]) None someResources) = [js "file:///b.md"] /\
  asked (readResources (fun s => s) (fun _ _ => Resolved (Some [TextItem (js "hi")]))
           (Some [js "text/markdown"]) None someResources)
    `prefix_of` wanted (fun s => s) (allowedMime (fun s => s) (Some [js "text/markdown"]))
                  someResources.
Proof.
  split; [vm_compute; reflexivity|].
  apply (readResources_reads (fun s => s) (fun _ _ => Resolved (Some [TextItem (js "hi")]))
           (Some [js "text/markdown"]) None someResources).
  simpl. lia.
Defined.

End McpTextProofs.

(* ===================================================================== *)
(** * Properties of the virtual paths *)
(* ===================================================================== *)

Module VirtualizeProofs.
Import Virtualize.

Lemma replaceRuns_safe (value : jsstring) (inRun : bool) :
  Forall (fun c => isSafeChar c = true) (replaceRuns value inRun).
Proof.
  revert inRun; induction value as [|c rest IH]; intros inRun; simpl; [constructor|].
  destruct (isSafeChar c) eqn:Hc; [constructor; auto|].
  destruct inRun; [apply IH|]. constructor; [reflexivity | apply IH].
Qed.

Lemma replaceRuns_id (value : jsstring) (inRun : bool) :
  Forall (fun c => isSafeChar c = true) value -> replaceRuns value inRun = value.
Proof.
  intros Hsafe. revert inRun. induction Hsafe as [|c rest Hc _ IH]; intros inRun; simpl;
    [reflexivity|].
  rewrite Hc, IH. reflexivity.
Qed.

(** X28: a segment made by [safeSegment] holds letters, digits,
    [.], [_] and [-] only (no separator, whatever the name of the tool
    or prompt), and at most 120 of them; [safeSegment] leaves a
    segment it made as it is, and leaves a name as it is when the name
    is made of such characters and no longer than 120. *)
Theorem safeSegment_safe (value : jsstring) :
  Forall (fun c => isSafeChar c = true) (safeSegment value) /\
  length (safeSegment value) <= 120 /\
  safeSegment (safeSegment value) = safeSegment value /\
  (Forall (fun c => isSafeChar c = true) value -> length value <= 120 ->
   safeSegment value = value).
Proof.
  assert (Hsafe : Forall (fun c => isSafeChar c = true) (safeSegment value)).
  { unfold safeSegment, slice. rewrite drop_0. apply Forall_take, replaceRuns_safe. }
  assert (Hlen : length (safeSegment value) <= 120).
  { unfold safeSegment, slice. rewrite length_take. lia. }
  assert (Hid : forall v, Forall (fun c => isSafeChar c = true) v -> length v <= 120 ->
                  safeSegment v = v).
  { intros v Hv Hl. unfold safeSegment, slice. rewrite drop_0, replaceRuns_id by exact Hv.
    apply take_ge. lia. }
  repeat split; auto.
Qed.

End VirtualizeProofs.

(* ===================================================================== *)
(** * Properties of [sanitizePath] *)
(* ===================================================================== *)

Module FsProofs.
Import Path Fs.

(** A segment that [normalizeString] keeps as it is. *)
Definition Clean (seg : jsstring) : Prop :=
  seg <> [] /\ seg <> [DOT] /\ seg <> [DOT; DOT] /\ SLASH ∉ seg.

Lemma segments_cons (path : jsstring) : exists seg segs, segments path = seg :: segs.
Proof.
  induction path as [|c rest (seg & segs & IH)]; simpl; [eauto|].
  destruct (c =? SLASH)%N; [eauto|]. rewrite IH. eauto.
Qed.

Lemma segments_no_slash (path : jsstring) :
  Forall (fun seg => SLASH ∉ seg) (segments path).
Proof.
  induction path as [|c rest IH]; simpl.
  - repeat constructor. intros H; inversion H.
  - destruct (c =? SLASH)%N eqn:Hc.
    + constructor; [intros H; inversion H | exact IH].
    + apply N.eqb_neq in Hc. destruct (segments rest) as [|seg segs].
      * repeat constructor. intros [Heq|H]%elem_of_cons; [congruence|inversion H].
      * inversion IH; subst. constructor; [|assumption].
        intros [Heq|H]%elem_of_cons; [congruence|contradiction].
Qed.

(** A text without separator is one segment, and a separator ends
    the segment before it. *)
Lemma segments_one (seg : jsstring) : SLASH ∉ seg -> segments seg = [seg].
Proof.
  induction seg as [|c rest IH]; intros Hno; simpl; [reflexivity|].
  destruct (c =? SLASH)%N eqn:Hc.
  - apply N.eqb_eq in Hc. subst. exfalso. apply Hno, list_elem_of_here.
  - rewrite IH; [reflexivity|]. intros H. apply Hno, list_elem_of_further, H.
Qed.

Lemma segments_sep (seg rest : jsstring) :
  SLASH ∉ seg -> segments (seg ++ SLASH :: rest) = seg :: segments rest.
Proof.
  induction seg as [|c seg IH]; intros Hno; simpl.
  - reflexivity.
  - destruct (c =? SLASH)%N eqn:Hc.
    + apply N.eqb_eq in Hc. subst. exfalso. apply Hno, list_elem_of_here.
    + rewrite IH; [reflexivity|]. intros H. apply Hno, list_elem_of_further, H.
Qed.

Lemma segments_join (segs : list jsstring) :
  segs <> [] -> Forall (fun seg => SLASH ∉ seg) segs ->
  segments (join [SLASH] segs) = segs.
Proof.
  induction segs as [|seg rest IH]; intros Hne Hno; [congruence|].
  inversion Hno as [|? ? Hseg Hrest]; subst.
  destruct rest as [|seg' rest'].
  - simpl. apply segments_one, Hseg.
  - change (join [SLASH] (seg :: seg' :: rest'))
      with (seg ++ SLASH :: join [SLASH] (seg' :: rest')).
    rewrite segments_sep by exact Hseg. rewrite IH; [reflexivity | discriminate | exact Hrest].
Qed.

Lemma join_snoc_empty (segs : list jsstring) :
  segs <> [] -> join [SLASH] (segs ++ [[]]) = join [SLASH] segs ++ [SLASH].
Proof.
  induction segs as [|seg rest IH]; intros Hne; [congruence|].
  destruct rest as [|seg' rest'].
  - simpl. reflexivity.
  - change (join [SLASH] ((seg :: seg' :: rest') ++ [[]]))
      with (seg ++ SLASH :: join [SLASH] ((seg' :: rest') ++ [[]])).
    rewrite IH by discriminate. simpl. rewrite <- app_assoc. reflexivity.
Qed.

(** The walk keeps clean segments and nothing else when it may not go
    above the root. *)
Lemma normalizeSegments_clean (res segs : list jsstring) :
  Forall Clean res -> Forall (fun seg => SLASH ∉ seg) segs ->
  Forall Clean (normalizeSegments false res segs).
Proof.
  revert res; induction segs as [|seg rest IH]; intros res Hres Hsegs; simpl.
  - apply Forall_rev, Hres.
  - inversion Hsegs as [|? ? Hseg Hrest]; subst.
    destruct (bool_decide_reflect (seg = [] \/ seg = [DOT])) as [|Hn1]; [auto|].
    destruct (bool_decide_reflect (seg = [DOT; DOT])) as [|Hn2].
    + destruct res as [|top res']; [auto|].
      inversion Hres; subst. destruct (bool_decide (top = [DOT; DOT])); auto.
    + apply IH; [|exact Hrest]. constructor; [|exact Hres].
      unfold Clean. tauto.
Qed.

(** Clean segments go through the walk unchanged. *)
Lemma normalizeSegments_keep (a : bool) (res keep rest : list jsstring) :
  Forall Clean keep ->
  normalizeSegments a res (keep ++ rest) = normalizeSegments a (rev keep ++ res) rest.
Proof.
  revert res; induction keep as [|seg keep IH]; intros res Hkeep; [reflexivity|].
  inversion Hkeep as [|? ? (H1 & H2 & H3 & _) Hrest]; subst. simpl.
  rewrite bool_decide_false by tauto. rewrite bool_decide_false by exact H3.
  rewrite IH by exact Hrest. rewrite <- app_assoc. reflexivity.
Qed.

Lemma normalizeSegments_fix (a : bool) (segs : list jsstring) :
  Forall Clean segs ->
  normalizeSegments a [] segs = segs /\ normalizeSegments a [] (segs ++ [[]]) = segs.
Proof.
  intros Hc. split.
  - rewrite <- (app_nil_r segs) at 1. rewrite normalizeSegments_keep by exact Hc.
    simpl. rewrite app_nil_r. apply rev_involutive.
  - rewrite normalizeSegments_keep by exact Hc. simpl.
    rewrite app_nil_r. apply rev_involutive.
Qed.

Lemma segments_slash (rest : jsstring) : segments (SLASH :: rest) = [] :: segments rest.
Proof. reflexivity. Qed.

Lemma normalizeSegments_empty (a : bool) (res rest : list jsstring) :
  normalizeSegments a res ([] :: rest) = normalizeSegments a res rest.
Proof. reflexivity. Qed.

(** An absolute path in normal form: the separator followed by clean
    segments with one separator between two of them. *)
Definition Canonical (path : jsstring) : Prop :=
  exists segs, Forall Clean segs /\ path = SLASH :: join [SLASH] segs.

Lemma Clean_no_slash (segs : list jsstring) :
  Forall Clean segs -> Forall (fun seg => SLASH ∉ seg) segs.
Proof. intros H. eapply Forall_impl; [exact H|]. unfold Clean. tauto. Qed.

(** [normalizeString] on a canonical path, with or without a
    separator at its end. *)
Lemma normalizeString_canonical (segs : list jsstring) :
  Forall Clean segs ->
  normalizeString (SLASH :: join [SLASH] segs) false = join [SLASH] segs /\
  normalizeString ((SLASH :: join [SLASH] segs) ++ [SLASH]) false = join [SLASH] segs.
Proof.
  intros Hc. unfold normalizeString.
  change ((SLASH :: join [SLASH] segs) ++ [SLASH]) with (SLASH :: join [SLASH] segs ++ [SLASH]).
  rewrite !segments_slash, !normalizeSegments_empty.
  destruct segs as [|seg rest]; [split; reflexivity|].
  destruct (normalizeSegments_fix false (seg :: rest) Hc) as [Hfix Hfix'].
  split.
  - rewrite segments_join; [rewrite Hfix; reflexivity | discriminate | apply Clean_no_slash, Hc].
  - rewrite <- join_snoc_empty by discriminate.
    rewrite segments_join; [rewrite Hfix'; reflexivity | destruct rest; discriminate |].
    apply Forall_app. split; [apply Clean_no_slash, Hc|].
    repeat constructor. intros H; inversion H.
Qed.

(** The last character of clean segments put together is not a
    separator. *)
Lemma join_clean_last (segs : list jsstring) :
  segs <> [] -> Forall Clean segs ->
  exists front c, join [SLASH] segs = front ++ [c] /\ c <> SLASH.
Proof.
  induction segs as [|seg rest IH]; intros Hne Hc; [congruence|].
  inversion Hc as [|? ? (Hseg & _ & _ & Hno) Hrest]; subst.
  destruct rest as [|seg' rest'].
  - simpl. destruct (exists_last Hseg) as (front & c & ->).
    exists front, c. split; [reflexivity|]. intros ->.
    apply Hno, elem_of_app. right. apply list_elem_of_here.
  - destruct IH as (front & c & Heq & Hc'); [discriminate | exact Hrest |].
    exists (seg ++ SLASH :: front), c. split; [|exact Hc'].
    change (join [SLASH] (seg :: seg' :: rest'))
      with (seg ++ SLASH :: join [SLASH] (seg' :: rest')).
    rewrite Heq, <- app_assoc. reflexivity.
Qed.

Lemma endsWith_snoc (l : jsstring) (c d : N) : endsWith (l ++ [c]) [d] = (d =? c)%N.
Proof.
  unfold endsWith. rewrite rev_app_distr. simpl. destruct (d =? c)%N; reflexivity.
Qed.

Lemma normalize_canonical (path : jsstring) : Canonical path -> normalize path = path.
Proof.
  intros (segs & Hc & ->). unfold normalize. cbn [length Nat.eqb].
  change (isAbsolute (SLASH :: join [SLASH] segs)) with true. cbn [negb].
  rewrite (proj1 (normalizeString_canonical segs Hc)).
  destruct segs as [|seg rest]; [reflexivity|].
  destruct (join_clean_last (seg :: rest)) as (front & c & Heq & Hne); [discriminate | exact Hc |].
  rewrite Heq.
  replace (length (front ++ [c]) =? 0) with false
    by (rewrite length_app, Nat.add_1_r; reflexivity).
  change (SLASH :: front ++ [c]) with ((SLASH :: front) ++ [c]).
  rewrite endsWith_snoc.
  replace (SLASH =? c)%N with false by (symmetry; apply N.eqb_neq; congruence).
  reflexivity.
Qed.

Lemma resolve_canonical (cwd path : jsstring) : Canonical path -> resolve cwd path = path.
Proof.
  intros (segs & Hc & ->). unfold resolve. cbn [length Nat.eqb].
  change (isAbsolute (SLASH :: join [SLASH] segs)) with true. cbn [negb].
  rewrite (proj2 (normalizeString_canonical segs Hc)). reflexivity.
Qed.

(** Whatever its argument, [resolve] answers with a canonical path
    when the working directory is absolute. *)
Lemma resolve_Canonical (cwd path : jsstring) :
  isAbsolute cwd = true -> Canonical (resolve cwd path).
Proof.
  intros Hcwd. unfold resolve.
  assert (Hlen : (length cwd =? 0) = false) by (destruct cwd; [discriminate | reflexivity]).
  assert (Hcanon : forall p, Canonical (SLASH :: normalizeString p false)).
  { intros p. eexists. split; [|reflexivity].
    apply normalizeSegments_clean; [constructor | apply segments_no_slash]. }
  destruct (length path =? 0); [|destruct (isAbsolute path)];
    rewrite ?Hlen, ?Hcwd; cbn [negb]; apply Hcanon.
Qed.

(** ** Characters *)

Section Characters.
Variable P : N -> Prop.
Hypothesis P_slash : P SLASH.
Hypothesis P_dot : P DOT.

Lemma segments_chars (path : jsstring) :
  Forall P path -> Forall (Forall P) (segments path).
Proof.
  induction path as [|c rest IH]; intros Hp; simpl; [repeat constructor|].
  inversion Hp; subst. specialize (IH ltac:(assumption)).
  destruct (c =? SLASH)%N; [constructor; [constructor | exact IH]|].
  destruct (segments rest) as [|seg segs]; [repeat constructor; assumption|].
  inversion IH; subst. constructor; [constructor; assumption | assumption].
Qed.

Lemma normalizeSegments_chars (a : bool) (res segs : list jsstring) :
  Forall (Forall P) res -> Forall (Forall P) segs ->
  Forall (Forall P) (normalizeSegments a res segs).
Proof.
  assert (Hdd : Forall P [DOT; DOT]) by (repeat constructor; exact P_dot).
  revert res; induction segs as [|seg rest IH]; intros res Hres Hsegs; simpl.
  - apply Forall_rev, Hres.
  - inversion Hsegs; subst.
    destruct (bool_decide (seg = [] \/ seg = [DOT])); [auto|].
    destruct (bool_decide (seg = [DOT; DOT])).
    + destruct res as [|top res'].
      * apply IH; [destruct a; repeat constructor; exact P_dot | assumption].
      * inversion Hres; subst. destruct (bool_decide (top = [DOT; DOT])); [|auto].
        apply IH; [destruct a; [constructor|]; assumption | assumption].
    + apply IH; [constructor|]; assumption.
Qed.

Lemma join_chars (segs : list jsstring) :
  Forall (Forall P) segs -> Forall P (join [SLASH] segs).
Proof.
  induction segs as [|seg rest IH]; intros Hs; [constructor|].
  inversion Hs; subst. destruct rest as [|seg' rest']; [assumption|].
  change (join [SLASH] (seg :: seg' :: rest'))
    with (seg ++ SLASH :: join [SLASH] (seg' :: rest')).
  apply Forall_app. split; [assumption|]. constructor; [exact P_slash | auto].
Qed.

Lemma normalizeString_chars (path : jsstring) (a : bool) :
  Forall P path -> Forall P (normalizeString path a).
Proof.
  intros Hp. apply join_chars, normalizeSegments_chars; [constructor|].
  apply segments_chars, Hp.
Qed.

Lemma normalize_chars (path : jsstring) : Forall P path -> Forall P (normalize path).
Proof.
  intros Hp. unfold normalize.
  pose proof (normalizeString_chars path (negb (isAbsolute path)) Hp) as Hn.
  destruct (length path =? 0); [repeat constructor; exact P_dot|].
  destruct (length (normalizeString _ _) =? 0).
  - destruct (isAbsolute path); [|destruct (endsWith path [SLASH])];
      repeat constructor; assumption.
  - destruct (endsWith path [SLASH]), (isAbsolute path);
      repeat (first [apply Forall_cons; split | apply Forall_app; split | assumption
                    | apply Forall_nil_2]).
Qed.

Lemma resolve_chars (cwd path : jsstring) :
  Forall P cwd -> Forall P path -> Forall P (resolve cwd path).
Proof.
  intros Hcwd Hp. unfold resolve.
  assert (Hs : Forall P [SLASH]) by (repeat constructor; exact P_slash).
  assert (Hout : forall p (abs : bool), Forall P p ->
    Forall P (if abs then SLASH :: normalizeString p (negb abs)
              else if 0 <? length (normalizeString p (negb abs))
                   then normalizeString p (negb abs) else [DOT])).
  { intros p abs Hpp. pose proof (normalizeString_chars p (negb abs) Hpp).
    destruct abs; [constructor; assumption|].
    destruct (0 <? _); [assumption | repeat constructor; exact P_dot]. }
  destruct (length path =? 0).
  - destruct (length cwd =? 0).
    + apply (Hout [] false). constructor.
    + apply (Hout (cwd ++ [SLASH] ++ []) (isAbsolute cwd)).
      apply Forall_app. split; [assumption | exact Hs].
  - destruct (isAbsolute path) eqn:Habs.
    + apply (Hout (path ++ [SLASH]) true). apply Forall_app. auto.
    + destruct (length cwd =? 0).
      * apply (Hout (path ++ [SLASH]) false). apply Forall_app. auto.
      * apply (Hout (cwd ++ [SLASH] ++ path ++ [SLASH]) (isAbsolute cwd)).
        apply Forall_app. split; [assumption|]. simpl.
        constructor; [exact P_slash|]. apply Forall_app. auto.
Qed.

Lemma getSubstitution_chars (matched before after template : jsstring) :
  Forall P matched -> Forall P before -> Forall P after -> Forall P template ->
  Forall P (getSubstitution matched before after template).
Proof.
  intros Hm Hb Ha. remember (length template) as n eqn:Hn.
  revert template Hn. induction n as [n IH] using lt_wf_ind. intros template Hn Ht.
  destruct template as [|c rest]; [constructor|]. simpl.
  inversion Ht as [|? ? Hc Hrest]; subst.
  assert (IHrest : Forall P (getSubstitution matched before after rest))
    by (apply (IH (length rest)); simpl; auto; lia).
  destruct (c =? DOLLAR)%N; [|constructor; assumption].
  destruct rest as [|d rest']; [repeat constructor; assumption|].
  inversion Hrest; subst.
  assert (IHrest' : Forall P (getSubstitution matched before after rest'))
    by (apply (IH (length rest')); simpl; auto; lia).
  destruct (d =? DOLLAR)%N eqn:Hd.
  { apply N.eqb_eq in Hd. subst. constructor; assumption. }
  destruct (d =? 38)%N; [apply Forall_app; auto|].
  destruct (d =? 96)%N; [apply Forall_app; auto|].
  destruct (d =? 39)%N; [apply Forall_app; auto|].
  constructor; assumption.
Qed.

End Characters.

Lemma getSubstitution_plain (matched before after template : jsstring) :
  DOLLAR ∉ template -> getSubstitution matched before after template = template.
Proof.
  induction template as [|c rest IH]; intros Hno; simpl; [reflexivity|].
  destruct (c =? DOLLAR)%N eqn:Hc.
  - apply N.eqb_eq in Hc. subst. exfalso. apply Hno, list_elem_of_here.
  - rewrite IH; [reflexivity|]. intros H. apply Hno, list_elem_of_further, H.
Qed.

Lemma stripNulls_chars (path : jsstring) : Forall (fun c => c <> NUL) (stripNulls path).
Proof.
  unfold stripNulls. induction path as [|c rest IH]; simpl; [constructor|].
  destruct (c =? NUL)%N eqn:Hc; simpl; [exact IH|].
  constructor; [apply N.eqb_neq, Hc | exact IH].
Qed.

Lemma stripNulls_id (path : jsstring) : Forall (fun c => c <> NUL) path -> stripNulls path = path.
Proof.
  unfold stripNulls. induction 1 as [|c rest Hc _ IH]; simpl; [reflexivity|].
  replace (c =? NUL)%N with false by (symmetry; apply N.eqb_neq, Hc).
  simpl. rewrite IH. reflexivity.
Qed.

Section Process.
Variable homedir : jsstring.
Variable cwd : jsstring.
Hypothesis cwd_absolute : isAbsolute cwd = true.
Hypothesis cwd_text : NUL ∉ cwd.
Hypothesis homedir_text : NUL ∉ homedir.

Lemma sanitizePath_chars (path : jsstring) :
  Forall (fun c => c <> NUL) (sanitizePath homedir cwd path).
Proof.
  assert (Hcwd : Forall (fun c => c <> NUL) cwd)
    by (apply Forall_forall; intros c Hc ->; contradiction).
  assert (Hhome : Forall (fun c => c <> NUL) homedir)
    by (apply Forall_forall; intros c Hc ->; contradiction).
  unfold sanitizePath. apply resolve_chars; try discriminate; [exact Hcwd|].
  apply normalize_chars; try discriminate.
  pose proof (stripNulls_chars path) as Hs.
  destruct (hasHomePrefix _); [|exact Hs]. unfold expandHome.
  assert (Hd : Forall (fun c => c <> NUL) (drop 1 (stripNulls path)))
    by (apply Forall_drop, Hs).
  apply Forall_app. split; [|exact Hd].
  apply getSubstitution_chars; auto; repeat constructor; discriminate.
Qed.

Lemma sanitizePath_canonical (path : jsstring) :
  Canonical path -> NUL ∉ path -> sanitizePath homedir cwd path = path.
Proof.
  intros Hcanon Hnul. unfold sanitizePath.
  rewrite stripNulls_id by (apply Forall_forall; intros c Hc ->; contradiction).
  replace (hasHomePrefix path) with false.
  - rewrite normalize_canonical by exact Hcanon. apply resolve_canonical, Hcanon.
  - destruct Hcanon as (segs & _ & ->). unfold hasHomePrefix.
    rewrite bool_decide_false by discriminate. reflexivity.
Qed.

End Process.

(** What holds of [sanitizePath] whatever the home directory is
    called.  In a process whose working directory [cwd] is an absolute
    path, [cwd] and the home directory being free of null characters:
    [sanitizePath (sanitizePath p) = sanitizePath p] for every [p]
    (empty or not); [sanitizePath p] is absolute and holds no null
    character; and when [p], once its null characters are gone, is
    ["~"] or starts with ["~/"], the result is the resolved, normalized
    home directory followed by what came after the ["~"] (the home
    directory standing for itself as a replacement text, that is
    holding no ["$"]). *)
Theorem sanitizePath_idempotent (homedir cwd p : jsstring) :
  isAbsolute cwd = true -> NUL ∉ cwd -> NUL ∉ homedir ->
  sanitizePath homedir cwd (sanitizePath homedir cwd p) = sanitizePath homedir cwd p /\
  isAbsolute (sanitizePath homedir cwd p) = true /\
  (NUL ∉ sanitizePath homedir cwd p) /\
  (hasHomePrefix (stripNulls p) = true -> DOLLAR ∉ homedir ->
   sanitizePath homedir cwd p =
   resolve cwd (normalize (homedir ++ drop 1 (stripNulls p)))).
Proof.
  intros Hcwd Hnul Hhome.
  assert (Hcanon : Canonical (sanitizePath homedir cwd p))
    by (apply resolve_Canonical, Hcwd).
  assert (Hchars : NUL ∉ sanitizePath homedir cwd p).
  { intros Hin. pose proof (sanitizePath_chars homedir cwd Hnul Hhome p) as Hall.
    rewrite Forall_forall in Hall. exact (Hall _ Hin eq_refl). }
  split; [apply sanitizePath_canonical; assumption|].
  split; [destruct Hcanon as (segs & _ & ->); reflexivity|].
  split; [exact Hchars|].
  intros Hprefix Hplain. unfold sanitizePath. rewrite Hprefix.
  unfold expandHome. rewrite getSubstitution_plain by exact Hplain. reflexivity.
Qed.

Lemma sanitizePath_idempotent_witness :
  let homedir := js "/home/u" in
  let cwd := js "/work/dir" in
  let p := [TILDE; SLASH] ++ js "a" ++ [NUL] ++ js "/../b/./c/" in
  sanitizePath homedir cwd p = js "/home/u/b/c" /\
  sanitizePath homedir cwd (sanitizePath homedir cwd p) = sanitizePath homedir cwd p /\
  isAbsolute (sanitizePath homedir cwd p) = true /\
  (NUL ∉ sanitizePath homedir cwd p) /\
  sanitizePath homedir cwd p = resolve cwd (normalize (homedir ++ js "/a/../b/./c/")).
Proof.
  intros homedir cwd p. split; [vm_compute; reflexivity|].
  assert (Hno : forall (c : N) (s : jsstring), Forall (fun d => d <> c) s -> c ∉ s).
  { intros c s Hs Hin. rewrite Forall_forall in Hs. exact (Hs _ Hin eq_refl). }
  destruct (sanitizePath_idempotent homedir cwd p) as (H1 & H2 & H3 & H4).
  - reflexivity.
  - apply Hno. repeat constructor; discriminate.
  - apply Hno. repeat constructor; discriminate.
  - split; [exact H1|]. split; [exact H2|]. split; [exact H3|].
    apply H4; [vm_compute; reflexivity|].
    apply Hno. repeat constructor; discriminate.
Defined.

(** C6: the expansion of ["~"] fails for a home directory whose name
    holds a replacement pattern.  [sanitizePath] hands [homedir()] to
    [String.prototype.replace] as the replacement text, where ["$&"]
    stands for the matched text, the ["~"] itself.  With the home
    directory [/tmp/h$&me], [sanitizePath("~")] is [/tmp/h~me] and
    [sanitizePath("~/notes")] is [/tmp/h~me/notes], neither of them in
    the home directory, although that directory is a path that
    [sanitizePath] leaves as it is.  The three other parts of the
    property hold for this home directory too. *)
Theorem sanitizePath_home_dollar :
  let cwd := js "/work" in
  hasHomePrefix (stripNulls (js "~")) = true /\
  hasHomePrefix (stripNulls (js "~/notes")) = true /\
  sanitizePath dollarHome cwd (js "~") = js "/tmp/h~me" /\
  sanitizePath dollarHome cwd (js "~/notes") = js "/tmp/h~me/notes" /\
  sanitizePath dollarHome cwd dollarHome = dollarHome /\
  startsWith (sanitizePath dollarHome cwd (js "~/notes")) dollarHome = false /\
  sanitizePath dollarHome cwd (sanitizePath dollarHome cwd (js "~")) =
    sanitizePath dollarHome cwd (js "~").
Proof. repeat split; vm_compute; reflexivity. Qed.

End FsProofs.

(* ===================================================================== *)
(** * Binary detection, encodings, skipped directories *)
(* ===================================================================== *)

Module BytesProofs.
Import Path Fs.

Lemma countSuspicious_spec (sample : list N) (acc : nat) :
  countSuspicious sample acc =
  if bool_decide (0%N ∈ sample) then None else Some (acc + suspiciousIn sample).
Proof.
  unfold suspiciousIn. revert acc; induction sample as [|b rest IH]; intros acc;
    cbn [countSuspicious List.filter].
  - rewrite bool_decide_false by (intros H; inversion H). simpl. f_equal. lia.
  - destruct (b =? 0)%N eqn:Hb.
    + apply N.eqb_eq in Hb. subst. rewrite bool_decide_true by apply list_elem_of_here.
      reflexivity.
    + apply N.eqb_neq in Hb. rewrite IH.
      destruct (bool_decide_reflect (0%N ∈ rest)) as [Hin|Hout].
      * rewrite bool_decide_true by (apply list_elem_of_further, Hin). reflexivity.
      * rewrite bool_decide_false by (intros [H|H]%elem_of_cons; [congruence | contradiction]).
        destruct (isSuspicious b); simpl; f_equal; lia.
Qed.

(** Above one fifth: the comparison of [isProbablyBinary] in whole
    numbers. *)
Lemma above_fifth (suspicious sampleSize : nat) :
  0 < sampleSize ->
  negb (Qle_bool (inject_Z (Z.of_nat suspicious) / inject_Z (Z.of_nat sampleSize)) (2 # 10)) =
  (sampleSize <? 5 * suspicious).
Proof.
  intros Hpos. apply eq_true_iff_eq. rewrite negb_true_iff, Nat.ltb_lt.
  rewrite <- not_true_iff_false, Qle_bool_iff.
  assert (Hq : (inject_Z (Z.of_nat suspicious) / inject_Z (Z.of_nat sampleSize) <= 2 # 10)%Q <->
               5 * suspicious <= sampleSize).
  { unfold Qle, Qdiv, Qmult, Qinv, inject_Z. cbn [Qnum Qden].
    destruct (Z.of_nat sampleSize) as [|p|p] eqn:Hp; [lia | | lia].
    cbn [Qnum Qden]. rewrite Pos.mul_1_l. lia. }
  rewrite Hq. lia.
Qed.

(** X22: [isProbablyBinary] looks at the first 512 bytes only; there,
    one null byte makes the answer true, and without null byte the
    answer is true exactly when more than one fifth of the bytes
    looked at are control characters other than tab, line feed,
    vertical tab, form feed and carriage return.  For no bytes at all
    the answer is false. *)
Theorem isProbablyBinary_sample (bytes : list N) :
  let sample := take 512 bytes in
  isProbablyBinary bytes = isProbablyBinary sample /\
  (0%N ∈ sample -> isProbablyBinary bytes = true) /\
  (0%N ∉ sample ->
   (isProbablyBinary bytes = true <-> length sample < 5 * suspiciousIn sample)) /\
  isProbablyBinary [] = false.
Proof.
  cbn zeta.
  assert (Hdef : forall bs, isProbablyBinary bs =
            if bool_decide (0%N ∈ take 512 bs) then negb (length bs =? 0)
            else length (take 512 bs) <? 5 * suspiciousIn (take 512 bs)).
  { intros bs. unfold isProbablyBinary. destruct bs as [|b bs']; [reflexivity|].
    cbn [length Nat.eqb negb].
    assert (Htake : take (Nat.min (S (length bs')) 512) (b :: bs') = take 512 (b :: bs')).
    { destruct (Nat.le_ge_cases (S (length bs')) 512) as [Hle|Hge].
      - rewrite Nat.min_l by exact Hle.
        rewrite !take_ge by (simpl; lia). reflexivity.
      - rewrite Nat.min_r by exact Hge. reflexivity. }
    rewrite Htake, countSuspicious_spec.
    destruct (bool_decide (0%N ∈ take 512 (b :: bs'))); [reflexivity|].
    rewrite above_fifth by lia. rewrite length_take. cbn [length Nat.add].
    rewrite (Nat.min_comm 512). reflexivity. }
  assert (Htt : take 512 (take 512 bytes) = take 512 bytes)
    by (rewrite take_take, Nat.min_id; reflexivity).
  repeat split.
  - rewrite (Hdef bytes), (Hdef (take 512 bytes)), Htt.
    destruct (bool_decide_reflect (0%N ∈ take 512 bytes)) as [Hin|Hout]; [|reflexivity].
    destruct bytes as [|b bs]; [inversion Hin | reflexivity].
  - intros Hin. rewrite Hdef, (bool_decide_true _ Hin).
    destruct bytes as [|b bs]; [inversion Hin | reflexivity].
  - rewrite Hdef, (bool_decide_false _ H). apply Nat.ltb_lt.
  - rewrite Hdef, (bool_decide_false _ H). apply Nat.ltb_lt.
Qed.

(** ** Encodings *)

(** The loop keeps the other counters out of [nullBytes]. *)
Lemma counters_null (t : Tally) :
  nullBytes (countHigh t) = nullBytes t /\ nullBytes (countValid t) = nullBytes t /\
  nullBytes (countInvalid t) = nullBytes t /\ nullBytes (countNull t) = nullBytes t + 1.
Proof. repeat split. Qed.

Lemma continuation_not_null (buffer : list N) (i : nat) :
  isContinuation buffer i = true -> byteAt buffer i <> 0%N.
Proof. unfold isContinuation. intros H Hz. rewrite Hz in H. discriminate. Qed.

(** Null bytes below [i] that lie in the sample. *)
Definition NullBelow (buffer : list N) (i : nat) : Prop :=
  exists j, j < i /\ j < sampleEnd buffer /\ byteAt buffer j = 0%N.

Lemma NullBelow_step (buffer : list N) (i i' : nat) :
  i < i' ->
  (forall j, i < j < i' -> byteAt buffer j <> 0%N) ->
  (NullBelow buffer i' <-> NullBelow buffer i \/ (i < sampleEnd buffer /\ byteAt buffer i = 0%N)).
Proof.
  intros Hlt Hskip. split.
  - intros (j & Hj & Hs & Hz). destruct (Nat.lt_trichotomy j i) as [Hji|[->|Hij]].
    + left. exists j. auto.
    + right. auto.
    + exfalso. apply (Hskip j); [lia | exact Hz].
  - intros [(j & Hj & Hs & Hz)|[Hs Hz]]; [exists j | exists i]; repeat split; auto; lia.
Qed.

(** The loop counts a null byte exactly when the sample holds one:
    the bytes it steps over are continuation bytes. *)
Lemma tallyLoop_null (turns : nat) (buffer : list N) (i : nat) (t : Tally) :
  sampleEnd buffer <= i + turns ->
  (0 < nullBytes t <-> NullBelow buffer i) ->
  (0 < nullBytes (tallyLoop turns buffer i t) <-> NullBelow buffer (sampleEnd buffer)).
Proof.
  revert i t; induction turns as [|k IH]; intros i t Hfuel Hinv.
  - simpl. rewrite Hinv. split; intros (j & Hj & Hs & Hz); exists j; repeat split; auto; lia.
  - cbn [tallyLoop]. destruct (i <? sampleEnd buffer) eqn:Hi.
    2:{ apply Nat.ltb_ge in Hi. rewrite Hinv.
        split; intros (j & Hj & Hs & Hz); exists j; repeat split; auto; lia. }
    apply Nat.ltb_lt in Hi.
    set (t1 := if (byteAt buffer i =? 0)%N then countNull t else t).
    assert (Hone : forall t2, nullBytes t2 = nullBytes t1 ->
              (0 < nullBytes t2 <-> NullBelow buffer (i + 1))).
    { intros t2 ->. rewrite (NullBelow_step buffer i (i + 1)) by (intros; lia).
      subst t1. destruct (byteAt buffer i =? 0)%N eqn:Hz.
      - apply N.eqb_eq in Hz. cbn [nullBytes countNull]. split; [auto | lia].
      - apply N.eqb_neq in Hz. rewrite Hinv. tauto. }
    assert (Hskip : forall t2 n, nullBytes t2 = nullBytes t1 -> 0 < n ->
              (forall j, i < j < i + n -> byteAt buffer j <> 0%N) ->
              (0 < nullBytes t2 <-> NullBelow buffer (i + n))).
    { intros t2 n Ht2 Hn Hnz. rewrite (NullBelow_step buffer i (i + n)) by (auto; lia).
      rewrite <- (NullBelow_step buffer i (i + 1)) by (intros; lia). apply Hone, Ht2. }
    destruct (128 <=? byteAt buffer i)%N; [|apply IH; [lia | apply Hone; reflexivity]].
    destruct ((N.land (byteAt buffer i) 224 =? 192)%N && (i + 1 <? length buffer)).
    { destruct (isContinuation buffer (i + 1)) eqn:Hc1.
      - apply IH; [lia|]. apply Hskip; [reflexivity | lia|].
        intros j Hj. replace j with (i + 1) by lia. apply continuation_not_null, Hc1.
      - apply IH; [lia | apply Hone; reflexivity]. }
    destruct ((N.land (byteAt buffer i) 240 =? 224)%N && (i + 2 <? length buffer)).
    { destruct (isContinuation buffer (i + 1)) eqn:Hc1;
        [destruct (isContinuation buffer (i + 2)) eqn:Hc2|]; cbn [andb].
      - apply IH; [lia|]. apply Hskip; [reflexivity | lia|].
        intros j Hj. assert (Hcases : j = i + 1 \/ j = i + 2) by lia.
        destruct Hcases as [->| ->]; apply continuation_not_null; assumption.
      - apply IH; [lia | apply Hone; reflexivity].
      - apply IH; [lia | apply Hone; reflexivity]. }
    destruct ((N.land (byteAt buffer i) 248 =? 240)%N && (i + 3 <? length buffer)).
    { destruct (isContinuation buffer (i + 1)) eqn:Hc1;
        [destruct (isContinuation buffer (i + 2)) eqn:Hc2;
           [destruct (isContinuation buffer (i + 3)) eqn:Hc3|]|]; cbn [andb].
      - apply IH; [lia|]. apply Hskip; [reflexivity | lia|].
        intros j Hj. assert (Hcases : j = i + 1 \/ j = i + 2 \/ j = i + 3) by lia.
        destruct Hcases as [->|[->| ->]]; apply continuation_not_null; assumption.
      - apply IH; [lia | apply Hone; reflexivity].
      - apply IH; [lia | apply Hone; reflexivity].
      - apply IH; [lia | apply Hone; reflexivity]. }
    apply IH; [lia | apply Hone; reflexivity].
Qed.

Lemma NullBelow_hasNullByte (buffer : list N) :
  NullBelow buffer (sampleEnd buffer) <-> hasNullByte buffer = true.
Proof.
  unfold hasNullByte, NullBelow, sampleEnd, byteAt. rewrite bool_decide_eq_true.
  rewrite list_elem_of_lookup. split.
  - intros (j & Hj & _ & Hz). exists j. rewrite lookup_take_lt by lia.
    destruct (nth_lookup_or_length buffer j 0%N) as [Hl|Hlen]; [|lia].
    rewrite Hl, Hz. reflexivity.
  - intros (j & Hl). apply lookup_take_Some in Hl as [Hl Hj].
    pose proof (lookup_lt_Some _ _ _ Hl). exists j.
    repeat split; try lia. apply nth_lookup_Some, Hl.
Qed.

(** X23: on a buffer that starts with no byte order mark,
    [detectEncoding] answers ["binary"] exactly when one of the first
    8192 bytes is a null byte, which is when [hasNullByte] of
    [path-safety.ts] is true of a file with these bytes: the bytes the
    loop steps over are continuation bytes, none of them null.  With
    neither mark nor null byte, a buffer of bytes below 0x80 is
    ["utf-8"]. *)
Theorem detectEncoding_binary (buffer : list N) :
  byteOrderMark buffer = None ->
  (detectEncoding buffer = binary <-> hasNullByte buffer = true) /\
  (hasNullByte buffer = false -> Forall (fun b => (b < 128)%N) (take (Z.to_nat 8192) buffer) ->
   detectEncoding buffer = utf8).
Proof.
  intros Hbom. unfold detectEncoding. rewrite Hbom.
  set (zero := {| nullBytes := 0; highBytes := 0; validUtf8Sequences := 0;
                  invalidUtf8Sequences := 0 |}).
  pose proof (tallyLoop_null (sampleEnd buffer) buffer 0 zero ltac:(lia)) as Hnull.
  rewrite NullBelow_hasNullByte in Hnull.
  assert (Hstart : 0 < nullBytes zero <-> NullBelow buffer 0).
  { simpl. split; [lia | intros (j & Hj & _); lia]. }
  specialize (Hnull Hstart). split.
  - destruct (0 <? nullBytes (tallyLoop (sampleEnd buffer) buffer 0 zero)) eqn:Hz.
    + apply Nat.ltb_lt in Hz. split; [intros _; apply Hnull, Hz | reflexivity].
    + apply Nat.ltb_ge in Hz. split.
      * destruct (_ && _); discriminate.
      * intros Hh. apply Hnull in Hh. lia.
  - intros Hno Hascii.
    replace (0 <? nullBytes (tallyLoop (sampleEnd buffer) buffer 0 zero)) with false.
    2:{ symmetry. apply Nat.ltb_ge. destruct (Nat.le_gt_cases (nullBytes (tallyLoop (sampleEnd buffer) buffer 0 zero)) 0) as [H|H]; [exact H|].
        apply Hnull in H. congruence. }
    assert (Hhigh : forall turns i t, highBytes t = 0 ->
              highBytes (tallyLoop turns buffer i t) = 0).
    { induction turns as [|k IH]; intros i t Ht; [exact Ht|]. cbn [tallyLoop].
      destruct (i <? sampleEnd buffer) eqn:Hi; [|exact Ht].
      apply Nat.ltb_lt in Hi. unfold sampleEnd in Hi.
      assert (Hb : (byteAt buffer i < 128)%N).
      { rewrite Forall_forall in Hascii. apply Hascii. apply list_elem_of_lookup.
        exists i. rewrite lookup_take_lt by lia. unfold byteAt.
        destruct (nth_lookup_or_length buffer i 0%N) as [Hl|Hlen]; [exact Hl | lia]. }
      replace (128 <=? byteAt buffer i)%N with false by (symmetry; apply N.leb_gt, Hb).
      apply IH. destruct (byteAt buffer i =? 0)%N; exact Ht. }
    rewrite Hhigh by reflexivity. reflexivity.
Qed.

Lemma detectEncoding_binary_witness :
  detectEncoding [80; 75; 3; 4; 0; 0; 8; 0]%N = binary /\
  detectEncoding [104; 105; 10]%N = utf8.
Proof.
  destruct (detectEncoding_binary [80; 75; 3; 4; 0; 0; 8; 0]%N eq_refl) as [H1 _].
  destruct (detectEncoding_binary [104; 105; 10]%N eq_refl) as [_ H2].
  split.
  - apply H1. vm_compute. reflexivity.
  - apply H2; [vm_compute; reflexivity|]. vm_compute. repeat constructor.
Defined.

(** ** Skipped directories *)

Lemma splitSeparators_cons (path : jsstring) :
  exists part parts, splitSeparators path = part :: parts.
Proof.
  induction path as [|c rest (part & parts & IH)]; simpl; [eauto|].
  destruct (_ || _); [eauto|]. rewrite IH. eauto.
Qed.

Lemma splitSeparators_part (part rest : jsstring) (sep : N) :
  Forall (fun c => isSeparator c = false) part -> isSeparator sep = true ->
  splitSeparators (part ++ sep :: rest) = part :: splitSeparators rest.
Proof.
  intros Hpart Hsep. induction Hpart as [|c part Hc _ IH]; simpl.
  - unfold isSeparator in Hsep. rewrite Hsep. reflexivity.
  - unfold isSeparator in Hc. rewrite Hc, IH. reflexivity.
Qed.

Lemma splitSeparators_last (last : jsstring) :
  Forall (fun c => isSeparator c = false) last -> splitSeparators last = [last].
Proof.
  induction 1 as [|c part Hc _ IH]; simpl; [reflexivity|].
  unfold isSeparator in Hc. rewrite Hc, IH. reflexivity.
Qed.

(** X24: [isInSkippedDir] looks for the skipped names among the whole
    segments of the path, the separators being ["/"] and the
    backslash: for a path made of parts without separator, the answer
    is true exactly when one of the parts is one of the names. *)
Theorem isInSkippedDir_segments (parts : list (jsstring * N)) (last : jsstring)
    (skipDirs : list jsstring) :
  Forall (fun p => Forall (fun c => isSeparator c = false) (fst p) /\
                   isSeparator (snd p) = true) parts ->
  Forall (fun c => isSeparator c = false) last ->
  (isInSkippedDir (glue parts last) skipDirs = true <->
   exists part, part ∈ (fst <$> parts) ++ [last] /\ part ∈ skipDirs).
Proof.
  intros Hparts Hlast. unfold isInSkippedDir.
  assert (Hsplit : splitSeparators (glue parts last) = (fst <$> parts) ++ [last]).
  { induction Hparts as [|[part sep] rest [Hp Hs] _ IH]; simpl.
    - apply splitSeparators_last, Hlast.
    - rewrite splitSeparators_part by assumption. rewrite IH. reflexivity. }
  rewrite Hsplit, existsb_exists. split.
  - intros (part & Hin & Hdir). exists part.
    split; [apply list_elem_of_In, Hin | apply bool_decide_eq_true in Hdir; exact Hdir].
  - intros (part & Hin & Hdir). exists part.
    split; [apply list_elem_of_In, Hin | apply bool_decide_eq_true; exact Hdir].
Qed.

Lemma isInSkippedDir_segments_witness :
  isInSkippedDir (js "src/node_modules" ++ [BACKSLASH] ++ js "a.js") [js "node_modules"; js ".git"] = true /\
  isInSkippedDir (js "src/node_modules_old/a.js") [js "node_modules"; js ".git"] = false.
Proof.
  split; [|vm_compute; reflexivity].
  apply (isInSkippedDir_segments [(js "src", SLASH); (js "node_modules", BACKSLASH)] (js "a.js")).
  - repeat constructor.
  - repeat constructor.
  - exists (js "node_modules"). split; [|apply list_elem_of_here].
    simpl. apply list_elem_of_further, list_elem_of_here.
Defined.

(** ** The shape of a sanitized path *)



End BytesProofs.

(* ===================================================================== *)
(** * Properties of the fix applier *)
(* ===================================================================== *)

Module FixProofs.
Import Fix.

(** ** Lines *)

(** The styles of [EXT_COMMENT_STYLE]. *)
Definition tableStyle (style : CommentStyle) : Prop :=
  style = hashStyle \/ style = slashStyle \/ style = htmlStyle.

Lemma lookupStyle_In table ext style :
  lookupStyle table ext = Some style -> In (Some style) (map snd table).
Proof.
  induction table as [|[k v] rest IH]; simpl; [discriminate|].
  destruct (bool_decide (k = ext)); [intros ->; auto | auto].
Qed.

Lemma getCommentStyle_table filePath style :
  getCommentStyle filePath = Some style -> tableStyle style.
Proof.
  intros H. apply lookupStyle_In in H. unfold tableStyle. simpl in H.
  repeat (destruct H as [H|H]; [first [discriminate | injection H as <-; auto] |]).
  contradiction.
Qed.

Lemma leading_trimStart (l : jsstring) : leadingSpace l ++ trimStart l = l.
Proof.
  induction l as [|c rest IH]; simpl; [reflexivity|].
  destruct (isWhiteSpace c); simpl; [rewrite IH|]; reflexivity.
Qed.

Lemma trimStart_leading (l rest : jsstring) :
  trimStart rest = rest -> trimStart (leadingSpace l ++ rest) = rest.
Proof.
  intros Hrest. induction l as [|c l IH]; simpl; [exact Hrest|].
  destruct (isWhiteSpace c) eqn:Hc; simpl; [rewrite Hc; exact IH | exact Hrest].
Qed.

Lemma trim_nil_length (content : jsstring) :
  (length (trim content) =? 0) = false -> content <> [].
Proof. intros H ->. discriminate. Qed.

Lemma trimStart_last (l : jsstring) : trimStart l <> [] -> last (trimStart l) = last l.
Proof.
  intros Hne. rewrite <- (leading_trimStart l) at 2. rewrite last_app.
  destruct (last (trimStart l)) eqn:Hl; [reflexivity|].
  apply last_None in Hl. contradiction.
Qed.

(** A line that [applyFixes] leaves as it is. *)
Definition Settled (style : CommentStyle) (l : jsstring) : Prop :=
  isAlreadyCommented l style = true \/ commentLine l style = l.

Lemma startsWith_app (p rest : jsstring) : startsWith (p ++ rest) p = true.
Proof. induction p as [|c p IH]; simpl; [reflexivity|]. rewrite N.eqb_refl. exact IH. Qed.

Lemma endsWith_app (front p : jsstring) : endsWith (front ++ p) p = true.
Proof. unfold endsWith. rewrite rev_app_distr. apply startsWith_app. Qed.

(** What [commentLine] builds is classified as commented. *)
Lemma commented_prefix (l rest value : jsstring) (c : N) :
  isWhiteSpace c = false ->
  isAlreadyCommented (leadingSpace l ++ (c :: value) ++ rest) (Prefix (c :: value)) = true.
Proof.
  intros Hc. unfold isAlreadyCommented. rewrite trimStart_leading.
  - apply startsWith_app.
  - simpl. rewrite Hc. reflexivity.
Qed.

Lemma commented_wrap (l content : jsstring) :
  isAlreadyCommented (leadingSpace l ++ js "<!-- " ++ content ++ js " -->") htmlStyle = true.
Proof.
  unfold isAlreadyCommented, htmlStyle. rewrite trimStart_leading by reflexivity.
  apply andb_true_iff. split; [reflexivity|].
  change (js " -->") with ([32%N] ++ js "-->"). rewrite !app_assoc. apply endsWith_app.
Qed.

Lemma commentLine_cases (l : jsstring) (style : CommentStyle) :
  tableStyle style ->
  commentLine l style = l \/
  exists indent content,
    content <> [] /\ (last content = last l) /\
    (forall c, c ∈ indent ++ content -> c ∈ l) /\
    isAlreadyCommented (commentLine l style) style = true /\
    commentLine l style =
      match style with
      | Prefix value => indent ++ value ++ js " " ++ content
      | Wrap start finish => indent ++ start ++ content ++ finish
      end.
Proof.
  intros Hstyle. unfold commentLine, matchIndent.
  destruct (forallb _ (trimStart l)) eqn:Hterm.
  - (* the expression matches *)
    assert (Hin : forall c, c ∈ leadingSpace l ++ trimStart l -> c ∈ l)
      by (rewrite leading_trimStart; auto).
    destruct Hstyle as [->|[->| ->]]; unfold hashStyle, slashStyle, htmlStyle;
      (destruct (length (trim (trimStart l)) =? 0) eqn:Hblank; [left; reflexivity|]);
      right; exists (leadingSpace l), (trimStart l);
      pose proof (trim_nil_length _ Hblank) as Hne;
      (split; [exact Hne|]); (split; [apply trimStart_last, Hne|]);
      (split; [exact Hin|]); (split; [|reflexivity]).
    + apply (commented_prefix l _ [] 35%N). reflexivity.
    + apply (commented_prefix l _ [47%N] 47%N). reflexivity.
    + apply commented_wrap.
  - (* it does not *)
    destruct Hstyle as [->|[->| ->]]; unfold hashStyle, slashStyle, htmlStyle;
      (destruct (length (trim l) =? 0) eqn:Hblank; [left; reflexivity|]);
      right; exists [], l;
      pose proof (trim_nil_length _ Hblank) as Hne;
      (split; [exact Hne|]); (split; [reflexivity|]);
      (split; [auto|]); (split; [|reflexivity]).
    + apply (commented_prefix [] _ [] 35%N). reflexivity.
    + apply (commented_prefix [] _ [47%N] 47%N). reflexivity.
    + apply (commented_wrap [] l).
Qed.

Lemma commentLine_settled (l : jsstring) (style : CommentStyle) :
  tableStyle style -> Settled style (commentLine l style) \/ commentLine l style = l.
Proof.
  intros Hstyle. destruct (commentLine_cases l style Hstyle) as [Heq|(i & c & _ & _ & _ & H & _)].
  - right. exact Heq.
  - left. left. exact H.
Qed.

Ltac literal_free H :=
  vm_compute in H; repeat (apply elem_of_cons in H as [H|H]; [discriminate|]); inversion H.

(** [commentLine] brings in no line feed, and no carriage return at
    the end of the line. *)
Lemma commentLine_LF (l : jsstring) (style : CommentStyle) :
  tableStyle style -> LF ∉ l -> LF ∉ commentLine l style.
Proof.
  intros Hstyle Hl. destruct (commentLine_cases l style Hstyle)
    as [->|(indent & content & _ & _ & Hin & _ & ->)]; [exact Hl|].
  assert (Hi : LF ∉ indent) by (intros H; apply Hl, Hin, elem_of_app; auto).
  assert (Hc : LF ∉ content) by (intros H; apply Hl, Hin, elem_of_app; auto).
  destruct Hstyle as [->|[->| ->]]; unfold hashStyle, slashStyle, htmlStyle; intros H.
  - apply elem_of_app in H as [H|H]; [contradiction|].
    apply elem_of_app in H as [H|H]; [literal_free H|].
    apply elem_of_app in H as [H|H]; [literal_free H | contradiction].
  - apply elem_of_app in H as [H|H]; [contradiction|].
    apply elem_of_app in H as [H|H]; [literal_free H|].
    apply elem_of_app in H as [H|H]; [literal_free H | contradiction].
  - apply elem_of_app in H as [H|H]; [contradiction|].
    apply elem_of_app in H as [H|H]; [literal_free H|].
    apply elem_of_app in H as [H|H]; [contradiction | literal_free H].
Qed.

Lemma commentLine_CR (l : jsstring) (style : CommentStyle) :
  tableStyle style -> last (commentLine l style) = Some CR -> last l = Some CR.
Proof.
  intros Hstyle. destruct (commentLine_cases l style Hstyle)
    as [->|(indent & content & Hne & Hlast & _ & _ & ->)]; [auto|].
  apply last_is_Some in Hne as [x Hx]. rewrite <- Hlast, Hx.
  destruct Hstyle as [->|[->| ->]]; unfold hashStyle, slashStyle, htmlStyle.
  - rewrite !last_app, Hx. auto.
  - rewrite !last_app, Hx. auto.
  - rewrite !last_app. simpl. discriminate.
Qed.

(** ** Splitting and joining *)

Lemma splitLines_cons (content : jsstring) : exists l ls, splitLines content = l :: ls.
Proof.
  remember (length content) as n eqn:Hn. revert content Hn.
  induction n as [n IH] using lt_wf_ind. intros [|c rest] Hn; simpl; [eauto|].
  destruct (c =? LF)%N; [eauto|].
  destruct (IH (length rest) ltac:(simpl in Hn; lia) rest eq_refl) as (l & ls & ->).
  destruct (c =? CR)%N; [|eauto].
  destruct rest as [|d rest']; [eauto|].
  destruct (d =? LF)%N; eauto.
Qed.

(** No line of [splitLines] holds a line feed. *)
Lemma splitLines_LF (content : jsstring) : Forall (fun l => LF ∉ l) (splitLines content).
Proof.
  assert (Hnil : LF ∉ @nil N) by (intros H; inversion H).
  assert (Hext : forall c ls, c <> LF -> Forall (fun l => LF ∉ l) ls ->
    Forall (fun l => LF ∉ l) match ls with l :: ls' => (c :: l) :: ls' | [] => [[c]] end).
  { intros c [|l ls'] Hc Hls.
    - repeat constructor. intros [H|H]%elem_of_cons; [congruence | inversion H].
    - inversion Hls; subst. constructor; [|assumption].
      intros [H|H]%elem_of_cons; [congruence | contradiction]. }
  remember (length content) as n eqn:Hn. revert content Hn.
  induction n as [n IH] using lt_wf_ind. intros [|c rest] Hn; simpl; [repeat constructor; exact Hnil|].
  assert (IHrest := IH (length rest) ltac:(simpl in Hn; lia) rest eq_refl).
  destruct (c =? LF)%N eqn:Hc; [constructor; assumption|].
  apply N.eqb_neq in Hc.
  destruct (c =? CR)%N; [|apply Hext; assumption].
  destruct rest as [|d rest'].
  - repeat constructor. intros [H|H]%elem_of_cons; [congruence | inversion H].
  - destruct (d =? LF)%N; [|apply Hext; assumption].
    constructor; [exact Hnil|].
    apply (IH (length rest')); [simpl in Hn; simpl; lia | reflexivity].
Qed.

(** A text without line feed is one line; a line feed, or a carriage
    return and a line feed, ends the line before it. *)
Lemma splitLines_one (l : jsstring) : LF ∉ l -> splitLines l = [l].
Proof.
  induction l as [|c rest IH]; intros Hl; [reflexivity|].
  assert (Hc : (c =? LF)%N = false)
    by (apply N.eqb_neq; intros ->; apply Hl, list_elem_of_here).
  assert (Hrest : LF ∉ rest) by (intros H; apply Hl, list_elem_of_further, H).
  simpl. rewrite Hc, (IH Hrest).
  destruct (c =? CR)%N; [|reflexivity].
  destruct rest as [|d rest']; [reflexivity|].
  replace (d =? LF)%N with false; [reflexivity|].
  symmetry. apply N.eqb_neq. intros ->. apply Hrest, list_elem_of_here.
Qed.

Lemma splitLines_feed (l rest : jsstring) :
  LF ∉ l -> last l <> Some CR ->
  splitLines (l ++ LF :: rest) = l :: splitLines rest.
Proof.
  induction l as [|c l' IH]; intros Hl Hcr.
  - simpl. reflexivity.
  - assert (Hc : (c =? LF)%N = false)
      by (apply N.eqb_neq; intros ->; apply Hl, list_elem_of_here).
    assert (Hl' : LF ∉ l') by (intros H; apply Hl, list_elem_of_further, H).
    assert (Hcr' : last l' <> Some CR).
    { destruct l' as [|d l'']; [discriminate|]. rewrite last_cons_cons in Hcr. exact Hcr. }
    simpl. rewrite Hc, (IH Hl' Hcr').
    destruct (c =? CR)%N eqn:Hccr; [|reflexivity].
    destruct l' as [|d l''].
    + apply N.eqb_eq in Hccr. subst. exfalso. apply Hcr. reflexivity.
    + simpl. replace (d =? LF)%N with false; [reflexivity|].
      symmetry. apply N.eqb_neq. intros ->. apply Hl', list_elem_of_here.
Qed.

Lemma splitLines_return_feed (l rest : jsstring) :
  LF ∉ l -> splitLines (l ++ CR :: LF :: rest) = l :: splitLines rest.
Proof.
  induction l as [|c l' IH]; intros Hl.
  - reflexivity.
  - assert (Hc : (c =? LF)%N = false)
      by (apply N.eqb_neq; intros ->; apply Hl, list_elem_of_here).
    assert (Hl' : LF ∉ l') by (intros H; apply Hl, list_elem_of_further, H).
    simpl. rewrite Hc, (IH Hl').
    destruct (c =? CR)%N; [|reflexivity].
    destruct l' as [|d l'']; [reflexivity|].
    simpl. replace (d =? LF)%N with false; [reflexivity|].
    symmetry. apply N.eqb_neq. intros ->. apply Hl', list_elem_of_here.
Qed.

(** No line but the last ends with a carriage return. *)
Fixpoint innerOK (ls : list jsstring) : Prop :=
  match ls with
  | [] => True
  | l :: rest => (rest <> [] -> last l <> Some CR) /\ innerOK rest
  end.

Lemma join_cons2 (sep l l' : jsstring) (rest : list jsstring) :
  join sep (l :: l' :: rest) = l ++ sep ++ join sep (l' :: rest).
Proof. reflexivity. Qed.

Lemma splitLines_join_LF (ls : list jsstring) :
  ls <> [] -> Forall (fun l => LF ∉ l) ls -> innerOK ls ->
  splitLines (join [LF] ls) = ls.
Proof.
  induction ls as [|l rest IH]; intros Hne Hlf Hcr; [congruence|].
  inversion Hlf as [|? ? Hl Hrest]; subst. destruct Hcr as [Hcr Hin].
  destruct rest as [|l' rest'].
  - simpl. apply splitLines_one, Hl.
  - rewrite join_cons2.
    change ([LF] ++ join [LF] (l' :: rest')) with (LF :: join [LF] (l' :: rest')).
    rewrite splitLines_feed; [|exact Hl | apply Hcr; discriminate].
    rewrite IH; [reflexivity | discriminate | exact Hrest | exact Hin].
Qed.

Lemma splitLines_join_CRLF (ls : list jsstring) :
  ls <> [] -> Forall (fun l => LF ∉ l) ls ->
  splitLines (join [CR; LF] ls) = ls.
Proof.
  induction ls as [|l rest IH]; intros Hne Hlf; [congruence|].
  inversion Hlf as [|? ? Hl Hrest]; subst.
  destruct rest as [|l' rest'].
  - simpl. apply splitLines_one, Hl.
  - rewrite join_cons2.
    change ([CR; LF] ++ join [CR; LF] (l' :: rest'))
      with (CR :: LF :: join [CR; LF] (l' :: rest')).
    rewrite splitLines_return_feed by exact Hl.
    rewrite IH; [reflexivity | discriminate | exact Hrest].
Qed.

(** A first line that is empty and not the only one comes from a
    line end at the start of the text. *)
Lemma splitLines_head_nil (content : jsstring) (ls : list jsstring) :
  splitLines content = [] :: ls -> ls <> [] ->
  startsWith content [LF] = true \/ startsWith content [CR; LF] = true.
Proof.
  destruct content as [|c rest]; simpl.
  { intros [= <-] H. exfalso. apply H. reflexivity. }
  destruct (c =? LF)%N eqn:Hc.
  { apply N.eqb_eq in Hc. subst. auto. }
  destruct (splitLines_cons rest) as (l & ls' & Hrest).
  destruct (c =? CR)%N eqn:Hcr.
  - apply N.eqb_eq in Hcr. subst. destruct rest as [|d rest']; [intros [=]|].
    destruct (d =? LF)%N eqn:Hd.
    + apply N.eqb_eq in Hd. subst. auto.
    + rewrite Hrest. discriminate.
  - rewrite Hrest. discriminate.
Qed.

Lemma splitLines_inner (content : jsstring) :
  includes content [CR; LF] = false -> innerOK (splitLines content).
Proof.
  induction content as [|c rest IH]; [simpl; auto|].
  intros Hinc. cbn [includes] in Hinc. apply orb_false_iff in Hinc as [Hstart Hrest].
  specialize (IH Hrest).
  destruct (splitLines_cons rest) as (l & ls & Hsplit).
  assert (Hext : c <> CR \/ (l <> [] \/ ls = []) ->
                 innerOK ((c :: l) :: ls)).
  { intros Hc. rewrite Hsplit in IH. destruct IH as [Hl Hin]. split; [|exact Hin].
    intros Hls. destruct l as [|d l'].
    - destruct Hc as [Hc|[Hc|Hc]]; [|exfalso; apply Hc; reflexivity | contradiction].
      simpl. intros [= Heq]. contradiction.
    - rewrite last_cons_cons. apply Hl, Hls. }
  simpl. destruct (c =? LF)%N eqn:Hlf.
  { split; [discriminate | exact IH]. }
  destruct (c =? CR)%N eqn:Hcr.
  - apply N.eqb_eq in Hcr. subst c. destruct rest as [|d rest'].
    + simpl. split; [intros H; exfalso; apply H; reflexivity | exact I].
    + destruct (d =? LF)%N eqn:Hd.
      * apply N.eqb_eq in Hd. subst d. discriminate.
      * rewrite Hsplit. apply Hext. right.
        destruct l as [|x l']; [|left; discriminate]. right.
        destruct ls as [|l2 ls2]; [reflexivity|]. exfalso.
        destruct (splitLines_head_nil _ _ Hsplit ltac:(discriminate)) as [H|H].
        -- cbn [startsWith] in H. destruct (N.eqb_spec LF d) as [<-|Hne]; [|discriminate].
           rewrite N.eqb_refl in Hd. discriminate.
        -- cbn [includes] in Hrest. rewrite H in Hrest. discriminate.
  - rewrite Hsplit. apply Hext. left. apply N.eqb_neq, Hcr.
Qed.

Lemma innerOK_insert (ls : list jsstring) (i : nat) (x y : jsstring) :
  innerOK ls -> ls !! i = Some x ->
  (last y = Some CR -> last x = Some CR) ->
  innerOK (<[i := y]> ls).
Proof.
  revert i; induction ls as [|l rest IH]; intros i Hok Hx Hy; [exact I|].
  destruct Hok as [Hl Hrest]. destruct i as [|i]; simpl in *.
  - injection Hx as ->. split; [|exact Hrest]. intros Hne Hlast. apply (Hl Hne), Hy, Hlast.
  - split; [|apply (IH i); assumption].
    intros Hne. apply Hl. intros ->. apply Hne. reflexivity.
Qed.

(** ** One file *)

(** The line a line number points at is settled, or there is no such
    line. *)
Definition SettledAt (style : CommentStyle) (ls : list jsstring) (ln : Z) : Prop :=
  (ln - 1 < 0 \/ Z.of_nat (length ls) <= ln - 1)%Z \/
  exists x, ls !! Z.to_nat (ln - 1) = Some x /\ Settled style x.

(** The three ways a turn of the loop over the line numbers goes. *)
Lemma fixLine_cases (style : CommentStyle) (st : FileState) (ln : Z) :
  let st' := fixLine style st ln in
  ((ln - 1 < 0 \/ Z.of_nat (length (split st)) <= ln - 1)%Z /\
   split st' = split st /\ changed st' = changed st /\ fixedHere st' = fixedHere st) \/
  (exists o, split st !! Z.to_nat (ln - 1) = Some o /\ Settled style o /\
   split st' = split st /\ changed st' = changed st /\ fixedHere st' = fixedHere st) \/
  (exists o, split st !! Z.to_nat (ln - 1) = Some o /\
   isAlreadyCommented o style = false /\ commentLine o style <> o /\
   split st' = <[Z.to_nat (ln - 1) := commentLine o style]> (split st) /\
   changed st' = true /\
   (0 <= ln - 1 < Z.of_nat (length (split st)))%Z).
Proof.
  unfold fixLine.
  destruct ((ln - 1 <? 0)%Z || (Z.of_nat (length (split st)) <=? ln - 1)%Z) eqn:Hrange.
  - left. split; [|auto]. apply orb_true_iff in Hrange as [H|H]; [left|right]; lia.
  - right. apply orb_false_iff in Hrange as [H1 H2].
    destruct (lookup_lt_is_Some_2 (split st) (Z.to_nat (ln - 1)) ltac:(lia)) as [o Ho].
    rewrite Ho. destruct (isAlreadyCommented o style) eqn:Hc.
    + left. exists o. unfold Settled. auto.
    + destruct (bool_decide_reflect (commentLine o style <> o)) as [Hne|Heq].
      * right. exists o. repeat split; auto; lia.
      * left. exists o. split; [reflexivity|]. split; [|auto]. right.
        destruct (decide (commentLine o style = o)); [assumption | contradiction].
Qed.

Lemma fixLine_summary (style : CommentStyle) (st : FileState) (ln : Z) :
  fixedFiles (fsummary (fixLine style st ln)) = fixedFiles (fsummary st) /\
  fixedLines (fsummary (fixLine style st ln)) = fixedLines (fsummary st).
Proof.
  unfold fixLine. destruct (_ || _); [auto|].
  destruct (split st !! _) as [o|]; [|auto].
  destruct (isAlreadyCommented o style); [auto|].
  destruct (bool_decide _); auto.
Qed.

(** What every turn keeps. *)
Record Kept (style : CommentStyle) (st st' : FileState) : Prop := {
  kept_length : length (split st') = length (split st);
  kept_LF : Forall (fun l => LF ∉ l) (split st) -> Forall (fun l => LF ∉ l) (split st');
  kept_inner : innerOK (split st) -> innerOK (split st');
  kept_settled : forall ln, SettledAt style (split st) ln -> SettledAt style (split st') ln;
  kept_fixedFiles : fixedFiles (fsummary st') = fixedFiles (fsummary st);
  kept_fixedLines : fixedLines (fsummary st') = fixedLines (fsummary st)
}.

Lemma Kept_refl style st : Kept style st st.
Proof. constructor; auto. Qed.

Lemma Kept_trans style st1 st2 st3 : Kept style st1 st2 -> Kept style st2 st3 -> Kept style st1 st3.
Proof.
  intros [] []. constructor; auto; congruence.
Qed.

Lemma SettledAt_same style ls ls' ln :
  ls' = ls -> SettledAt style ls ln -> SettledAt style ls' ln.
Proof. intros ->. auto. Qed.

Lemma fixLine_kept (style : CommentStyle) (st : FileState) (ln : Z) :
  tableStyle style -> Kept style st (fixLine style st ln).
Proof.
  intros Hstyle. pose proof (fixLine_summary style st ln) as [Hf1 Hf2].
  destruct (fixLine_cases style st ln)
    as [(_ & Hs & _)|[(o & _ & _ & Hs & _)|(o & Ho & Hc & Hne & Hs & _)]].
  - constructor; auto; rewrite Hs; auto.
  - constructor; auto; rewrite Hs; auto.
  - constructor; auto; rewrite Hs.
    + apply length_insert.
    + intros Hlf. apply Forall_insert; [exact Hlf|].
      apply commentLine_LF; [exact Hstyle|].
      rewrite Forall_forall in Hlf. apply Hlf. eapply list_elem_of_lookup_2, Ho.
    + intros Hin. apply (innerOK_insert _ _ o); [exact Hin | exact Ho |].
      apply commentLine_CR, Hstyle.
    + intros ln0 [Hout|(x & Hx & Hsx)].
      * left. rewrite length_insert. exact Hout.
      * right. destruct (decide (Z.to_nat (ln - 1) = Z.to_nat (ln0 - 1))) as [Heq|Hneq].
        -- rewrite <- Heq in Hx. rewrite Ho in Hx. injection Hx as <-.
           destruct Hsx as [Hsx|Hsx]; [congruence | contradiction].
        -- exists x. rewrite list_lookup_insert_ne by exact Hneq. auto.
Qed.

(** After its turn, the line of a line number is settled. *)
Lemma fixLine_settles (style : CommentStyle) (st : FileState) (ln : Z) :
  tableStyle style -> SettledAt style (split (fixLine style st ln)) ln.
Proof.
  intros Hstyle.
  destruct (fixLine_cases style st ln)
    as [(Hout & Hs & _)|[(o & Ho & Hset & Hs & _)|(o & Ho & Hc & Hne & Hs & _)]];
    rewrite Hs.
  - left. exact Hout.
  - right. eauto.
  - right. exists (commentLine o style).
    split; [apply list_lookup_insert_eq; eapply lookup_lt_Some, Ho|].
    destruct (commentLine_settled o style Hstyle) as [H|H]; [exact H | contradiction].
Qed.

(** A turn on a settled line changes nothing. *)
Lemma fixLine_noop (style : CommentStyle) (st : FileState) (ln : Z) :
  SettledAt style (split st) ln ->
  split (fixLine style st ln) = split st /\
  changed (fixLine style st ln) = changed st /\
  fixedHere (fixLine style st ln) = fixedHere st.
Proof.
  intros Hset.
  destruct (fixLine_cases style st ln)
    as [(_ & H)|[(o & _ & _ & H)|(o & Ho & Hc & Hne & _ & _ & Hin)]]; [exact H | exact H |].
  exfalso. destruct Hset as [Hout|(x & Hx & [Hsx|Hsx])].
  - lia.
  - rewrite Ho in Hx. injection Hx as <-. congruence.
  - rewrite Ho in Hx. injection Hx as <-. contradiction.
Qed.

Lemma fixLines_kept (style : CommentStyle) (lines : list Z) (st : FileState) :
  tableStyle style -> Kept style st (fold_left (fixLine style) lines st).
Proof.
  intros Hstyle. revert st; induction lines as [|ln rest IH]; intros st; simpl.
  - apply Kept_refl.
  - eapply Kept_trans; [apply fixLine_kept, Hstyle | apply IH].
Qed.

Lemma fixLines_settle (style : CommentStyle) (lines : list Z) (st : FileState) :
  tableStyle style ->
  Forall (SettledAt style (split (fold_left (fixLine style) lines st))) lines.
Proof.
  intros Hstyle. revert st; induction lines as [|ln rest IH]; intros st; simpl.
  - constructor.
  - constructor; [|apply IH].
    apply (kept_settled _ _ _ (fixLines_kept style rest _ Hstyle)).
    apply fixLine_settles, Hstyle.
Qed.

Lemma fixLines_noop (style : CommentStyle) (lines : list Z) (st : FileState) :
  Forall (SettledAt style (split st)) lines ->
  split (fold_left (fixLine style) lines st) = split st /\
  changed (fold_left (fixLine style) lines st) = changed st /\
  fixedHere (fold_left (fixLine style) lines st) = fixedHere st.
Proof.
  revert st; induction lines as [|ln rest IH]; intros st Hall; simpl; [auto|].
  inversion Hall as [|? ? Hln Hrest]; subst.
  destruct (fixLine_noop style st ln Hln) as (Hs & Hc & Hf).
  destruct (IH (fixLine style st ln)) as (Hs' & Hc' & Hf').
  - rewrite Hs. exact Hrest.
  - repeat split; congruence.
Qed.

(** The lines, the flag and the counter do not depend on the
    summary the loop starts with. *)
Lemma fixLines_summary (style : CommentStyle) (lines : list Z) (st st' : FileState) :
  split st = split st' -> changed st = changed st' -> fixedHere st = fixedHere st' ->
  split (fold_left (fixLine style) lines st) = split (fold_left (fixLine style) lines st') /\
  changed (fold_left (fixLine style) lines st) = changed (fold_left (fixLine style) lines st') /\
  fixedHere (fold_left (fixLine style) lines st) = fixedHere (fold_left (fixLine style) lines st').
Proof.
  revert st st'; induction lines as [|ln rest IH]; intros st st' Hs Hc Hf; simpl; [auto|].
  apply IH; unfold fixLine; rewrite <- Hs;
    destruct (_ || _); simpl; auto;
    destruct (split st !! _) as [o|]; simpl; auto;
    destruct (isAlreadyCommented o style); simpl; auto;
    destruct (bool_decide _); simpl; auto; congruence.
Qed.

Definition initState (content : jsstring) (summary : FixSummary) : FileState :=
  {| split := splitLines content; changed := false; fixedHere := 0; fsummary := summary |}.

Definition eolOf (content : jsstring) : jsstring :=
  if includes content [CR; LF] then [CR; LF] else [LF].

(** The text a run writes is split into the lines that were joined. *)
Lemma rewritten_lines (style : CommentStyle) (lines : list Z) (content : jsstring)
    (summary : FixSummary) :
  tableStyle style ->
  let st1 := fold_left (fixLine style) lines (initState content summary) in
  splitLines (join (eolOf content) (split st1)) = split st1.
Proof.
  intros Hstyle st1.
  pose proof (fixLines_kept style lines (initState content summary) Hstyle) as HK.
  fold st1 in HK.
  assert (Hne : split st1 <> []).
  { intros Hnil. pose proof (kept_length _ _ _ HK) as Hlen. rewrite Hnil in Hlen.
    simpl in Hlen. destruct (splitLines_cons content) as (l & ls & Heq).
    rewrite Heq in Hlen. discriminate. }
  assert (Hlf : Forall (fun l => LF ∉ l) (split st1))
    by (apply (kept_LF _ _ _ HK), splitLines_LF).
  unfold eolOf. destruct (includes content [CR; LF]) eqn:Hinc.
  - apply splitLines_join_CRLF; assumption.
  - apply splitLines_join_LF; [assumption | assumption |].
    apply (kept_inner _ _ _ HK), splitLines_inner, Hinc.
Qed.

(** A second pass over a text that was written finds every line
    settled. *)
Lemma second_pass (style : CommentStyle) (lines : list Z) (content : jsstring)
    (summary summary' : FixSummary) :
  tableStyle style ->
  let st1 := fold_left (fixLine style) lines (initState content summary) in
  let st2 := fold_left (fixLine style) lines
               (initState (join (eolOf content) (split st1)) summary') in
  changed st2 = false /\ fixedHere st2 = 0 /\ split st2 = split st1.
Proof.
  intros Hstyle st1 st2.
  destruct (fixLines_noop style lines
              (initState (join (eolOf content) (split st1)) summary')) as (Hs & Hc & Hf).
  - simpl. subst st1. rewrite rewritten_lines by exact Hstyle.
    apply fixLines_settle, Hstyle.
  - subst st2. rewrite Hs, Hc, Hf. simpl. repeat split.
    subst st1. apply rewritten_lines, Hstyle.
Qed.

(** ** All files *)

Section Applier.
Variable readable : jsstring -> bool.

(** The text [fixFile] writes into a file that holds [old], if it
    writes. *)
Definition newText (old : option jsstring) (file : jsstring) (lines : list Z)
    : option jsstring :=
  match getCommentStyle file, old with
  | Some style, Some content =>
      if readable content then
        let st' := fold_left (fixLine style) lines (initState content emptySummary) in
        if changed st' then Some (join (eolOf content) (split st')) else None
      else None
  | _, _ => None
  end.

Lemma fixFile_spec (files : Files) (summary : FixSummary) (file : jsstring) (lines : list Z) :
  let r := fixFile readable (files, summary) (file, lines) in
  fst r = match newText (files file) file lines with
          | Some text => write files file text
          | None => files
          end /\
  (newText (files file) file lines = None ->
   fixedFiles (snd r) = fixedFiles summary /\ fixedLines (snd r) = fixedLines summary).
Proof.
  unfold fixFile, newText, readText.
  destruct (getCommentStyle file) as [style|] eqn:Hstyle; [|simpl; auto].
  apply getCommentStyle_table in Hstyle.
  destruct (files file) as [content|]; [|simpl; auto].
  destruct (readable content); [|simpl; auto].
  fold (eolOf content). fold (initState content summary).
  destruct (fixLines_summary style lines (initState content summary)
              (initState content emptySummary)) as (Hs & Hc & _); try reflexivity.
  rewrite <- Hs, <- Hc.
  pose proof (fixLines_kept style lines (initState content summary) Hstyle) as HK.
  destruct (changed _); simpl; split; auto; try discriminate.
  intros _. split; [apply (kept_fixedFiles _ _ _ HK) | apply (kept_fixedLines _ _ _ HK)].
Qed.

(** A file that was rewritten is not rewritten again. *)
Lemma newText_again (old : option jsstring) (file : jsstring) (lines : list Z) (text : jsstring) :
  newText old file lines = Some text -> newText (Some text) file lines = None.
Proof.
  unfold newText. destruct (getCommentStyle file) as [style|] eqn:Hstyle; [|discriminate].
  apply getCommentStyle_table in Hstyle.
  destruct old as [content|]; [|discriminate].
  destruct (readable content); [|discriminate].
  destruct (changed _) eqn:Hch; [|discriminate].
  intros [= <-]. destruct (readable _); [|reflexivity].
  destruct (second_pass style lines content emptySummary emptySummary Hstyle) as (-> & _).
  reflexivity.
Qed.

Definition fixAll (byFile : list (jsstring * list Z)) (st : Files * FixSummary)
    : Files * FixSummary :=
  fold_left (fixFile readable) byFile st.

Lemma fixAll_cons (entry : jsstring * list Z) (rest : list (jsstring * list Z))
    (st : Files * FixSummary) :
  fixAll (entry :: rest) st = fixAll rest (fixFile readable st entry).
Proof. reflexivity. Qed.

(** A run leaves the files it has no entry for. *)
Lemma fixAll_other (byFile : list (jsstring * list Z)) (files : Files) (summary : FixSummary)
    (p : jsstring) :
  ~ In p (map fst byFile) -> fst (fixAll byFile (files, summary)) p = files p.
Proof.
  revert files summary; induction byFile as [|[f lines] rest IH]; intros files summary Hp;
    [reflexivity|].
  rewrite fixAll_cons.
  destruct (fixFile readable (files, summary) (f, lines)) as [files' summary'] eqn:Hstep.
  rewrite IH by (intros H; apply Hp; simpl; auto).
  pose proof (fixFile_spec files summary f lines) as [Hfiles _]. rewrite Hstep in Hfiles.
  simpl in Hfiles. rewrite Hfiles.
  destruct (newText (files f) f lines); [|reflexivity].
  unfold write. rewrite bool_decide_false; [reflexivity|].
  intros ->. apply Hp. simpl. auto.
Qed.

(** The text a run leaves in a file it has an entry for. *)
Lemma fixAll_entry (byFile : list (jsstring * list Z)) (files : Files) (summary : FixSummary)
    (f : jsstring) (lines : list Z) :
  List.NoDup (map fst byFile) -> In (f, lines) byFile ->
  fst (fixAll byFile (files, summary)) f =
  match newText (files f) f lines with
  | Some text => Some text
  | None => files f
  end.
Proof.
  revert files summary; induction byFile as [|[f' lines'] rest IH]; intros files summary Hnd Hin;
    [contradiction|].
  inversion Hnd as [|? ? Hf' Hrest]; subst.
  rewrite fixAll_cons.
  destruct (fixFile readable (files, summary) (f', lines')) as [files' summary'] eqn:Hstep.
  pose proof (fixFile_spec files summary f' lines') as [Hfiles _]. rewrite Hstep in Hfiles.
  simpl in Hfiles.
  destruct Hin as [[= -> ->]|Hin].
  - rewrite fixAll_other by exact Hf'. rewrite Hfiles.
    destruct (newText (files f) f lines); [|reflexivity].
    unfold write. rewrite bool_decide_true; reflexivity.
  - rewrite (IH files' summary' Hrest Hin).
    assert (Hne : f <> f').
    { intros ->. apply Hf'. apply in_map_iff. exists (f', lines). auto. }
    assert (Hsame : files' f = files f).
    { rewrite Hfiles. destruct (newText (files f') f' lines'); [|reflexivity].
      unfold write. rewrite bool_decide_false; [reflexivity | exact Hne]. }
    rewrite Hsame. reflexivity.
Qed.

(** A run that has nothing to write leaves the files as they are. *)
Lemma fixAll_nothing (byFile : list (jsstring * list Z)) (files : Files) (summary : FixSummary) :
  (forall f lines, In (f, lines) byFile -> newText (files f) f lines = None) ->
  fst (fixAll byFile (files, summary)) = files /\
  fixedFiles (snd (fixAll byFile (files, summary))) = fixedFiles summary /\
  fixedLines (snd (fixAll byFile (files, summary))) = fixedLines summary.
Proof.
  revert summary; induction byFile as [|[f lines] rest IH]; intros summary Hnone; [auto|].
  rewrite !fixAll_cons.
  destruct (fixFile readable (files, summary) (f, lines)) as [files' summary'] eqn:Hstep.
  pose proof (fixFile_spec files summary f lines) as [Hfiles Hsum]. rewrite Hstep in *.
  simpl in Hfiles, Hsum. rewrite (Hnone f lines ltac:(simpl; auto)) in *.
  subst files'. destruct (Hsum eq_refl) as [Hs1 Hs2].
  destruct (IH summary') as (H1 & H2 & H3).
  - intros f0 lines0 H0. apply Hnone. simpl. auto.
  - repeat split; congruence.
Qed.

(** The files a run leaves do not depend on the summary it starts
    with. *)
Lemma fixAll_files (byFile : list (jsstring * list Z)) (files : Files) (s s' : FixSummary) :
  fst (fixAll byFile (files, s)) = fst (fixAll byFile (files, s')).
Proof.
  revert files s s'; induction byFile as [|[f lines] rest IH]; intros files s s'; [reflexivity|].
  rewrite !fixAll_cons.
  destruct (fixFile readable (files, s) (f, lines)) as [files1 s1] eqn:H1.
  destruct (fixFile readable (files, s') (f, lines)) as [files2 s2] eqn:H2.
  pose proof (fixFile_spec files s f lines) as [Hf1 _]. rewrite H1 in Hf1.
  pose proof (fixFile_spec files s' f lines) as [Hf2 _]. rewrite H2 in Hf2.
  simpl in Hf1, Hf2. rewrite Hf1, Hf2. apply IH.
Qed.

End Applier.

(** ** Grouping *)

Lemma addToFile_keys (byFile : list (jsstring * list Z)) (f : jsstring) (ln : Z) :
  map fst (addToFile byFile f ln) =
  if bool_decide (f ∈ map fst byFile) then map fst byFile else map fst byFile ++ [f].
Proof.
  induction byFile as [|[f' lines] rest IH]; simpl; [reflexivity|].
  destruct (bool_decide_reflect (f' = f)) as [->|Hne]; simpl.
  - rewrite bool_decide_true by apply list_elem_of_here. reflexivity.
  - rewrite IH. destruct (bool_decide_reflect (f ∈ map fst rest)) as [Hin|Hnin].
    + rewrite bool_decide_true by (apply list_elem_of_further, Hin). reflexivity.
    + rewrite bool_decide_false; [reflexivity|].
      intros [H|H]%elem_of_cons; [congruence | contradiction].
Qed.

Lemma addToFile_NoDup (byFile : list (jsstring * list Z)) (f : jsstring) (ln : Z) :
  List.NoDup (map fst byFile) -> List.NoDup (map fst (addToFile byFile f ln)).
Proof.
  intros Hnd. rewrite addToFile_keys.
  destruct (bool_decide_reflect (f ∈ map fst byFile)) as [Hin|Hnin]; [exact Hnd|].
  apply NoDup_ListNoDup. apply NoDup_app. repeat split.
  - apply NoDup_ListNoDup, Hnd.
  - intros x Hx [->|H]%elem_of_cons; [contradiction | inversion H].
  - apply NoDup_singleton.
Qed.

Lemma groupByFile_NoDup (findings : list Finding) (byFile : list (jsstring * list Z))
    (summary : FixSummary) :
  List.NoDup (map fst byFile) ->
  List.NoDup (map fst (fst (groupByFile findings byFile summary))).
Proof.
  revert byFile summary; induction findings as [|x rest IH]; intros byFile summary Hnd;
    simpl; [exact Hnd|].
  destruct (line x) as [ln|]; [|apply IH, Hnd].
  destruct (ln =? 0)%Z; [apply IH, Hnd|].
  destruct (isHeuristic x); [apply IH, Hnd|].
  apply IH, addToFile_NoDup, Hnd.
Qed.

Lemma groupByFile_fixed (findings : list Finding) (byFile : list (jsstring * list Z))
    (summary : FixSummary) :
  fixedFiles (snd (groupByFile findings byFile summary)) = fixedFiles summary /\
  fixedLines (snd (groupByFile findings byFile summary)) = fixedLines summary.
Proof.
  revert byFile summary; induction findings as [|x rest IH]; intros byFile summary;
    simpl; [auto|].
  destruct (line x) as [ln|]; [|exact (IH byFile (skipLines summary 1 (js "missing-line")))].
  destruct (ln =? 0)%Z; [exact (IH byFile (skipLines summary 1 (js "missing-line")))|].
  destruct (isHeuristic x); [exact (IH byFile (skipLines summary 1 (js "heuristic")))|].
  apply IH.
Qed.

(** The groups are those of the findings that are not skipped. *)
Lemma groupByFile_fixable (findings : list Finding) (byFile : list (jsstring * list Z))
    (s s' : FixSummary) :
  fst (groupByFile findings byFile s) =
  fst (groupByFile (List.filter fixable findings) byFile s').
Proof.
  revert byFile s s'; induction findings as [|x rest IH]; intros byFile s s'; [reflexivity|].
  simpl. unfold fixable at 1. destruct (line x) as [ln|] eqn:Hline; [|apply IH].
  destruct (ln =? 0)%Z eqn:Hz; simpl; [apply IH|].
  destruct (isHeuristic x) eqn:Hh; simpl; [apply IH|].
  rewrite Hline, Hz, Hh. apply IH.
Qed.

(** C9: [applyFixes] run a second time on the same findings, over
    the files the first run left, writes no file: the files are the
    same, every one with the text it had, and the second summary counts
    no fixed file and no fixed line.  The reason is that a line the
    first run rewrote is classified as already commented under the
    style of its file.  Findings that are heuristic or have no line
    (or line 0) have no effect on any file: the files a run leaves are
    those it leaves for the other findings alone, and the files are
    untouched when all findings are of that kind. *)
Theorem applyFixes_idempotent (readable : jsstring -> bool) (files : Files)
    (findings : list Finding) :
  let first := applyFixes readable files findings in
  let second := applyFixes readable (fst first) findings in
  (fst second = fst first /\ forall path, fst second path = fst first path) /\
  (fixedFiles (snd second) = 0 /\ fixedLines (snd second) = 0) /\
  (forall filePath style l,
     getCommentStyle filePath = Some style -> commentLine l style <> l ->
     isAlreadyCommented (commentLine l style) style = true) /\
  fst first = fst (applyFixes readable files (List.filter fixable findings)) /\
  ((forall f, In f findings -> fixable f = false) -> fst first = files).
Proof.
  intros first second.
  assert (Hfirst : first = fixAll readable (fst (groupByFile findings [] emptySummary))
                             (files, snd (groupByFile findings [] emptySummary))).
  { subst first. unfold applyFixes.
    destruct (groupByFile findings [] emptySummary); reflexivity. }
  assert (Hsecond : second = fixAll readable (fst (groupByFile findings [] emptySummary))
                               (fst first, snd (groupByFile findings [] emptySummary))).
  { subst second. unfold applyFixes.
    destruct (groupByFile findings [] emptySummary); reflexivity. }
  set (byFile := fst (groupByFile findings [] emptySummary)) in *.
  set (s0 := snd (groupByFile findings [] emptySummary)) in *.
  assert (Hnd : List.NoDup (map fst byFile))
    by (apply groupByFile_NoDup; constructor).
  destruct (fixAll_nothing readable byFile (fst first) s0) as (Hfiles & Hff & Hfl).
  { intros f lines Hin. rewrite Hfirst.
    rewrite (fixAll_entry readable byFile files s0 f lines Hnd Hin).
    destruct (newText readable (files f) f lines) as [text|] eqn:Hnew; [|exact Hnew].
    apply (newText_again readable _ _ _ _ Hnew). }
  rewrite <- Hsecond in Hfiles, Hff, Hfl.
  pose proof (groupByFile_fixed findings [] emptySummary) as [Hg1 Hg2]. fold s0 in Hg1, Hg2.
  split; [split; [exact Hfiles | intros path; rewrite Hfiles; reflexivity]|].
  split; [split; [rewrite Hff; exact Hg1 | rewrite Hfl; exact Hg2]|].
  split.
  { intros filePath style l Hstyle Hne. apply getCommentStyle_table in Hstyle.
    destruct (commentLine_cases l style Hstyle) as [Heq|(i & c & _ & _ & _ & H & _)];
      [contradiction | exact H]. }
  assert (Hskip : fst first = fst (applyFixes readable files (List.filter fixable findings))).
  { rewrite Hfirst. unfold applyFixes.
    destruct (groupByFile (List.filter fixable findings) [] emptySummary) as [byFile' s'] eqn:Hg.
    subst byFile. rewrite (groupByFile_fixable findings [] emptySummary emptySummary), Hg.
    apply (fixAll_files readable). }
  split; [exact Hskip|].
  intros Hall. rewrite Hskip.
  replace (List.filter fixable findings) with (@nil Finding); [reflexivity|].
  clear -Hall. induction findings as [|x rest IH]; [reflexivity|].
  simpl. rewrite (Hall x) by (simpl; auto). apply IH. intros f Hf. apply Hall. simpl. auto.
Qed.

Lemma applyFixes_idempotent_witness :
  let first := applyFixes (fun _ => true) sampleFiles sampleFindings in
  let second := applyFixes (fun _ => true) (fst first) sampleFindings in
  fst first (js "/t/test.md") =
    Some (js "Line 1" ++ [LF] ++ js "  <!-- Problematic line -->" ++ [LF] ++ js "Line 3") /\
  fst first (js "/t/a.py") =
    Some (js "import os" ++ [CR; LF] ++ js "# eval('x')" ++ [CR; LF] ++ js "# done") /\
  fst second = fst first /\
  fixedLines (snd first) = 2 /\ fixedLines (snd second) = 0 /\
  isAlreadyCommented (commentLine (js "  Problematic line") htmlStyle) htmlStyle = true /\
  fst (applyFixes (fun _ => true) sampleFiles skippedFindings) = sampleFiles.
Proof.
  intros first second.
  destruct (applyFixes_idempotent (fun _ => true) sampleFiles sampleFindings)
    as ((Hsame & _) & (_ & Hlines) & Hline & _).
  destruct (applyFixes_idempotent (fun _ => true) sampleFiles skippedFindings)
    as (_ & _ & _ & _ & Hskipped).
  split; [vm_compute; reflexivity|]. split; [vm_compute; reflexivity|].
  split; [exact Hsame|]. split; [vm_compute; reflexivity|]. split; [exact Hlines|].
  split.
  - apply (Hline (js "/t/test.md") htmlStyle); [vm_compute; reflexivity|].
    vm_compute. discriminate.
  - apply Hskipped. intros f [<-|[<-|[<-|[]]]]; reflexivity.
Defined.

End FixProofs.

(* ===================================================================== *)
(** * What [applyFixes] changes, line by line *)
(* ===================================================================== *)

Module FixLineProofs.
Import Fix FixProofs.

Lemma differing_same (ls : list jsstring) : differing ls ls = 0.
Proof.
  induction ls as [|l ls IH]; simpl; [reflexivity|].
  destruct (decide (l = l)); [exact IH | congruence].
Qed.

Lemma changedLines_same (text : option jsstring) : changedLines text text = 0.
Proof. destruct text; [apply differing_same | reflexivity]. Qed.

Lemma differing_insert (before after : list jsstring) (j : nat) (o y : jsstring) :
  before !! j = Some o -> after !! j = Some o -> y <> o ->
  differing before (<[j := y]> after) = S (differing before after).
Proof.
  revert after j; induction before as [|x before IH]; intros [|z after] j Hb Ha Hy;
    try discriminate.
  destruct j as [|j]; simpl in *.
  - injection Hb as ->. injection Ha as ->.
    destruct (decide (o = y)); [congruence|]. destruct (decide (o = o)); [reflexivity | congruence].
  - rewrite (IH after j Hb Ha Hy). lia.
Qed.

Section Trace.
Variable style : CommentStyle.
Hypothesis Hstyle : tableStyle style.
(** The lines of the file as it was read, and the line numbers the
    findings name for it. *)
Variable original : list jsstring.
Variable numbers : list Z.

(** What the loop over the line numbers keeps: a line is as it was
    read or is the comment made of it, the comments are counted, and
    the flag is set as soon as one is made. *)
Record Traced (st : FileState) : Prop := {
  traced_length : length (split st) = length original;
  traced_lines : forall i o, original !! i = Some o ->
    split st !! i = Some o \/
    (In (Z.of_nat i + 1)%Z numbers /\ isAlreadyCommented o style = false /\
     commentLine o style <> o /\ split st !! i = Some (commentLine o style));
  traced_count : fixedHere st = differing original (split st);
  traced_changed : changed st = true <-> 0 < fixedHere st
}.

Lemma fixLine_traced (st : FileState) (ln : Z) :
  In ln numbers -> Traced st -> Traced (fixLine style st ln).
Proof.
  intros Hln [Hlen Hlines Hcount Hchanged]. unfold fixLine.
  destruct ((ln - 1 <? 0)%Z || (Z.of_nat (length (split st)) <=? ln - 1)%Z) eqn:Hrange.
  { constructor; assumption. }
  apply orb_false_iff in Hrange as [H1 H2]. apply Z.ltb_ge in H1. apply Z.leb_gt in H2.
  destruct (lookup_lt_is_Some_2 (split st) (Z.to_nat (ln - 1)) ltac:(lia)) as [x Hx].
  rewrite Hx. destruct (isAlreadyCommented x style) eqn:Hc; [constructor; assumption|].
  destruct (bool_decide_reflect (commentLine x style <> x)) as [Hne|Heq];
    [|constructor; assumption].
  destruct (lookup_lt_is_Some_2 original (Z.to_nat (ln - 1)) ltac:(lia)) as [o Ho].
  assert (Hxo : x = o).
  { destruct (Hlines _ _ Ho) as [H|(_ & _ & Hdiff & H)]; rewrite Hx in H; injection H as ->;
      [reflexivity|].
    destruct (commentLine_cases o style Hstyle) as [Hsame|(_ & _ & _ & _ & _ & Hcom & _)];
      congruence. }
  subst x. constructor; cbn [split changed fixedHere].
  - rewrite length_insert. exact Hlen.
  - intros i o' Ho'. destruct (decide (i = Z.to_nat (ln - 1))) as [->|Hi].
    + rewrite Ho in Ho'. injection Ho' as <-. right.
      replace (Z.of_nat (Z.to_nat (ln - 1)) + 1)%Z with ln by lia.
      repeat split; auto. apply list_lookup_insert_eq. lia.
    + rewrite list_lookup_insert_ne by congruence. apply Hlines, Ho'.
  - rewrite (differing_insert original (split st) _ o) by assumption. lia.
  - split; [lia | reflexivity].
Qed.

Lemma fixLines_traced (lines : list Z) (st : FileState) :
  (forall ln, In ln lines -> In ln numbers) -> Traced st ->
  Traced (fold_left (fixLine style) lines st).
Proof.
  revert st; induction lines as [|ln rest IH]; intros st Hsub Hst; [exact Hst|].
  simpl. apply IH; [intros; apply Hsub; right; assumption|].
  apply fixLine_traced; [apply Hsub; left; reflexivity | exact Hst].
Qed.

End Trace.

Lemma initState_traced (style : CommentStyle) (numbers : list Z) (content : jsstring)
    (summary : FixSummary) :
  Traced style (splitLines content) numbers (initState content summary).
Proof.
  constructor; cbn [initState split changed fixedHere]; auto.
  - symmetry. apply differing_same.
  - split; [discriminate | lia].
Qed.

(** The lines of a file after the loop over its line numbers. *)
Lemma fixLines_trace (style : CommentStyle) (lines : list Z) (content : jsstring)
    (summary : FixSummary) :
  tableStyle style ->
  Traced style (splitLines content) lines
    (fold_left (fixLine style) lines (initState content summary)).
Proof.
  intros Hstyle. apply fixLines_traced; [exact Hstyle | auto | apply initState_traced].
Qed.

(** ** The line numbers of a group *)

Lemma addToFile_lines (byFile : list (jsstring * list Z)) (f' : jsstring) (ln' : Z)
    (f : jsstring) (lines : list Z) (ln : Z) :
  In (f, lines) (addToFile byFile f' ln') -> In ln lines ->
  (exists lines0, In (f, lines0) byFile /\ In ln lines0) \/ (f = f' /\ ln = ln').
Proof.
  induction byFile as [|[g ls] rest IH]; simpl.
  - intros [[= <- <-]|[]] [<-|[]]. right. auto.
  - destruct (bool_decide_reflect (g = f')) as [->|Hne]; simpl.
    + intros [[= <- <-]|Hin] Hln.
      * unfold addLine in Hln. destruct (bool_decide (ln' ∈ ls)).
        -- left. exists ls. auto.
        -- apply in_app_iff in Hln as [Hln|[<-|[]]]; [left; exists ls; auto | right; auto].
      * left. exists lines. auto.
    + intros [[= <- <-]|Hin] Hln.
      * left. exists ls. auto.
      * destruct (IH Hin Hln) as [(lines0 & H0 & H1)|H]; [left; exists lines0; auto | right; exact H].
Qed.

Lemma groupByFile_lines (findings : list Finding) (byFile : list (jsstring * list Z))
    (summary : FixSummary) (f : jsstring) (lines : list Z) (ln : Z) :
  In (f, lines) (fst (groupByFile findings byFile summary)) -> In ln lines ->
  (exists lines0, In (f, lines0) byFile /\ In ln lines0) \/
  (exists finding, In finding findings /\ fixable finding = true /\
     file finding = f /\ line finding = Some ln).
Proof.
  revert byFile summary; induction findings as [|x rest IH]; intros byFile summary; simpl;
    [intros; left; eauto|].
  assert (Hskip : forall s,
    In (f, lines) (fst (groupByFile rest byFile s)) -> In ln lines ->
    (exists lines0, In (f, lines0) byFile /\ In ln lines0) \/
    (exists finding, (x = finding \/ In finding rest) /\ fixable finding = true /\
       file finding = f /\ line finding = Some ln)).
  { intros s Hin Hln. destruct (IH _ _ Hin Hln) as [H|(finding & H0 & H1)]; [auto|].
    right. exists finding. auto. }
  destruct (line x) as [n|] eqn:Hline; [|apply Hskip].
  destruct (n =? 0)%Z eqn:Hz; [apply Hskip|].
  destruct (isHeuristic x) eqn:Hh; [apply Hskip|].
  intros Hin Hln. destruct (IH _ _ Hin Hln) as [(lines0 & H0 & H1)|(finding & H0 & H1)].
  - destruct (addToFile_lines _ _ _ _ _ _ H0 H1) as [H|[-> ->]]; [auto|].
    right. exists x. repeat split; auto. unfold fixable. rewrite Hline, Hz, Hh. reflexivity.
  - right. exists finding. auto.
Qed.

Lemma groupByFile_keys (findings : list Finding) (byFile : list (jsstring * list Z))
    (summary : FixSummary) (p : jsstring) :
  In p (map fst (fst (groupByFile findings byFile summary))) <->
  In p (map fst byFile) \/
  exists finding, In finding findings /\ fixable finding = true /\ file finding = p.
Proof.
  revert byFile summary; induction findings as [|x rest IH]; intros byFile summary; simpl.
  - split; [auto | intros [H|(finding & [] & _)]; exact H].
  - assert (Hskip : forall s, fixable x = false ->
      (In p (map fst (fst (groupByFile rest byFile s))) <->
       In p (map fst byFile) \/
       exists finding, (x = finding \/ In finding rest) /\ fixable finding = true /\
         file finding = p)).
    { intros s Hx. rewrite IH. split; intros [H|(finding & H0 & H1 & H2)]; auto.
      - right. exists finding. auto.
      - destruct H0 as [<-|H0]; [congruence|]. right. exists finding. auto. }
    unfold fixable in Hskip. destruct (line x) as [n|] eqn:Hline; [|apply Hskip; reflexivity].
    destruct (n =? 0)%Z eqn:Hz; [apply Hskip; reflexivity|].
    destruct (isHeuristic x) eqn:Hh; [apply Hskip; reflexivity|].
    rewrite IH, addToFile_keys.
    assert (Hx : fixable x = true) by (unfold fixable; rewrite Hline, Hz, Hh; reflexivity).
    destruct (bool_decide_reflect (file x ∈ map fst byFile)) as [Hin|Hout].
    + split; intros [H|(finding & H0 & H1 & H2)]; auto.
      * right. exists finding. auto.
      * destruct H0 as [<-|H0]; [left; subst p; apply list_elem_of_In, Hin|].
        right. exists finding. auto.
    + rewrite in_app_iff. simpl. split.
      * intros [[H|[<-|[]]]|(finding & H0 & H1 & H2)]; auto.
        -- right. exists x. auto.
        -- right. exists finding. auto.
      * intros [H|(finding & [<-|H0] & H1 & H2)]; auto.
        right. exists finding. auto.
Qed.

Section Applier.
Variable readable : jsstring -> bool.

(** What the body of the loop over the files does to the counters
    and to the files. *)
Lemma fixFile_counts (files : Files) (summary : FixSummary) (f : jsstring) (lines : list Z) :
  let r := fixFile readable (files, summary) (f, lines) in
  fixedLines (snd r) = fixedLines summary + changedLines (files f) (fst r f) /\
  fixedFiles (snd r) =
    fixedFiles summary + (if 0 <? changedLines (files f) (fst r f) then 1 else 0) /\
  (forall p, p <> f -> fst r p = files p).
Proof.
  cbn zeta. unfold fixFile, readText.
  assert (Hsame : forall s : FixSummary,
    fixedLines s = fixedLines summary -> fixedFiles s = fixedFiles summary ->
    fixedLines (snd (files, s)) = fixedLines summary + changedLines (files f) (fst (files, s) f) /\
    fixedFiles (snd (files, s)) =
      fixedFiles summary + (if 0 <? changedLines (files f) (fst (files, s) f) then 1 else 0) /\
    (forall p, p <> f -> fst (files, s) p = files p)).
  { intros s H1 H2. cbn [fst snd]. rewrite changedLines_same. simpl. repeat split; auto; lia. }
  destruct (getCommentStyle f) as [style|] eqn:Hstyle; [|apply Hsame; reflexivity].
  apply getCommentStyle_table in Hstyle.
  destruct (files f) as [content|] eqn:Hf; [|apply Hsame; reflexivity].
  destruct (readable content); [|apply Hsame; reflexivity].
  fold (eolOf content). fold (initState content summary).
  pose proof (fixLines_trace style lines content summary Hstyle) as [_ _ Hcount Hchanged].
  pose proof (fixLines_kept style lines (initState content summary) Hstyle) as HK.
  pose proof (rewritten_lines style lines content summary Hstyle) as Hsplit. cbn zeta in Hsplit.
  set (st' := fold_left (fixLine style) lines (initState content summary)) in *.
  destruct (changed st') eqn:Hch.
  - cbn [fst snd fixedFile fixedLines fixedFiles]. unfold write.
    rewrite bool_decide_true by reflexivity. cbn [changedLines].
    match goal with
    | |- context [differing ?a ?b] =>
        replace (differing a b) with (fixedHere st')
          by (rewrite Hcount; f_equal; symmetry; exact Hsplit)
    end.
    rewrite (kept_fixedLines _ _ _ HK), (kept_fixedFiles _ _ _ HK). cbn [initState fsummary].
    assert (Hpos : 0 < fixedHere st') by (apply Hchanged; reflexivity).
    replace (0 <? fixedHere st') with true by (symmetry; apply Nat.ltb_lt, Hpos).
    repeat split; auto. intros p Hp. rewrite bool_decide_false by exact Hp. reflexivity.
  - apply Hsame.
    + apply (kept_fixedLines _ _ _ HK).
    + apply (kept_fixedFiles _ _ _ HK).
Qed.

Lemma fixAll_counts (byFile : list (jsstring * list Z)) (files : Files) (summary : FixSummary) :
  List.NoDup (map fst byFile) ->
  let r := fixAll readable byFile (files, summary) in
  fixedLines (snd r) =
    fixedLines summary + sum_list ((fun p => changedLines (files p) (fst r p)) <$> map fst byFile) /\
  fixedFiles (snd r) =
    fixedFiles summary +
    length (List.filter (fun p => 0 <? changedLines (files p) (fst r p)) (map fst byFile)).
Proof.
  revert files summary; induction byFile as [|[f lines] rest IH]; intros files summary Hnd;
    cbn zeta.
  - simpl. split; lia.
  - inversion Hnd as [|? ? Hf Hrest]; subst. rewrite fixAll_cons.
    pose proof (fixFile_counts files summary f lines) as (Hl & Hn & Hother). cbn zeta in *.
    destruct (fixFile readable (files, summary) (f, lines)) as [files1 summary1] eqn:Hstep.
    cbn [fst snd] in *.
    destruct (IH files1 summary1 Hrest) as [IHl IHn]. cbn zeta in *.
    set (r := fixAll readable rest (files1, summary1)) in *.
    assert (Hfinal : fst r f = files1 f) by (apply fixAll_other; exact Hf).
    assert (Hrestsame : forall p, In p (map fst rest) -> files1 p = files p).
    { intros p Hp. apply Hother. intros ->. contradiction. }
    assert (Hmap : (fun p => changedLines (files1 p) (fst r p)) <$> map fst rest =
                   (fun p => changedLines (files p) (fst r p)) <$> map fst rest).
    { apply list_fmap_ext. intros i p Hp. rewrite Hrestsame; [reflexivity|].
      apply list_elem_of_In. eapply list_elem_of_lookup_2, Hp. }
    assert (Hfil : List.filter (fun p => 0 <? changedLines (files1 p) (fst r p)) (map fst rest) =
                   List.filter (fun p => 0 <? changedLines (files p) (fst r p)) (map fst rest)).
    { apply List.filter_ext_in. intros p Hp. rewrite Hrestsame by exact Hp. reflexivity. }
    cbn [map fst fmap list_fmap sum_list sum_list_with List.filter]. rewrite Hfinal.
    rewrite Hmap in IHl. rewrite Hfil in IHn. split.
    + rewrite IHl, Hl. unfold id. lia.
    + rewrite IHn, Hn. destruct (0 <? changedLines (files f) (files1 f)); simpl; lia.
Qed.

(** X26: the counters of the summary are exact.  Over the paths that
    the findings which are not skipped name, each taken once,
    [fixedLines] is the number of lines that differ between the files
    as they were and as [applyFixes] leaves them, and [fixedFiles] is
    the number of these files in which a line differs. *)
Theorem applyFixes_counts (files : Files) (findings : list Finding) :
  let r := applyFixes readable files findings in
  exists paths,
    List.NoDup paths /\
    (forall p, In p paths <->
       exists finding, In finding findings /\ fixable finding = true /\ file finding = p) /\
    fixedLines (snd r) = sum_list ((fun p => changedLines (files p) (fst r p)) <$> paths) /\
    fixedFiles (snd r) =
      length (List.filter (fun p => 0 <? changedLines (files p) (fst r p)) paths).
Proof.
  cbn zeta. unfold applyFixes.
  destruct (groupByFile findings [] emptySummary) as [byFile summary] eqn:Hgroup.
  exists (map fst byFile).
  assert (Hby : byFile = fst (groupByFile findings [] emptySummary)) by (rewrite Hgroup; reflexivity).
  assert (Hsum : summary = snd (groupByFile findings [] emptySummary)) by (rewrite Hgroup; reflexivity).
  assert (Hnd : List.NoDup (map fst byFile)).
  { rewrite Hby. apply groupByFile_NoDup. constructor. }
  split; [exact Hnd|]. split.
  - intros p. rewrite Hby, groupByFile_keys. simpl. tauto.
  - destruct (fixAll_counts byFile files summary Hnd) as [Hl Hn]. cbn zeta in *.
    unfold fixAll in *. rewrite Hl, Hn.
    destruct (groupByFile_fixed findings [] emptySummary) as [H1 H2].
    rewrite <- Hsum in H1, H2. rewrite H1, H2. simpl. split; reflexivity.
Qed.

(** X27: what [applyFixes] does to one file.  It creates no file and
    removes none.  A file keeps the number of its lines, and each of
    its lines is as it was or is the comment that [commentLine] makes
    of it under the style of the file; the second only for a line that
    a finding which is not skipped names and that was not classified
    as commented.  A file in which no line changes keeps its text. *)
Theorem applyFixes_lines (files : Files) (findings : list Finding) (f : jsstring) :
  let files' := fst (applyFixes readable files findings) in
  match files f with
  | None => files' f = None
  | Some content =>
      exists text,
        files' f = Some text /\
        length (splitLines text) = length (splitLines content) /\
        ((forall i, splitLines text !! i = splitLines content !! i) -> text = content) /\
        forall i o, splitLines content !! i = Some o ->
          splitLines text !! i = Some o \/
          exists style finding,
            getCommentStyle f = Some style /\
            In finding findings /\ fixable finding = true /\ file finding = f /\
            line finding = Some (Z.of_nat i + 1)%Z /\
            isAlreadyCommented o style = false /\
            splitLines text !! i = Some (commentLine o style)
  end.
Proof.
  cbn zeta. unfold applyFixes.
  destruct (groupByFile findings [] emptySummary) as [byFile summary] eqn:Hgroup.
  assert (Hby : byFile = fst (groupByFile findings [] emptySummary)) by (rewrite Hgroup; reflexivity).
  assert (Hnd : List.NoDup (map fst byFile)).
  { rewrite Hby. apply groupByFile_NoDup. constructor. }
  fold (fixAll readable byFile (files, summary)).
  assert (Hkeep : fst (fixAll readable byFile (files, summary)) f = files f ->
    match files f with
    | None => fst (fixAll readable byFile (files, summary)) f = None
    | Some content =>
        exists text,
          fst (fixAll readable byFile (files, summary)) f = Some text /\
          length (splitLines text) = length (splitLines content) /\
          ((forall i, splitLines text !! i = splitLines content !! i) -> text = content) /\
          forall i o, splitLines content !! i = Some o ->
            splitLines text !! i = Some o \/
            exists style finding,
              getCommentStyle f = Some style /\
              In finding findings /\ fixable finding = true /\ file finding = f /\
              line finding = Some (Z.of_nat i + 1)%Z /\
              isAlreadyCommented o style = false /\
              splitLines text !! i = Some (commentLine o style)
    end).
  { intros ->. destruct (files f) as [content|]; [|reflexivity].
    exists content. repeat split; auto. }
  destruct (decide (f ∈ map fst byFile)) as [Hin|Hout].
  2:{ apply Hkeep, fixAll_other. intros H. apply Hout, list_elem_of_In, H. }
  apply list_elem_of_In in Hin.
  apply in_map_iff in Hin as ([f0 lines] & Hf0 & Hin). simpl in Hf0. subst f0.
  pose proof (fixAll_entry readable byFile files summary f lines Hnd Hin) as Hentry.
  unfold newText in Hentry.
  destruct (getCommentStyle f) as [style|] eqn:Hstyle; [|apply Hkeep, Hentry].
  pose proof (getCommentStyle_table _ _ Hstyle) as Htable.
  destruct (files f) as [content|] eqn:Hf; [|exact Hentry].
  destruct (readable content); [|apply Hkeep; rewrite Hentry; reflexivity].
  pose proof (fixLines_trace style lines content emptySummary Htable) as [Hlen Hlines Hcount Hchanged].
  pose proof (rewritten_lines style lines content emptySummary Htable) as Hsplit.
  cbn zeta in Hsplit, Hentry.
  set (st' := fold_left (fixLine style) lines (initState content emptySummary)) in *.
  destruct (changed st') eqn:Hch; [|apply Hkeep; rewrite Hentry; reflexivity].
  exists (join (eolOf content) (split st')). rewrite Hsplit.
  split; [exact Hentry|]. split; [exact Hlen|]. split.
  - intros Hall. exfalso.
    assert (Heq : split st' = splitLines content) by (apply list_eq, Hall).
    rewrite Heq, differing_same in Hcount.
    assert (0 < fixedHere st') by (apply Hchanged; reflexivity). lia.
  - intros i o Ho. destruct (Hlines i o Ho) as [H|(Hnum & Hc & _ & H)]; [auto|].
    right. rewrite Hby in Hin.
    destruct (groupByFile_lines _ _ _ _ _ _ Hin Hnum) as [(lines0 & [] & _)|(finding & H0 & H1 & H2 & H3)].
    exists style, finding. repeat split; auto.
Qed.

End Applier.

End FixLineProofs.

(* ===================================================================== *)
(** * Properties of one request and of its retries *)
(* ===================================================================== *)

Module McpRequestProofs.
Import McpClient McpRequest.

Section Request.
Context {T : Type}.
Variable parse : jsstring -> option (Json T).
Variable random : nat -> Q.

Lemma respond_not_ok (res : Response) :
  ok res = false ->
  respond parse (Answer res) = Rejected (McpRpcError (Some (failureCode parse res))).
Proof.
  intros Hok. unfold respond, failureCode. rewrite Hok. cbn [negb].
  destruct (length (jsonTextOf (text res)) =? 0); [reflexivity|].
  destruct (parse (jsonTextOf (text res))) as [json|]; reflexivity.
Qed.

(** X29: HTTP failures and retries.  Against a server that answers
    every request with the same response that is not ok, [rpc] rejects
    with an [McpRpcError] whose code is the code of the JSON-RPC error
    in the body when the body parses and holds one, and the HTTP
    status otherwise.  When that code is -32601 or lies between 400
    and 499 there is one request and no wait; otherwise there are
    [maxRetries + 1] requests (4 when the option is absent) with the
    waits of the attempts between them. *)
Theorem rpc_http_failure (fetch : nat -> Fetched) (res : Response)
    (maxRetries : option Z) (retryDelayMs : option Q) :
  (forall n, fetch n = Answer res) -> ok res = false ->
  (0 <= default 3%Z maxRetries)%Z ->
  let thrown := McpRpcError (Some (failureCode parse res)) in
  let requests := if isClientError thrown then 1
                  else Z.to_nat (default 3%Z maxRetries + 1) in
  rpc (fun n => respond parse (fetch n)) random maxRetries retryDelayMs =
  {| McpClient.result := Rejected thrown; calls := requests;
     sleeps := delays random (default 1000%Q retryDelayMs) (pred requests) |}.
Proof.
  intros Hfetch Hok Hmax thrown requests. unfold rpc.
  assert (Hfn : forall n, respond parse (fetch n) = Rejected thrown)
    by (intros n; rewrite Hfetch; apply respond_not_ok, Hok).
  subst requests. destruct (isClientError thrown) eqn:Hclient.
  - rewrite (McpClientProofs.retryWithBackoff_stop _ random 0); rewrite ?Hfn; auto.
    intros j Hj. lia.
  - rewrite (McpClientProofs.retryWithBackoff_stop _ random (Z.to_nat (default 3%Z maxRetries)));
      rewrite ?Hfn.
    + replace (Z.to_nat (default 3%Z maxRetries + 1)) with (S (Z.to_nat (default 3%Z maxRetries)))
        by lia.
      reflexivity.
    + lia.
    + intros j _. exists thrown. auto.
    + right. lia.
Qed.

End Request.

Lemma rpc_http_failure_witness :
  calls (rpc (fun n => respond parseSample (Answer notFoundPage)) (fun _ => 0%Q) None None) = 1 /\
  McpClient.result (rpc (fun n => respond parseSample (Answer methodMissing)) (fun _ => 0%Q)
                      None None) =
    Rejected (McpRpcError (Some (-32601)%Z)).
Proof.
  split.
  - rewrite (rpc_http_failure parseSample (fun _ => 0%Q) (fun _ => Answer notFoundPage)
               notFoundPage None None); [reflexivity | reflexivity | reflexivity | simpl; lia].
  - rewrite (rpc_http_failure parseSample (fun _ => 0%Q) (fun _ => Answer methodMissing)
               methodMissing None None); [reflexivity | reflexivity | reflexivity | simpl; lia].
Defined.

(** C7: an HTTP answer 404 is retried when its body is a JSON-RPC
    error.  For an answer that is not ok the request throws
    [err?.code ?? res.status], so the status 404 is lost behind the
    code -32000 of the body, which the test of [retryWithBackoff] for
    client errors (-32601, or 400 to 499) does not meet: with the
    default options [rpc] sends the request 4 times, waits 3 times and
    rejects with the code -32000, whatever [Math.random()] answers.
    The same status with a body that is no JSON-RPC error is not
    retried: one request. *)
Theorem rpc_retries_http_404 (random : nat -> Q) :
  let run := rpc (fun _ => respond parseRpcError (Answer notFoundRpc)) random None None in
  let sibling := rpc (fun _ => respond parseRpcError (Answer notFoundPage)) random None None in
  ok notFoundRpc = false /\ status notFoundRpc = 404%Z /\
  McpClient.result run = Rejected (McpRpcError (Some (-32000)%Z)) /\
  calls run = 4 /\ length (sleeps run) = 3 /\
  McpClient.result sibling = Rejected (McpRpcError (Some 404%Z)) /\
  calls sibling = 1 /\ sleeps sibling = [].
Proof.
  cbn zeta. unfold rpc. cbn [default].
  assert (Hrpc : respond parseRpcError (Answer notFoundRpc) =
                 Rejected (McpRpcError (Some (-32000)%Z))) by (vm_compute; reflexivity).
  assert (Hpage : respond parseRpcError (Answer notFoundPage) =
                  Rejected (McpRpcError (Some 404%Z))) by (vm_compute; reflexivity).
  rewrite (McpClientProofs.retryWithBackoff_stop
             (fun _ => respond parseRpcError (Answer notFoundRpc)) random 3 3 1000).
  - rewrite (McpClientProofs.retryWithBackoff_stop
               (fun _ => respond parseRpcError (Answer notFoundPage)) random 0 3 1000).
    + rewrite Hrpc, Hpage. cbn [McpClient.result calls sleeps].
      unfold delays. cbn [seq map length]. repeat split.
    + lia.
    + intros j Hj. lia.
    + rewrite Hpage. left. reflexivity.
  - lia.
  - intros j _. exists (McpRpcError (Some (-32000)%Z)). rewrite Hrpc. split; reflexivity.
  - rewrite Hrpc. right. reflexivity.
Qed.

(** ** Server-sent events *)

Lemma splitLF_line (l rest : jsstring) :
  10%N ∉ l -> splitLF (l ++ 10%N :: rest) = l :: splitLF rest.
Proof.
  induction l as [|c l IH]; intros Hno; simpl; [reflexivity|].
  destruct (c =? 10)%N eqn:Hc.
  - apply N.eqb_eq in Hc. subst. exfalso. apply Hno, list_elem_of_here.
  - rewrite IH; [reflexivity|]. intros H. apply Hno, list_elem_of_further, H.
Qed.

(** X30: the body of an answer in the format of server-sent events.
    When the body opens with an [event:] line that is followed by a
    [data:] line, the text handed to [JSON.parse] is what follows
    [data:] on that line, trimmed; a body that does not start with
    [event:] is parsed as it is. *)
Theorem jsonTextOf_event_stream (event payload rest body : jsstring) :
  10%N ∉ event -> 10%N ∉ payload ->
  jsonTextOf (js "event:" ++ event ++ [10%N] ++ js "data:" ++ payload ++ [10%N] ++ rest) =
    Fix.trim payload /\
  (startsWith body (js "event:") = false -> jsonTextOf body = body).
Proof.
  intros Hevent Hpayload. split.
  - unfold jsonTextOf.
    assert (Hstart : forall tail, startsWith (js "event:" ++ tail) (js "event:") = true)
      by (intros tail; apply FixProofs.startsWith_app).
    rewrite Hstart.
    replace (js "event:" ++ event ++ [10%N] ++ js "data:" ++ payload ++ [10%N] ++ rest)
      with ((js "event:" ++ event) ++ 10%N :: (js "data:" ++ payload) ++ 10%N :: rest)
      by (rewrite <- !app_assoc; reflexivity).
    rewrite splitLF_line.
    2:{ intros [H|H]%elem_of_app; [|contradiction].
        vm_compute in H. repeat (apply elem_of_cons in H as [H|H]; [discriminate|]). inversion H. }
    rewrite splitLF_line.
    2:{ intros [H|H]%elem_of_app; [|contradiction].
        vm_compute in H. repeat (apply elem_of_cons in H as [H|H]; [discriminate|]). inversion H. }
    cbn [List.find]. change (startsWith (js "event:" ++ event) (js "data:")) with false.
    cbn iota. rewrite FixProofs.startsWith_app.
    change (drop 5 (js "data:" ++ payload)) with payload. reflexivity.
  - intros Hno. unfold jsonTextOf. rewrite Hno. reflexivity.
Qed.

Lemma jsonTextOf_event_stream_witness :
  jsonTextOf (js "event: message" ++ [10%N] ++ js "data: {}  " ++ [10%N; 10%N]) = js "{}".
Proof.
  destruct (jsonTextOf_event_stream (js " message") (js " {}  ") [10%N] []) as [H _].
  - intros H. vm_compute in H. repeat (apply elem_of_cons in H as [H|H]; [discriminate|]). inversion H.
  - intros H. vm_compute in H. repeat (apply elem_of_cons in H as [H|H]; [discriminate|]). inversion H.
  - etransitivity; [exact H|]. vm_compute. reflexivity.
Defined.

End McpRequestProofs.
